(** * Transcript ingestion: parsing, section labelling, chunking, PII

    A shallow embedding of [scripts/ingest_transcripts.py] and the
    properties of its four stages: [parse_transcript], [label_sections],
    [make_chunks] and the PII pair [detect_pii] / [redact_pii].

    Conventions of the embedding.
    - A Python [str] is a [string]; a character is a code point below 256
      (Latin-1), and the character classes below are the Unicode ones of
      CPython restricted to that range.
    - A Python [int] is a [Z].
    - [Optional[...]] is [option]; the [section_type] strings are the
      constructors of [section].
    - The compiled regular expressions are values of [regex], run by a
      backtracking matcher [exec] that explores alternatives in the order
      of Python's [re] module (greedy: longest first, lazy: shortest first).
    - The [while] loop of [make_chunks] takes fuel; running out of it is the
      outcome [OutOfFuel], an [IndexError] the outcome [IndexError]. *)

From Stdlib Require Import ZArith List Bool Ascii String Lia Arith DecimalString.
Import ListNotations.

Open Scope string_scope.
Open Scope Z_scope.

(* ------------------------------------------------------------------ *)
(** ** Characters *)

Module Chars.

Definition code (c : ascii) : N := N_of_ascii c.

Definition between (lo hi : N) (c : ascii) : bool :=
  ((lo <=? code c) && (code c <=? hi))%N.

Definition is_code (n : N) (c : ascii) : bool := (code c =? n)%N.

(** [str.isspace] / the regex class [\s]: TAB..CR, FS..US, space, NEL, NBSP. *)
Definition is_space (c : ascii) : bool :=
  between 9 13 c || between 28 32 c || is_code 133 c || is_code 160 c.

(** The regex class [\d] (Unicode decimal digits): only 0-9 below 256. *)
Definition is_decimal (c : ascii) : bool := between 48 57 c.

(** [str.isdigit]: the decimal digits and the superscripts 2, 3, 1. *)
Definition is_digit (c : ascii) : bool :=
  is_decimal c || is_code 178 c || is_code 179 c || is_code 185 c.

Definition is_upper_az (c : ascii) : bool := between 65 90 c.
Definition is_lower_az (c : ascii) : bool := between 97 122 c.

(** [A-Z] under [re.IGNORECASE]. *)
Definition is_letter_az (c : ascii) : bool := is_upper_az c || is_lower_az c.

(** The regex class [\w]: alphanumeric code points and the underscore. *)
Definition is_word (c : ascii) : bool :=
  is_decimal c || is_letter_az c || is_code 95 c
  || is_code 170 c || is_code 178 c || is_code 179 c || is_code 181 c
  || is_code 185 c || is_code 186 c || between 188 190 c
  || between 192 214 c || between 216 246 c || between 248 255 c.

(** The regex [.] without DOTALL: anything but a line feed. *)
Definition is_dot (c : ascii) : bool := negb (is_code 10 c).

(** [str.lower] on one character. *)
Definition lower_char (c : ascii) : ascii :=
  if is_upper_az c || between 192 214 c || between 216 222 c
  then ascii_of_N (code c + 32) else c.

(** The characters at which [str.splitlines] breaks a line. *)
Definition is_linebreak (c : ascii) : bool :=
  between 10 13 c || between 28 30 c || is_code 133 c.

Definition LF : ascii := ascii_of_N 10.
Definition CR : ascii := ascii_of_N 13.

End Chars.
Export Chars.

(* ------------------------------------------------------------------ *)
(** ** Strings *)

Module Str.

Definition NL : string := String LF "".

Definition is_empty (s : string) : bool :=
  match s with "" => true | _ => false end.

Fixpoint map_chars (f : ascii -> ascii) (s : string) : string :=
  match s with
  | "" => ""
  | String c s' => String (f c) (map_chars f s')
  end.

(** [s.lower()] *)
Definition lower (s : string) : string := map_chars lower_char s.

Fixpoint lstrip_by (p : ascii -> bool) (s : string) : string :=
  match s with
  | "" => ""
  | String c s' => if p c then lstrip_by p s' else s
  end.

Fixpoint rstrip_by (p : ascii -> bool) (s : string) : string :=
  match s with
  | "" => ""
  | String c s' =>
      match rstrip_by p s' with
      | "" => if p c then "" else String c ""
      | r => String c r
      end
  end.

(** [s.strip()] *)
Definition strip (s : string) : string := rstrip_by is_space (lstrip_by is_space s).

(** [s.rstrip("\n")] *)
Definition rstrip_newline (s : string) : string := rstrip_by (is_code 10) s.

(** [s.endswith("\n")] *)
Fixpoint endswith_newline (s : string) : bool :=
  match s with
  | "" => false
  | String c "" => is_code 10 c
  | String _ s' => endswith_newline s'
  end.

(** [needle in hay] *)
Fixpoint contains (needle hay : string) : bool :=
  String.prefix needle hay
  || match hay with
     | "" => false
     | String _ hay' => contains needle hay'
     end.

(** [sep.join(parts)] *)
Fixpoint join (sep : string) (parts : list string) : string :=
  match parts with
  | [] => ""
  | [p] => p
  | p :: ps => p ++ sep ++ join sep ps
  end.

(** [text.splitlines()]: a line ends at a line-break character (CR LF
    counting as one break); the piece after the last break is a line only
    when it is not empty. [cur] holds the characters of the line being read,
    [after_cr] tells that the previous character was a CR. *)
Fixpoint splitlines_go (s : string) (cur : string) (after_cr : bool) : list string :=
  match s with
  | "" => if is_empty cur then [] else [cur]
  | String c s' =>
      if after_cr && is_code 10 c then splitlines_go s' cur false
      else if is_linebreak c then cur :: splitlines_go s' "" (is_code 13 c)
      else splitlines_go s' (cur ++ String c "") false
  end.

Definition splitlines (s : string) : list string := splitlines_go s "" false.

End Str.
Export Str.


(* ------------------------------------------------------------------ *)
(** ** Regular expressions

    Every pattern of the script is a sequence of literals, anchors and
    quantified character classes (some of them named groups), so a [regex]
    is a list of such items. [exec] is the backtracking matcher of [re]: a
    greedy quantifier first tries one more character and falls back to
    stopping, a lazy one first tries to stop. *)

Module Regex.

Inductive item : Type :=
| Bos                                   (* ^ *)
| Eos                                   (* $ *)
| WordB                                 (* \b *)
| Lit (c : ascii)
| Rep (name : option string) (cls : ascii -> bool)
      (lo : nat) (hi : option nat) (greedy : bool).

Definition regex : Type := list item.

Record re_match : Type := mkMatch {
  m_groups : list (string * string);    (* named groups, latest first *)
  m_text : string;                      (* group(0) *)
  m_rest : string                       (* the input after the match *)
}.

Definition below (n : nat) (hi : option nat) : bool :=
  match hi with
  | None => true
  | Some h => (n <? h)%nat
  end.

Definition word_before (prev : option ascii) : bool :=
  match prev with Some c => is_word c | None => false end.

Definition word_after (s : string) : bool :=
  match s with String c _ => is_word c | "" => false end.

(** [$] without MULTILINE: at the end, or before a final line feed. *)
Definition at_eos (s : string) : bool :=
  match s with
  | "" => true
  | String c "" => is_code 10 c
  | _ => false
  end.

Definition bind_group (name : option string) (taken : string)
    (caps : list (string * string)) : list (string * string) :=
  match name with
  | Some n => (n, taken) :: caps
  | None => caps
  end.

Section Repetition.
Context {R : Type}.
Variable cls : ascii -> bool.
Variables (lo : nat) (hi : option nat) (greedy : bool).
(** What follows the quantifier: called with the character before the
    position, the text the quantifier took and the remaining input. *)
Variable k : option ascii -> string -> string -> option R.

Fixpoint rep_loop (n : nat) (prev : option ascii) (taken s : string) : option R :=
  if greedy then
    match
      match s with
      | String c s' =>
          if cls c && below n hi
          then rep_loop (S n) (Some c) (taken ++ String c "") s'
          else None
      | "" => None
      end
    with
    | Some r => Some r
    | None => if (lo <=? n)%nat then k prev taken s else None
    end
  else
    match (if (lo <=? n)%nat then k prev taken s else None) with
    | Some r => Some r
    | None =>
        match s with
        | String c s' =>
            if cls c && below n hi
            then rep_loop (S n) (Some c) (taken ++ String c "") s'
            else None
        | "" => None
        end
    end.
End Repetition.

(** [exec re prev s acc caps]: match [re] at the position whose previous
    character is [prev] and whose remaining input is [s]; [acc] is the text
    matched so far and [caps] the groups bound so far. *)
Fixpoint exec (re : regex) (prev : option ascii) (s : string)
    (acc : string) (caps : list (string * string)) : option re_match :=
  match re with
  | [] => Some (mkMatch caps acc s)
  | Bos :: re' =>
      match prev with
      | None => exec re' prev s acc caps
      | Some _ => None
      end
  | Eos :: re' => if at_eos s then exec re' prev s acc caps else None
  | WordB :: re' =>
      if xorb (word_before prev) (word_after s)
      then exec re' prev s acc caps else None
  | Lit c :: re' =>
      match s with
      | String d s' =>
          if Ascii.eqb c d
          then exec re' (Some d) s' (acc ++ String d "") caps
          else None
      | "" => None
      end
  | Rep name cls lo hi greedy :: re' =>
      rep_loop cls lo hi greedy
        (fun prev' taken rest =>
           exec re' prev' rest (acc ++ taken) (bind_group name taken caps))
        0%nat prev "" s
  end.

(** [pattern.match(s)] *)
Definition re_match_at_start (re : regex) (s : string) : option re_match :=
  exec re None s "" [].

(** [m.group(name)] *)
Fixpoint group (name : string) (caps : list (string * string)) : string :=
  match caps with
  | [] => ""
  | (n, v) :: caps' => if String.eqb n name then v else group name caps'
  end.

(** [pattern.finditer(s)], as the list of the [group(0)] of the matches,
    for a pattern that cannot match the empty string: scan from the left, a
    match of [n] characters sends the scan [n] characters further ([skip]
    counts the characters of the last match still to pass). *)
Fixpoint finditer_go (re : regex) (prev : option ascii) (s : string)
    (skip : nat) : list string :=
  match s with
  | "" => []
  | String c s' =>
      match skip with
      | S n => finditer_go re (Some c) s' n
      | O =>
          match exec re prev s "" [] with
          | Some m => m_text m :: finditer_go re (Some c) s' (String.length (m_text m) - 1)
          | None => finditer_go re (Some c) s' 0
          end
      end
  end.

Definition finditer (re : regex) (s : string) : list string :=
  finditer_go re None s 0.

(** [pattern.sub(repl, s)] for a callable [repl] of the matched text, under
    the same condition on the pattern. *)
Fixpoint sub_go (re : regex) (repl : string -> string) (prev : option ascii)
    (s : string) (skip : nat) : string :=
  match s with
  | "" => ""
  | String c s' =>
      match skip with
      | S n => sub_go re repl (Some c) s' n
      | O =>
          match exec re prev s "" [] with
          | Some m =>
              repl (m_text m) ++ sub_go re repl (Some c) s' (String.length (m_text m) - 1)
          | None => String c (sub_go re repl (Some c) s' 0)
          end
      end
  end.

Definition sub (re : regex) (repl : string -> string) (s : string) : string :=
  sub_go re repl None s 0.

(** Shorthands for the quantifiers the patterns use. *)
Definition star (cls : ascii -> bool) : item := Rep None cls 0 None true.
Definition plus (cls : ascii -> bool) : item := Rep None cls 1 None true.
Definition opt (cls : ascii -> bool) : item := Rep None cls 0 (Some 1%nat) true.
Definition at_least (n : nat) (cls : ascii -> bool) : item := Rep None cls n None true.
Definition one (cls : ascii -> bool) : item := Rep None cls 1 (Some 1%nat) true.
Definition named (name : string) (cls : ascii -> bool) (lo : nat)
    (hi : option nat) (greedy : bool) : item := Rep (Some name) cls lo hi greedy.

End Regex.
Export Regex.

(* ------------------------------------------------------------------ *)
(** ** The patterns and marker lists of the script *)

Definition is_char (ch : string) (c : ascii) : bool :=
  match ch with
  | String d _ => Ascii.eqb c d
  | "" => false
  end.

Definition any_of (chars : string) (c : ascii) : bool :=
  contains (String c "") chars.

(** The patterns are quoted item by item (blanks separate the items).

    The part the two timestamp patterns share after the opening bracket:
    [(?P<h> \d{1,2} ) : (?P<m> \d{2} ) : (?P<s> \d{2} ) \) \s* : \s* (?P<rest> .* ) \s* $] *)
Definition TS_TAIL : regex :=
  [ named "h" is_decimal 1 (Some 2%nat) true; Lit ":";
    named "m" is_decimal 2 (Some 2%nat) true; Lit ":";
    named "s" is_decimal 2 (Some 2%nat) true; Lit ")";
    star is_space; Lit ":"; star is_space;
    named "rest" is_dot 0 None true; star is_space; Eos ].

(** [^ \s* (?P<speaker> .+? ) \s* \( ] followed by [TS_TAIL] *)
Definition RE_SPEAKER_TS : regex :=
  ([ Bos; star is_space; named "speaker" is_dot 1 None false; star is_space; Lit "(" ]
   ++ TS_TAIL)%list.

(** [^ \s* \( ] followed by [TS_TAIL] *)
Definition RE_TS_ONLY : regex :=
  ([ Bos; star is_space; Lit "(" ] ++ TS_TAIL)%list.

Definition email_local (c : ascii) : bool :=
  is_letter_az c || is_decimal c || any_of "._%+-" c.

Definition email_domain (c : ascii) : bool :=
  is_letter_az c || is_decimal c || any_of ".-" c.

(** [\b [A-Z0-9._%+-]+ @ [A-Z0-9.-]+ \. [A-Z]{2,} \b] with IGNORECASE *)
Definition EMAIL_RE : regex :=
  [ WordB; plus email_local; Lit "@"; plus email_domain; Lit ".";
    at_least 2 is_letter_az; WordB ].

Definition phone_inner (c : ascii) : bool :=
  is_decimal c || is_space c || any_of "().-" c.

(** [\+? \d [\d\s().-]{7,} \d], the whole being group 1 *)
Definition PHONE_RE : regex :=
  [ opt (is_char "+"); one is_decimal; at_least 7 phone_inner; one is_decimal ].

Definition SPONSOR_START : list string :=
  [ "this episode is brought to you by";
    "sponsored by";
    "our sponsor";
    "support this podcast";
    "thanks to our sponsor" ].

Definition SPONSOR_TRANSITION : list string :=
  [ "and so with that";
    "with that";
    "let's get into";
    "now, my guest";
    "here's my conversation";
    "okay, let's start";
    "let's start";
    "today's guest";
    "i bring you" ].

Definition OUTRO_MARKERS : list string :=
  [ "thank you so much for listening";
    "thanks so much for listening";
    "if you enjoyed this episode";
    "please subscribe";
    "see you next time";
    "leave a review" ].

(** [^ \s* \. \. \. \s* $] *)
Definition ELLIPSIS_LINE : regex :=
  [ Bos; star is_space; Lit "."; Lit "."; Lit "."; star is_space; Eos ].

Definition ellipsis_match (s : string) : bool :=
  match re_match_at_start ELLIPSIS_LINE s with Some _ => true | None => false end.

(** [re.findall(r"\w+", s)] uses the pattern [\w+]. *)
Definition WORD_RE : regex := [ plus is_word ].

(* ------------------------------------------------------------------ *)
(** ** Data model *)

Inductive section : Type := Unknown | Intro | Sponsor | Conversation | Outro.

Definition section_eqb (a b : section) : bool :=
  match a, b with
  | Unknown, Unknown | Intro, Intro | Sponsor, Sponsor
  | Conversation, Conversation | Outro, Outro => true
  | _, _ => false
  end.

Inductive pii_kind : Type := Email | Phone.

(** One entry of [pii_flags]: the dict with keys [type] and [value]. *)
Record pii_flag : Type := mkFlag { pii_type : pii_kind; pii_value : string }.

Record Turn : Type := mkTurn {
  speaker : option string;
  t : Z;
  text : string;
  section_type : section;
  is_elided : bool;
  pii_flags : option (list pii_flag)
}.

Definition set_text (tr : Turn) (s : string) : Turn :=
  mkTurn (speaker tr) (t tr) s (section_type tr) (is_elided tr) (pii_flags tr).

Definition set_section_type (tr : Turn) (l : section) : Turn :=
  mkTurn (speaker tr) (t tr) (text tr) l (is_elided tr) (pii_flags tr).

Definition set_is_elided (tr : Turn) (b : bool) : Turn :=
  mkTurn (speaker tr) (t tr) (text tr) (section_type tr) b (pii_flags tr).

Definition set_pii_flags (tr : Turn) (f : option (list pii_flag)) : Turn :=
  mkTurn (speaker tr) (t tr) (text tr) (section_type tr) (is_elided tr) f.

(** The dict [make_chunks] appends. *)
Module Chunk.
Record chunk : Type := mk {
  chunk_id : Z;
  t_start : Z;
  t_end : Z;
  speakers : list string;
  text : string
}.
End Chunk.

(** Truth value of a string, of a list and of an optional list. *)
Definition nonempty (s : string) : bool := negb (is_empty s).

Definition truthy_list {A : Type} (l : list A) : bool :=
  match l with [] => false | _ :: _ => true end.

Definition truthy_flags (f : option (list pii_flag)) : bool :=
  match f with Some l => truthy_list l | None => false end.

(* ------------------------------------------------------------------ *)
(** ** [ts_to_seconds], [detect_pii], [redact_pii] *)

Definition digit_value (c : ascii) : Z := Z.of_N (code c) - 48.

(** [int(s)] for a string of decimal digits. *)
Fixpoint int_of_digits (s : string) (acc : Z) : Z :=
  match s with
  | "" => acc
  | String c s' => int_of_digits s' (10 * acc + digit_value c)
  end.

Definition int (s : string) : Z := int_of_digits s 0.

Definition ts_to_seconds (h m s : string) : Z :=
  int h * 3600 + int m * 60 + int s.

(** [sum(c.isdigit() for c in val)] *)
Fixpoint count_digits (val : string) : Z :=
  match val with
  | "" => 0
  | String c val' => (if is_digit c then 1 else 0) + count_digits val'
  end.

Definition detect_pii (text : string) : list pii_flag :=
  let flags := map (mkFlag Email) (finditer EMAIL_RE text) in
  (flags
   ++ map (mkFlag Phone)
        (filter (fun val => 10 <=? count_digits val) (finditer PHONE_RE text)))%list.

Definition _phone_sub (val : string) : string :=
  if 10 <=? count_digits val then "[REDACTED_PHONE]" else val.

Definition redact_pii (text : string) : string :=
  let text := sub EMAIL_RE (fun _ => "[REDACTED_EMAIL]") text in
  sub PHONE_RE _phone_sub text.

(* ------------------------------------------------------------------ *)
(** ** [parse_transcript] *)

(** The outcome of the two [match] calls on a line: the speaker, the time
    and the stripped remainder when [m1] or [m2] matched ([m1] first). *)
Definition match_timestamp (line : string) : option (option string * Z * string) :=
  let m1 := re_match_at_start RE_SPEAKER_TS line in
  let m2 := re_match_at_start RE_TS_ONLY line in
  match m1, m2 with
  | Some m, _ =>
      let g := m_groups m in
      Some (Some (strip (group "speaker" g)),
            ts_to_seconds (group "h" g) (group "m" g) (group "s" g),
            strip (group "rest" g))
  | None, Some m =>
      let g := m_groups m in
      Some (None,
            ts_to_seconds (group "h" g) (group "m" g) (group "s" g),
            strip (group "rest" g))
  | None, None => None
  end.

(** The parser's variables [turns] and [cur]. *)
Definition parser_state : Type := list Turn * option Turn.

(** One iteration of the loop over [text.splitlines()]. *)
Definition parse_line (redact : bool) (st : parser_state) (raw_line : string)
    : parser_state :=
  let '(turns, cur) := st in
  let line := rstrip_newline raw_line in
  if is_empty (strip line) then
    (* keep paragraph breaks inside a turn *)
    match cur with
    | Some c =>
        if nonempty (text c) && negb (endswith_newline (text c))
        then (turns, Some (set_text c (text c ++ NL)))
        else (turns, cur)
    | None => (turns, cur)
    end
  else
    match match_timestamp line with
    | Some (speaker, t, rest) =>
        (* flush previous *)
        let turns :=
          match cur with
          | Some c => (turns ++ [set_text c (strip (text c))])%list
          | None => turns
          end in
        let is_elided := ellipsis_match rest || is_empty rest in
        let rest := if redact && nonempty rest then redact_pii rest else rest in
        let cur := mkTurn speaker t rest Unknown is_elided None in
        let cur :=
          if nonempty rest then
            let flags := detect_pii rest in
            set_pii_flags cur (if truthy_list flags then Some flags else None)
          else cur in
        (turns, Some cur)
    | None =>
        (* continuation line *)
        let cur :=
          match cur with
          | Some c => c
          | None => mkTurn None 0 "" Unknown false None
          end in
        let cont := strip line in
        let cont := if redact && nonempty cont then redact_pii cont else cont in
        let cur :=
          if nonempty (text cur) && negb (endswith_newline (text cur))
          then set_text cur (text cur ++ " ") else cur in
        let cur := set_text cur (text cur ++ cont) in
        let cur :=
          if nonempty cont && negb (ellipsis_match cont)
          then set_is_elided cur false else cur in
        let cur :=
          if nonempty cont then
            let flags := detect_pii cont in
            if truthy_list flags
            then set_pii_flags cur
                   (Some ((match pii_flags cur with
                           | Some l => if truthy_list l then l else []
                           | None => []
                           end) ++ flags)%list)
            else cur
          else cur in
        (turns, Some cur)
    end.

(** The final flush. *)
Definition parse_finish (st : parser_state) : list Turn :=
  let '(turns, cur) := st in
  match cur with
  | Some c => (turns ++ [set_text c (strip (text c))])%list
  | None => turns
  end.

Definition parse_lines (redact : bool) (lines : list string) (st : parser_state)
    : parser_state :=
  fold_left (parse_line redact) lines st.

Definition parse_transcript (text : string) (redact : bool) : list Turn :=
  parse_finish (parse_lines redact (splitlines text) ([], None)).

(** [has_pii] as [ingest_folder] computes it:
    [any(t.pii_flags for t in turns if t.pii_flags)]. *)
Definition has_pii (turns : list Turn) : bool :=
  existsb truthy_flags
    (map pii_flags (filter (fun t => truthy_flags (pii_flags t)) turns)).

(* ------------------------------------------------------------------ *)
(** ** [label_sections] *)

Record label_state : Type := mkLabel {
  sponsor_mode : bool;
  sponsor_start_t : option Z;
  outro_mode : bool
}.

(** [any(k in text_l for k in markers)] *)
Definition any_in (markers : list string) (text_l : string) : bool :=
  existsb (fun k => contains k text_l) markers.

(** One iteration of the loop: [i] is the index of [tr], [before] the turns
    [turns[:i]] as the earlier iterations left them. The result is the
    state after the iteration and the label given to [tr]. *)
Definition label_turn (i : nat) (before : list Turn) (st : label_state) (tr : Turn)
    : label_state * section :=
  let text_l := lower (text tr) in
  if outro_mode st then (st, Outro)
  else if any_in OUTRO_MARKERS text_l then
    (mkLabel (sponsor_mode st) (sponsor_start_t st) true, Outro)
  else if negb (sponsor_mode st) && any_in SPONSOR_START text_l then
    (mkLabel true (Some (t tr)) (outro_mode st), Sponsor)
  else if sponsor_mode st then
    if any_in SPONSOR_TRANSITION text_l then
      (mkLabel false None (outro_mode st), Conversation)
    else if match sponsor_start_t st with
            | Some t0 => 8 * 60 <? t tr - t0
            | None => false
            end then
      (mkLabel false None (outro_mode st), Conversation)
    else (st, Sponsor)
  else
    (* not sponsor/outro *)
    if (i =? 0)%nat then (st, Intro)
    else
      let saw_sponsor_before :=
        existsb (fun t => section_eqb (section_type t) Sponsor) before in
      (st, if saw_sponsor_before then Conversation else Intro).

(** The loop, with the already relabelled prefix [before]. *)
Fixpoint label_loop (before : list Turn) (st : label_state) (rest : list Turn)
    : list Turn :=
  match rest with
  | [] => before
  | tr :: rest' =>
      let '(st', l) := label_turn (List.length before) before st tr in
      label_loop (before ++ [set_section_type tr l])%list st' rest'
  end.

(** The list after the in-place labelling. The function mutates the Turn
    objects of its argument; [parse_transcript], its only caller's source of
    Turns, builds every Turn object once and appends it once, so the list
    holds distinct objects and writing [section_type] of [turns[i]] is the
    update of position [i]. The labels read back from [turns[:i]] are the
    ones the earlier iterations wrote ([before] in [label_loop]). *)
Definition label_sections (turns : list Turn) : list Turn :=
  match turns with
  | [] => []
  | _ => label_loop [] (mkLabel false None false) turns
  end.

(* ------------------------------------------------------------------ *)
(** ** [make_chunks] *)

(** How a run of the chunking loop ends. *)
Inductive outcome (A : Type) : Type :=
| Returned (a : A)
| IndexError
| OutOfFuel.
Arguments Returned {A} a.
Arguments IndexError {A}.
Arguments OutOfFuel {A}.

(** [l[k]] with Python's negative indices; [None] is an [IndexError]. *)
Definition py_index {A : Type} (l : list A) (k : Z) : option A :=
  let n := Z.of_nat (List.length l) in
  if (0 <=? k) && (k <? n) then nth_error l (Z.to_nat k)
  else if (- n <=? k) && (k <? 0) then nth_error l (Z.to_nat (n + k))
  else None.

Definition allowed (include_intro : bool) (l : section) : bool :=
  section_eqb l Conversation || (include_intro && section_eqb l Intro).

(** The condition of the list comprehension that builds [usable]. *)
Definition is_usable (include_intro : bool) (tr : Turn) : bool :=
  allowed include_intro (section_type tr)
  && nonempty (strip (text tr))
  && negb (is_elided tr)
  && negb (ellipsis_match (strip (text tr))).

Definition usable_turns (include_intro : bool) (turns : list Turn) : list Turn :=
  filter (is_usable include_intro) turns.

Definition word_count (s : string) : Z :=
  Z.of_nat (List.length (finditer WORD_RE s)).

(** [sum] of the word counts of some turns. *)
Definition total_words (turns : list Turn) : Z :=
  fold_right (fun tr acc => word_count (text tr) + acc) 0 turns.

Fixpoint zfill (width : nat) (digits : string) : string :=
  match (width - String.length digits)%nat with
  | O => digits
  | S _ =>
      match width with
      | O => digits
      | S w => String "0" (zfill w digits)
      end
  end.

Definition decimal (n : Z) : string := NilZero.string_of_uint (N.to_uint (Z.to_N n)).

(** [format(n, "06d")] *)
Definition format_06d (n : Z) : string :=
  if n <? 0 then "-" ++ zfill 5 (decimal (- n)) else zfill 6 (decimal n).

(** [speakers.add(spk)] on a set kept as a duplicate-free list. *)
Definition set_add (spk : string) (speakers : list string) : list string :=
  if existsb (String.eqb spk) speakers then speakers else (speakers ++ [spk])%list.

Fixpoint insert_sorted (x : string) (l : list string) : list string :=
  match l with
  | [] => [x]
  | y :: l' => if String.leb x y then x :: l else y :: insert_sorted x l'
  end.

(** [sorted(speakers)] *)
Definition sorted (speakers : list string) : list string :=
  fold_right insert_sorted [] speakers.

(** [(t.speaker or "Narration").strip()] *)
Definition speaker_label (tr : Turn) : string :=
  strip (match speaker tr with
         | Some s => if nonempty s then s else "Narration"
         | None => "Narration"
         end).

Definition render_turn (tr : Turn) : string :=
  speaker_label tr ++ " (" ++ format_06d (t tr) ++ "s): " ++ text tr.

(** The variables of the inner loop. *)
Record pack_state : Type := mkPack {
  pk_words : Z;
  pk_buf_parts : list string;
  pk_speakers : list string;
  pk_i : Z
}.

(** The inner [while i < len(usable) and words < target_words]; [rest] is
    [usable[i:]]. *)
Fixpoint pack (target_words : Z) (rest : list Turn) (st : pack_state) : pack_state :=
  match rest with
  | [] => st
  | tr :: rest' =>
      if pk_words st <? target_words then
        pack target_words rest'
          (mkPack (pk_words st + word_count (text tr))
                  (pk_buf_parts st ++ [render_turn tr])
                  (set_add (speaker_label tr) (pk_speakers st))
                  (pk_i st + 1))
      else st
  end.

(** A chunk as appended, with the loop variables at that moment: the start
    index [start_i], the index [i] where packing stopped ([end_i + 1]) and
    the running word count [words]. These three are not fields of the
    emitted dict. *)
Record emitted : Type := mkEmitted {
  em_chunk : Chunk.chunk;
  em_start_i : Z;
  em_stop_i : Z;
  em_words : Z
}.

(** The index after a chunk: the [if overlap_turns > 0] at the loop's end. *)
Definition next_index (overlap_turns start_i i : Z) : Z :=
  if 0 <? overlap_turns then Z.max (i - overlap_turns) (start_i + 1) else i.

(** One iteration of the outer loop, started at index [i]. *)
Definition chunk_step (usable : list Turn) (target_words overlap_turns : Z)
    (i chunk_id : Z) : option (emitted * Z) :=
  let start_i := i in
  let st := pack target_words (skipn (Z.to_nat i) usable) (mkPack 0 [] [] i) in
  let i := pk_i st in
  let end_i := i - 1 in
  match py_index usable start_i, py_index usable end_i with
  | Some first, Some last =>
      let chunk_text := strip (join NL (pk_buf_parts st)) in
      Some (mkEmitted
              (Chunk.mk chunk_id (t first) (t last) (sorted (pk_speakers st)) chunk_text)
              start_i i (pk_words st),
            next_index overlap_turns start_i i)
  | _, _ => None
  end.

(** The outer [while i < len(usable)], one unit of fuel per iteration. *)
Fixpoint chunk_loop (fuel : nat) (usable : list Turn) (target_words overlap_turns : Z)
    (i chunk_id : Z) (chunks : list emitted) : outcome (list emitted) :=
  if i <? Z.of_nat (List.length usable) then
    match fuel with
    | O => OutOfFuel
    | S fuel' =>
        match chunk_step usable target_words overlap_turns i chunk_id with
        | Some (c, i') =>
            chunk_loop fuel' usable target_words overlap_turns i' (chunk_id + 1)
              (chunks ++ [c])%list
        | None => IndexError
        end
    end
  else Returned chunks.

(** [make_chunks] with the loop variables recorded beside each chunk. *)
Definition make_chunks_traced (fuel : nat) (turns : list Turn) (include_intro : bool)
    (target_words overlap_turns : Z) : outcome (list emitted) :=
  let usable := usable_turns include_intro turns in
  match usable with
  | [] => Returned []
  | _ => chunk_loop fuel usable target_words overlap_turns 0 0 []
  end.

Definition map_outcome {A B : Type} (f : A -> B) (o : outcome A) : outcome B :=
  match o with
  | Returned a => Returned (f a)
  | IndexError => IndexError
  | OutOfFuel => OutOfFuel
  end.

Definition make_chunks (fuel : nat) (turns : list Turn) (include_intro : bool)
    (target_words overlap_turns : Z) : outcome (list Chunk.chunk) :=
  map_outcome (map em_chunk)
    (make_chunks_traced fuel turns include_intro target_words overlap_turns).

(* ------------------------------------------------------------------ *)
(** ** Notions the statements use *)

(** The Turns a chunk was packed from: [usable[start_i:stop_i]]. *)
Definition contributing (usable : list Turn) (c : emitted) : list Turn :=
  firstn (Z.to_nat (em_stop_i c - em_start_i c))
         (skipn (Z.to_nat (em_start_i c)) usable).

(** The chunks the outer loop appends when it is entered at index [i] with
    [chunk_id = cid], iteration by iteration. *)
Inductive trace_from (usable : list Turn) (target_words overlap_turns : Z)
    : Z -> Z -> list emitted -> Prop :=
| trace_done : forall i cid,
    Z.of_nat (List.length usable) <= i ->
    trace_from usable target_words overlap_turns i cid []
| trace_step : forall i cid c i' more,
    i < Z.of_nat (List.length usable) ->
    chunk_step usable target_words overlap_turns i cid = Some (c, i') ->
    trace_from usable target_words overlap_turns i' (cid + 1) more ->
    trace_from usable target_words overlap_turns i cid (c :: more).

Fixpoint strictly_increasing (l : list Z) : Prop :=
  match l with
  | a :: (b :: _) as l' => a < b /\ strictly_increasing l'
  | _ => True
  end.

Definition start_indices (cs : list emitted) : list Z := map em_start_i cs.

(** A configuration on which the loop cannot stall. *)
Definition advancing (target_words overlap_turns : Z) : Prop :=
  1 <= target_words \/ 1 <= overlap_turns.

(** What one iteration entered at index [i] with [chunk_id = cid] appends:
    the chunk [c] covers [usable[i:stop_i]], its dict is built from these
    Turns, and packing went on until the target was reached or the sequence
    was exhausted, and no further. *)
Definition step_ok (usable : list Turn) (target_words i cid : Z) (c : emitted) : Prop :=
  let n := Z.of_nat (List.length usable) in
  em_start_i c = i
  /\ i <= em_stop_i c <= n
  /\ em_words c = total_words (contributing usable c)
  /\ (em_stop_i c < n -> target_words <= em_words c)
  /\ (1 <= target_words -> i < em_stop_i c)
  /\ (i < em_stop_i c ->
      total_words (firstn (Z.to_nat (em_stop_i c - i - 1))
                          (skipn (Z.to_nat i) usable)) < target_words)
  /\ (total_words usable < target_words -> em_stop_i c = n)
  /\ Chunk.chunk_id (em_chunk c) = cid
  /\ Chunk.text (em_chunk c)
     = strip (join NL (map render_turn (contributing usable c)))
  /\ (exists first, py_index usable i = Some first
                    /\ Chunk.t_start (em_chunk c) = t first)
  /\ (exists last, py_index usable (em_stop_i c - 1) = Some last
                   /\ Chunk.t_end (em_chunk c) = t last).

(** Inputs the examples run on. *)
Definition conv_turn (secs : Z) (s : string) : Turn :=
  mkTurn (Some "Host") secs s Conversation false None.

Definition six_words : string := "one two three four five six".

Definition four_turns : list Turn :=
  [ conv_turn 0 six_words; conv_turn 10 six_words;
    conv_turn 20 six_words; conv_turn 30 six_words ].

Definition short_pair : list Turn :=
  [ conv_turn 0 six_words; conv_turn 10 "seven eight" ].

Definition raw_turn (secs : Z) (s : string) : Turn :=
  mkTurn (Some "Host") secs s Unknown false None.

Definition farewell_turns : list Turn :=
  [ raw_turn 0 "Welcome back to the show.";
    raw_turn 3000 "Thanks so much for listening, everyone.";
    raw_turn 3010 "One more thing about pricing." ].

(** [p] holds of every character of [s]. *)
Fixpoint all_chars (p : ascii -> bool) (s : string) : bool :=
  match s with
  | "" => true
  | String c s' => p c && all_chars p s'
  end.

(** A line the parser skips: [not line.strip()]. *)
Definition is_blank (line : string) : bool := is_empty (strip line).

Definition matches (re : regex) (line : string) : bool :=
  match re_match_at_start re line with Some _ => true | None => false end.

(** A line matching one of the two timestamp patterns. *)
Definition is_timestamp_line (line : string) : bool :=
  matches RE_SPEAKER_TS line || matches RE_TS_ONLY line.

Definition count_timestamp_lines (lines : list string) : nat :=
  List.length (filter is_timestamp_line lines).

(** The first non-blank line exists and is a continuation line. *)
Definition opens_with_continuation (lines : list string) : bool :=
  match find (fun l => negb (is_blank l)) lines with
  | Some l => negb (is_timestamp_line l)
  | None => false
  end.

(** [pii_flags] for the list of flags found: absent when nothing was found. *)
Definition flags_of (found : list pii_flag) : option (list pii_flag) :=
  if truthy_list found then Some found else None.

(** The stripped payloads of the lines of each Turn, in order, before any
    redaction: the remainder of its timestamp line (none for the synthetic
    leading Turn) and its continuation lines. Written from the description
    of the parser, to state where the flags of a Turn come from. *)
Fixpoint turn_pieces_go (lines : list string) (cur : option (list string))
    : list (list string) :=
  match lines with
  | [] => match cur with Some ps => [ps] | None => [] end
  | raw_line :: lines' =>
      let line := rstrip_newline raw_line in
      if is_blank line then turn_pieces_go lines' cur
      else
        match match_timestamp line with
        | Some (_, _, rest) =>
            (match cur with Some ps => [ps] | None => [] end)
            ++ turn_pieces_go lines' (Some [rest])
        | None =>
            turn_pieces_go lines'
              (Some (match cur with Some ps => ps | None => [] end ++ [strip line]))
        end
  end%list.

Definition turn_pieces (text : string) : list (list string) :=
  turn_pieces_go (splitlines text) None.

(** The payload as the parser stores it. *)
Definition stored (redact : bool) (piece : string) : string :=
  if redact then redact_pii piece else piece.

(** What [detect_pii] finds in the stored payloads of a Turn. *)
Definition scan (redact : bool) (pieces : list string) : list pii_flag :=
  flat_map (fun p => detect_pii (stored redact p)) pieces.

(** The open Turn [cur] carries the flags of the payloads [curp]. *)
Definition open_agrees (redact : bool) (cur : option Turn)
    (curp : option (list string)) : Prop :=
  match cur, curp with
  | Some c, Some ps => pii_flags c = flags_of (scan redact ps)
  | None, None => True
  | _, _ => False
  end.

(** The number of Turns the parser holds open: one or none. *)
Definition pending (cur : option Turn) : nat :=
  match cur with Some _ => 1 | None => 0 end.

(** The speaker and time of the first Turn the parser holds, flushed or
    still open. *)
Definition head_key (st : parser_state) : option (option string * Z) :=
  match fst st, snd st with
  | tr :: _, _ => Some (speaker tr, t tr)
  | [], Some c => Some (speaker c, t c)
  | [], None => None
  end.

(** Texts of the scenarios. *)
Definition jane_text : string :=
  "Jane Doe (00:01:05): I disagree with that." ++ NL ++ NL ++ "and here's why.".

Definition ellipsis_text : string := "(00:00:10): ...".

Definition leaky_text : string := "a@b.cd1234567890".



Definition narrated_text : string :=
  "Recorded live in Lisbon." ++ NL ++ "Host (00:00:03): Welcome." ++ NL.

(** The strings a pattern can consume, its anchors left aside: a literal
    consumes itself, a quantified class a run of its characters within the
    bounds. *)
Fixpoint shape (re : regex) (w : string) : Prop :=
  match re with
  | [] => w = ""
  | Bos :: re' | Eos :: re' | WordB :: re' => shape re' w
  | Lit c :: re' => exists w', w = String c w' /\ shape re' w'
  | Rep _ cls lo hi _ :: re' =>
      exists u v,
        w = u ++ v
        /\ all_chars cls u = true
        /\ (lo <= String.length u)%nat
        /\ match hi with Some h => (String.length u <= h)%nat | None => True end
        /\ shape re' v
  end.

(** [v] occurs in [s]. *)
Definition occurs (v s : string) : Prop := exists a b, s = a ++ v ++ b.

(** [v] is not empty and neither starts nor ends with white space. *)
Definition solid (v : string) : Prop :=
  (exists c w, v = String c w /\ is_space c = false)
  /\ rstrip_by is_space v = v.

(** Every flag of the Turn reports a value that occurs in its text. *)
Definition flags_held (tr : Turn) : Prop :=
  forall fl f,
    pii_flags tr = Some fl -> In f fl ->
    solid (pii_value f) /\ occurs (pii_value f) (text tr).

(* ------------------------------------------------------------------ *)
(** ** Further notions *)

From Stdlib Require Import Sorted.

(** Consecutive chunks are related by [R]. *)
Fixpoint linked (R : emitted -> emitted -> Prop) (cs : list emitted) : Prop :=
  match cs with
  | a :: (b :: _) as cs' => R a b /\ linked R cs'
  | _ => True
  end.

(** The set [speakers] after the inner loop has taken the Turns [trs]. *)
Definition labels_of (trs : list Turn) : list string :=
  fold_left (fun acc tr => set_add (speaker_label tr) acc) trs [].

Definition leb_string (a b : string) : Prop := String.leb a b = true.

(** Two usable Turns with different speakers, for the examples. *)
Definition guest_turn (secs : Z) (s : string) : Turn :=
  mkTurn (Some "Guest") secs s Conversation false None.

Definition dialogue : list Turn :=
  [ conv_turn 0 six_words; guest_turn 10 six_words;
    conv_turn 20 six_words; guest_turn 30 "seven eight" ].

(** [any(t.section_type == "sponsor" for t in before)] *)
Definition has_sponsor (before : list Turn) : bool :=
  existsb (fun t => section_eqb (section_type t) Sponsor) before.

(** A Turn with its label erased, to compare the other fields. *)
Definition unlabelled (tr : Turn) : Turn := set_section_type tr Unknown.

(** The Turn's lowercased text holds a sponsor-start phrase. *)
Definition opens_sponsor (tr : Turn) : bool :=
  any_in SPONSOR_START (lower (text tr)).

(** The state the labelling loop starts in. *)
Definition label_init : label_state := mkLabel false None false.

(** While in sponsor mode, the Turn that opened the segment is known: it
    is labelled sponsor, holds a sponsor-start phrase, and its time is the
    recorded start. *)
Definition sponsor_anchor (before : list Turn) (st : label_state) : Prop :=
  sponsor_mode st = true ->
  exists t0 opener,
    sponsor_start_t st = Some t0
    /\ In opener before
    /\ section_type opener = Sponsor
    /\ opens_sponsor opener = true
    /\ t opener = t0.

Definition sponsor_break : list Turn :=
  [ raw_turn 0 "Hello and welcome.";
    raw_turn 20 "This episode is brought to you by Acme.";
    raw_turn 40 "Acme makes anvils.";
    raw_turn 600 "Anvils for everyone.";
    raw_turn 620 "Glad to be here." ].

(** A string without white space at either end. *)
Definition stripped (s : string) : Prop := strip s = s.

(** What a parsed Turn's speaker and text look like. *)
Definition tidy (tr : Turn) : Prop :=
  stripped (text tr)
  /\ match speaker tr with Some s => stripped s | None => True end.

(** The speaker and time of a Turn. *)
Definition turn_key (tr : Turn) : option string * Z := (speaker tr, t tr).

(** The two parser states hold Turns with the same speakers and times. *)
Definition same_keys (a b : parser_state) : Prop :=
  map turn_key (fst a) = map turn_key (fst b)
  /\ option_map turn_key (snd a) = option_map turn_key (snd b).

(** The named groups a pattern binds, latest first: each holds a run of
    its class within its bounds. *)
Fixpoint caps_shape (re : regex) (caps : list (string * string)) : Prop :=
  match re with
  | [] => caps = []
  | Rep (Some name) cls lo hi _ :: re' =>
      exists u rest,
        caps = (rest ++ [(name, u)])%list
        /\ all_chars cls u = true
        /\ (lo <= String.length u)%nat
        /\ match hi with Some h => (String.length u <= h)%nat | None => True end
        /\ caps_shape re' rest
  | _ :: re' => caps_shape re' caps
  end.

(** The largest time a timestamp can denote: 99:99:99. *)
Definition MAX_SECONDS : Z := 99 * 3600 + 99 * 60 + 99.

(** [s[n:]] *)
Fixpoint drop (n : nat) (s : string) : string :=
  match n, s with
  | O, _ => s
  | S n', String _ s' => drop n' s'
  | S _, "" => ""
  end.

(** [s.count(c)] for a character. *)
Fixpoint count_char (c : ascii) (s : string) : Z :=
  match s with
  | "" => 0
  | String d s' => (if Ascii.eqb c d then 1 else 0) + count_char c s'
  end.

Definition sum_Z (l : list Z) : Z := fold_right Z.add 0 l.

(** The opening bracket of the redaction tokens. *)
Definition BRACKET : ascii := "["%char.

(* ------------------------------------------------------------------ *)
(** ** [slugify] *)

(** [[^a-z0-9]] *)
Definition not_slug (c : ascii) : bool := negb (is_lower_az c || is_decimal c).

(** [[^a-z0-9]+] *)
Definition SLUG_GAP : regex := [ plus not_slug ].

(** [s.strip(chars)], [chars] given as a class. *)
Definition strip_by (p : ascii -> bool) (s : string) : string :=
  rstrip_by p (lstrip_by p s).

(** [s[:n]] *)
Fixpoint take (n : nat) (s : string) : string :=
  match n, s with
  | S n', String c s' => String c (take n' s')
  | _, _ => ""
  end.

Definition slugify (name : string) : string :=
  let name := lower (strip name) in
  let name := sub SLUG_GAP (fun _ => "-") name in
  take 120 (strip_by (is_char "-") name).

(** The characters of a slug: [a-z], [0-9] and the dash. *)
Definition slug_char (c : ascii) : bool :=
  is_lower_az c || is_decimal c || is_char "-" c.

(** The longest prefix of [s] within the class. *)
Fixpoint take_while (cls : ascii -> bool) (s : string) : string :=
  match s with
  | "" => ""
  | String c s' => if cls c then String c (take_while cls s') else ""
  end.

(** Every maximal run of the class replaced by one dash; [in_run] tells
    that the character before belongs to a run already replaced. *)
Fixpoint squeeze (cls : ascii -> bool) (in_run : bool) (s : string) : string :=
  match s with
  | "" => ""
  | String c s' =>
      if cls c
      then if in_run then squeeze cls true s' else String "-" (squeeze cls true s')
      else String c (squeeze cls false s')
  end.

(* ------------------------------------------------------------------ *)
(** ** Transcripts without flags *)

(** The Turn holds no PII flag. *)
Definition unflagged (tr : Turn) : Prop := truthy_flags (pii_flags tr) = false.

(** No Turn of the parser state holds a PII flag. *)
Definition clean_state (st : parser_state) : Prop :=
  Forall unflagged (fst st)
  /\ match snd st with Some c => unflagged c | None => True end.

(* ------------------------------------------------------------------ *)
(** * The embedding at work *)

Example splitlines_breaks :
  splitlines ("a" ++ String CR NL ++ "b" ++ NL ++ NL ++ "c" ++ NL) = ["a"; "b"; ""; "c"].
Proof. reflexivity. Qed.

Example speaker_is_shortest :
  option_map (fun m => (group "speaker" (m_groups m), group "h" (m_groups m),
                        group "rest" (m_groups m)))
             (re_match_at_start RE_SPEAKER_TS "Jane Doe (0:01:05) :  hello (1:00:00): x ")
  = Some ("Jane Doe", "0", "hello (1:00:00): x ").
Proof. reflexivity. Qed.

Example speaker_needs_a_character :
  matches RE_SPEAKER_TS "(00:00:10): ..." = false
  /\ matches RE_TS_ONLY "(00:00:10): ..." = true
  /\ match_timestamp " (00:00:10): ..." = Some (Some "", 10, "...").
Proof. repeat split; reflexivity. Qed.

Example emails_found :
  finditer EMAIL_RE "mail a@b.cd1 or Bob.X@Example.COM, x@y.zz@w.vv"
  = ["Bob.X@Example.COM"; "x@y.zz"].
Proof. reflexivity. Qed.

Example phones_found :
  detect_pii "call +1 (555) 123-4567 or 123 456 7 at 10:30"
  = [mkFlag Phone "+1 (555) 123-4567"].
Proof. reflexivity. Qed.

Example redaction_tokens :
  redact_pii "Bob.X@Example.COM, +1 (555) 123-4567, 123 456 7"
  = "[REDACTED_EMAIL], [REDACTED_PHONE], 123 456 7".
Proof. reflexivity. Qed.

Example format_06d_pads :
  format_06d 65 = "000065" /\ format_06d 1234567 = "1234567" /\ format_06d (-5) = "-00005".
Proof. repeat split; reflexivity. Qed.

Example six_words_counted : word_count six_words = 6.
Proof. reflexivity. Qed.

Example sections_labelled :
  map section_type
      (label_sections
         [ raw_turn 0 "Hello and welcome.";
           raw_turn 20 "This episode is brought to you by Acme.";
           raw_turn 40 "Acme makes anvils.";
           raw_turn 60 "With that, here is Jane.";
           raw_turn 80 "Glad to be here.";
           raw_turn 3000 "Please subscribe!";
           raw_turn 3010 "Bye." ])
  = [Intro; Sponsor; Sponsor; Conversation; Conversation; Outro; Outro].
Proof. reflexivity. Qed.

Example sorted_speakers : sorted ["b"; "a"; "B"] = ["B"; "a"; "b"].
Proof. reflexivity. Qed.

(* ------------------------------------------------------------------ *)
(** * Properties of [make_chunks] *)

Section PackFacts.

Lemma word_count_nonneg (s : string) : 0 <= word_count s.
Proof. unfold word_count. lia. Qed.

Lemma total_words_nonneg (l : list Turn) : 0 <= total_words l.
Proof.
induction l as [|tr l IH]; simpl; [lia|].
pose proof (word_count_nonneg (text tr)). lia.
Qed.

Lemma total_words_firstn_le (k : nat) (l : list Turn) :
total_words (firstn k l) <= total_words l.
Proof.
revert k. induction l as [|tr l IH]; intros [|k]; simpl; try lia.
- pose proof (total_words_nonneg l). pose proof (word_count_nonneg (text tr)). lia.
- specialize (IH k). lia.
Qed.

(** What the inner loop leaves: it took the first [k] Turns of [rest]. *)
Lemma pack_spec (tw : Z) (rest : list Turn) :
forall st, exists k : nat,
  (k <= List.length rest)%nat
  /\ pk_i (pack tw rest st) = pk_i st + Z.of_nat k
  /\ pk_words (pack tw rest st) = pk_words st + total_words (firstn k rest)
  /\ pk_buf_parts (pack tw rest st)
     = (pk_buf_parts st ++ map render_turn (firstn k rest))%list
  /\ ((k < List.length rest)%nat -> tw <= pk_words (pack tw rest st))
  /\ (pk_words st < tw -> rest <> [] -> (1 <= k)%nat)
  /\ (pk_words st + total_words rest < tw -> k = List.length rest)
  /\ ((1 <= k)%nat -> pk_words st + total_words (firstn (k - 1) rest) < tw).
Proof.
induction rest as [|tr rest IH]; intros st.
- exists 0%nat. simpl. rewrite app_nil_r.
  repeat split; try lia; try congruence.
- simpl pack. destruct (pk_words st <? tw) eqn:E.
  + apply Z.ltb_lt in E.
    destruct (IH (mkPack (pk_words st + word_count (text tr))
                         (pk_buf_parts st ++ [render_turn tr])
                         (set_add (speaker_label tr) (pk_speakers st))
                         (pk_i st + 1)))
      as (k & Hk & Hi & Hw & Hb & Hstop & _ & Hall & Hmin).
    exists (S k). cbn [pk_i pk_words pk_buf_parts] in *.
    repeat split.
    * simpl. lia.
    * rewrite Hi. lia.
    * rewrite Hw. simpl. lia.
    * rewrite Hb. simpl. rewrite <- app_assoc. reflexivity.
    * intros Hlt. apply Hstop. simpl in Hlt. lia.
    * intros _ _. lia.
    * intros Hlt. simpl in Hlt. simpl. f_equal. apply Hall. lia.
    * intros _. replace (S k - 1)%nat with k by lia.
      destruct k as [|k]; [simpl; lia|].
      specialize (Hmin ltac:(lia)). replace (S k - 1)%nat with k in Hmin by lia.
      simpl. lia.
  + apply Z.ltb_ge in E. exists 0%nat. simpl. rewrite app_nil_r.
    repeat split; try lia.
    intros Hlt. pose proof (total_words_nonneg rest).
    pose proof (word_count_nonneg (text tr)). lia.
Qed.

End PackFacts.

Lemma next_index_bounds (overlap_turns i stop : Z) :
  i <= stop -> i <= next_index overlap_turns i stop.
Proof. unfold next_index. destruct (0 <? overlap_turns); lia. Qed.

Lemma next_index_advances (target_words overlap_turns i stop : Z) :
  advancing target_words overlap_turns ->
  i <= stop -> (1 <= target_words -> i < stop) ->
  i < next_index overlap_turns i stop.
Proof.
  intros [H|H] Hle Hlt; unfold next_index;
    destruct (0 <? overlap_turns) eqn:E; lia.
Qed.

Section StepFacts.
Variable usable : list Turn.
Variables target_words overlap_turns : Z.

Let n : Z := Z.of_nat (List.length usable).

Lemma py_index_some {A : Type} (l : list A) (k : Z) :
  - Z.of_nat (List.length l) <= k < Z.of_nat (List.length l) ->
  exists x, py_index l k = Some x.
Proof.
  intros Hk. unfold py_index.
  destruct ((0 <=? k) && (k <? Z.of_nat (List.length l))) eqn:E1.
  - apply andb_prop in E1 as [H0 H1].
    apply Z.leb_le in H0. apply Z.ltb_lt in H1.
    destruct (nth_error l (Z.to_nat k)) eqn:E; [eauto|].
    apply nth_error_None in E. lia.
  - assert (Hneg : k < 0).
    { apply andb_false_iff in E1 as [H|H];
        [apply Z.leb_gt in H | apply Z.ltb_ge in H]; lia. }
    replace ((- Z.of_nat (List.length l) <=? k) && (k <? 0)) with true
      by (symmetry; apply andb_true_intro; split;
          [apply Z.leb_le | apply Z.ltb_lt]; lia).
    destruct (nth_error l (Z.to_nat (Z.of_nat (List.length l) + k))) eqn:E; [eauto|].
    apply nth_error_None in E. lia.
Qed.

Lemma total_words_skipn_le (k : nat) (l : list Turn) :
  total_words (skipn k l) <= total_words l.
Proof.
  revert k. induction l as [|tr l IH]; intros [|k]; simpl; try lia.
  specialize (IH k). pose proof (word_count_nonneg (text tr)). lia.
Qed.

(** An iteration entered inside the sequence appends a chunk and never
    raises. *)
Lemma chunk_step_spec (i cid : Z) :
  0 <= i < n ->
  exists c,
    chunk_step usable target_words overlap_turns i cid
    = Some (c, next_index overlap_turns i (em_stop_i c))
    /\ step_ok usable target_words i cid c.
Proof.
  intros Hi. unfold chunk_step.
  destruct (pack_spec target_words (skipn (Z.to_nat i) usable) (mkPack 0 [] [] i))
    as (k & Hk & Hpi & Hw & Hb & Hstop & Hone & Hall & Hmin).
  rewrite length_skipn in Hk, Hstop, Hall.
  cbn [pk_i pk_words pk_buf_parts] in Hpi, Hw, Hb, Hone, Hall, Hmin.
  set (st := pack target_words (skipn (Z.to_nat i) usable) (mkPack 0 [] [] i)) in *.
  destruct (py_index_some usable i) as [first Hfirst]; [fold n; lia|].
  destruct (py_index_some usable (pk_i st - 1)) as [last Hlast]; [fold n; lia|].
  rewrite Hfirst, Hlast. eexists (mkEmitted _ _ _ _). split; [reflexivity|].
  unfold step_ok, contributing. cbn [em_start_i em_stop_i em_words em_chunk
    Chunk.chunk_id Chunk.text Chunk.t_start Chunk.t_end]. fold n.
  fold (pk_i st).
  replace (Z.to_nat (pk_i st - i)) with k by lia.
  repeat split; try lia.
  - intros Htw. assert (1 <= k)%nat; [|lia].
    apply Hone; [lia|]. intros E.
    apply (f_equal (@List.length Turn)) in E. rewrite length_skipn in E.
    simpl in E. lia.
  - intros Hlt. replace (Z.to_nat (pk_i st - i - 1)) with (k - 1)%nat by lia.
    specialize (Hmin ltac:(lia)). lia.
  - intros Hlt. rewrite Hpi, Hall; [lia|].
    pose proof (total_words_skipn_le (Z.to_nat i) usable). lia.
  - rewrite Hb. reflexivity.
  - eauto.
  - eauto.
Qed.

(** Whatever the loop returns is the trace of its iterations. *)
Lemma chunk_loop_sound (fuel : nat) :
  forall i cid chunks r,
    0 <= i ->
    chunk_loop fuel usable target_words overlap_turns i cid chunks = Returned r ->
    exists more,
      r = (chunks ++ more)%list
      /\ trace_from usable target_words overlap_turns i cid more.
Proof.
  induction fuel as [|fuel IH]; intros i cid chunks r Hi; simpl; fold n.
  - destruct (i <? n) eqn:E; [discriminate|].
    intros [= <-]. exists []. rewrite app_nil_r. split; [reflexivity|].
    apply trace_done. apply Z.ltb_ge in E. exact E.
  - destruct (i <? n) eqn:E.
    + apply Z.ltb_lt in E.
      destruct (chunk_step_spec i cid) as (c & Hstep & Hok); [lia|].
      rewrite Hstep. intros Hr.
      destruct Hok as (_ & Hrange & _).
      apply IH in Hr as (more & -> & Htr);
        [|pose proof (next_index_bounds overlap_turns i (em_stop_i c)); lia].
      exists (c :: more). rewrite <- app_assoc. split; [reflexivity|].
      eapply trace_step; eauto.
    + intros [= <-]. exists []. rewrite app_nil_r. split; [reflexivity|].
      apply trace_done. apply Z.ltb_ge in E. exact E.
Qed.

(** The loop never raises an [IndexError]. *)
Lemma chunk_loop_no_error (fuel : nat) :
  forall i cid chunks,
    0 <= i ->
    chunk_loop fuel usable target_words overlap_turns i cid chunks <> IndexError.
Proof.
  induction fuel as [|fuel IH]; intros i cid chunks Hi; simpl; fold n.
  - destruct (i <? n); discriminate.
  - destruct (i <? n) eqn:E; [|discriminate].
    apply Z.ltb_lt in E.
    destruct (chunk_step_spec i cid) as (c & Hstep & Hok); [lia|].
    rewrite Hstep. destruct Hok as (_ & Hrange & _).
    apply IH. pose proof (next_index_bounds overlap_turns i (em_stop_i c)). lia.
Qed.

(** On an advancing configuration the loop returns, with fuel for one
    iteration per remaining index. *)
Lemma chunk_loop_total (fuel : nat) :
  advancing target_words overlap_turns ->
  forall i cid chunks,
    0 <= i -> n - i <= Z.of_nat fuel ->
    exists more,
      chunk_loop fuel usable target_words overlap_turns i cid chunks
      = Returned (chunks ++ more)%list
      /\ trace_from usable target_words overlap_turns i cid more.
Proof.
  intros Hadv. induction fuel as [|fuel IH]; intros i cid chunks Hi Hfuel;
    simpl; fold n.
  - replace (i <? n) with false by (symmetry; apply Z.ltb_ge; lia).
    exists []. rewrite app_nil_r. split; [reflexivity|].
    apply trace_done. fold n. lia.
  - destruct (i <? n) eqn:E.
    + apply Z.ltb_lt in E.
      destruct (chunk_step_spec i cid) as (c & Hstep & Hok); [lia|].
      rewrite Hstep.
      destruct Hok as (_ & Hrange & _ & _ & Hprog & _).
      pose proof (next_index_advances target_words overlap_turns i (em_stop_i c) Hadv) as Hnext.
      destruct (IH (next_index overlap_turns i (em_stop_i c)) (cid + 1)
                   (chunks ++ [c])%list) as (more & Hrun & Htr); try lia.
      exists (c :: more). rewrite Hrun, <- app_assoc. split; [reflexivity|].
      eapply trace_step; eauto.
    + exists []. rewrite app_nil_r. split; [reflexivity|].
      apply trace_done. apply Z.ltb_ge in E. exact E.
Qed.

End StepFacts.

Section TraceFacts.
Variable usable : list Turn.
Variables target_words overlap_turns : Z.

Let n : Z := Z.of_nat (List.length usable).

Let trace := trace_from usable target_words overlap_turns.

(** A step of a trace is the step [chunk_step_spec] describes. *)
Lemma trace_step_inv (i cid : Z) (c : emitted) (i' : Z) :
  0 <= i < n ->
  chunk_step usable target_words overlap_turns i cid = Some (c, i') ->
  step_ok usable target_words i cid c
  /\ i' = next_index overlap_turns i (em_stop_i c).
Proof.
  intros Hi Hstep.
  destruct (chunk_step_spec usable target_words overlap_turns i cid Hi)
    as (c' & Hstep' & Hok).
  rewrite Hstep in Hstep'. injection Hstep' as -> ->. split; [exact Hok | reflexivity].
Qed.

Lemma trace_past_end (i cid : Z) (more : list emitted) :
  n <= i -> trace i cid more -> more = [].
Proof. intros Hi Htr. destruct Htr; [reflexivity | fold n in H; lia]. Qed.

(** Every chunk of a trace comes from a step inside the sequence. *)
Lemma trace_steps_ok (i cid : Z) (more : list emitted) :
  trace i cid more -> 0 <= i ->
  Forall (fun c => exists i' cid', 0 <= i' < n /\ step_ok usable target_words i' cid' c)
         more.
Proof.
  induction 1 as [|i cid c i' more Hlt Hstep Htr IH]; intros Hi; [constructor|].
  fold n in Hlt.
  destruct (trace_step_inv i cid c i' ltac:(lia) Hstep) as [Hok ->].
  constructor; [exists i, cid; split; [lia | exact Hok]|].
  apply IH. destruct Hok as (_ & Hrange & _).
  pose proof (next_index_bounds overlap_turns i (em_stop_i c)). lia.
Qed.

(** On an advancing configuration the start indices of a trace grow
    strictly, beginning with the index the loop was entered at. *)
Lemma trace_increasing (i cid : Z) (more : list emitted) :
  advancing target_words overlap_turns ->
  trace i cid more -> 0 <= i ->
  strictly_increasing (start_indices more)
  /\ Forall (fun s => i <= s) (start_indices more).
Proof.
  intros Hadv.
  induction 1 as [|i cid c i' more Hlt Hstep Htr IH]; intros Hi;
    [split; [exact I | constructor]|].
  fold n in Hlt.
  destruct (trace_step_inv i cid c i' ltac:(lia) Hstep) as [Hok ->].
  destruct Hok as (Hstart & Hrange & _ & _ & Hprog & _).
  pose proof (next_index_advances target_words overlap_turns i (em_stop_i c) Hadv)
    as Hnext.
  destruct IH as [Hinc Hge]; [lia|].
  unfold start_indices in *. simpl map. split.
  - destruct more as [|c' more]; [exact I|].
    simpl in *. split; [|exact Hinc].
    inversion Hge; subst. lia.
  - constructor; [lia|].
    eapply Forall_impl; [|exact Hge]. simpl. intros; lia.
Qed.

(** Without overlap every chunk but the last reached the target. *)
Lemma trace_full_but_last (i cid : Z) (more : list emitted) :
  overlap_turns <= 0 ->
  trace i cid more -> 0 <= i ->
  Forall (fun c => target_words <= em_words c) (removelast more).
Proof.
  intros Hov.
  induction 1 as [|i cid c i' more Hlt Hstep Htr IH]; intros Hi; [constructor|].
  fold n in Hlt.
  destruct (trace_step_inv i cid c i' ltac:(lia) Hstep) as [Hok ->].
  destruct Hok as (_ & Hrange & _ & Hfull & _).
  assert (Hnext : next_index overlap_turns i (em_stop_i c) = em_stop_i c).
  { unfold next_index. destruct (0 <? overlap_turns) eqn:E; [lia | reflexivity]. }
  rewrite Hnext in *.
  destruct more as [|c' more]; [constructor|].
  cbn [removelast]. constructor; [|apply IH; lia].
  apply Hfull. destruct (Z_lt_le_dec (em_stop_i c) n) as [Hl|Hl]; [exact Hl|].
  pose proof (trace_past_end _ _ _ Hl Htr). discriminate.
Qed.

(** When the whole sequence stays below the target every chunk runs to the
    end, and the number of chunks is fixed by the overlap. *)
Lemma trace_short_count (i cid : Z) (more : list emitted) :
  total_words usable < target_words ->
  trace i cid more -> 0 <= i ->
  Forall (fun c => em_stop_i c = n) more
  /\ Z.of_nat (List.length more)
     = if i <? n then 1 + Z.min (Z.max overlap_turns 0) (n - 1 - i) else 0.
Proof.
  intros Hshort.
  induction 1 as [i cid Hge|i cid c i' more Hlt Hstep Htr IH]; intros Hi.
  - fold n in Hge. split; [constructor|].
    replace (i <? n) with false by (symmetry; apply Z.ltb_ge; lia). reflexivity.
  - fold n in Hlt.
    destruct (trace_step_inv i cid c i' ltac:(lia) Hstep) as [Hok ->].
    destruct Hok as (_ & Hrange & _ & _ & _ & _ & Hall & _).
    specialize (Hall Hshort). fold n in Hall. rewrite Hall in *.
    assert (Hnext : i < next_index overlap_turns i n).
    { apply (next_index_advances target_words); [left | | ]; try lia.
      pose proof (total_words_nonneg usable). lia. }
    destruct IH as [Hstops Hlen]; [lia|].
    split; [constructor; assumption|].
    replace (i <? n) with true by (symmetry; apply Z.ltb_lt; lia).
    cbn [List.length]. rewrite Nat2Z.inj_succ, Hlen.
    unfold next_index in *.
    destruct (0 <? overlap_turns) eqn:E;
      destruct (_ <? n) eqn:E'; lia.
Qed.

(** With neither a positive target nor a positive overlap the loop makes
    no progress from any index inside the sequence. *)
Lemma chunk_loop_stalls (fuel : nat) :
  target_words <= 0 -> overlap_turns <= 0 ->
  forall i cid chunks,
    0 <= i < n ->
    chunk_loop fuel usable target_words overlap_turns i cid chunks = OutOfFuel.
Proof.
  intros Htw Hov. induction fuel as [|fuel IH]; intros i cid chunks Hi; simpl; fold n.
  - replace (i <? n) with true by (symmetry; apply Z.ltb_lt; lia). reflexivity.
  - replace (i <? n) with true by (symmetry; apply Z.ltb_lt; lia).
    destruct (chunk_step_spec usable target_words overlap_turns i cid Hi)
      as (c & Hstep & Hok).
    rewrite Hstep. destruct Hok as (_ & Hrange & _ & _ & _ & Hmin & _).
    assert (Hstop : em_stop_i c = i).
    { destruct (Z.eq_dec (em_stop_i c) i) as [E|E]; [exact E|].
      specialize (Hmin ltac:(lia)).
      pose proof (total_words_nonneg
                    (firstn (Z.to_nat (em_stop_i c - i - 1))
                            (skipn (Z.to_nat i) usable))). lia. }
    rewrite Hstop. unfold next_index.
    replace (0 <? overlap_turns) with false by (symmetry; apply Z.ltb_ge; lia).
    apply IH. exact Hi.
Qed.

End TraceFacts.

Lemma chunk_loop_more_fuel (usable : list Turn) (tw ov : Z) (fuel : nat) :
  forall i cid chunks r fuel',
    (fuel <= fuel')%nat ->
    chunk_loop fuel usable tw ov i cid chunks = Returned r ->
    chunk_loop fuel' usable tw ov i cid chunks = Returned r.
Proof.
  induction fuel as [|fuel IH]; intros i cid chunks r fuel' Hle; simpl.
  - destruct (i <? Z.of_nat (List.length usable)) eqn:E; [discriminate|].
    intros Hr. destruct fuel'; simpl; rewrite E; exact Hr.
  - destruct (i <? Z.of_nat (List.length usable)) eqn:E.
    + destruct fuel' as [|fuel']; [lia|]. simpl. rewrite E.
      destruct (chunk_step usable tw ov i cid) as [[c i']|]; [|discriminate].
      apply IH. lia.
    + intros Hr. destruct fuel'; simpl; rewrite E; exact Hr.
Qed.

Lemma make_chunks_traced_nonempty (fuel : nat) (turns : list Turn)
    (include_intro : bool) (tw ov : Z) :
  usable_turns include_intro turns <> [] ->
  make_chunks_traced fuel turns include_intro tw ov
  = chunk_loop fuel (usable_turns include_intro turns) tw ov 0 0 [].
Proof.
  intros Hne. unfold make_chunks_traced.
  destruct (usable_turns include_intro turns); [congruence | reflexivity].
Qed.

(** The dicts [make_chunks] returns are those of the traced run. *)
Lemma make_chunks_of_traced (fuel : nat) (turns : list Turn) (include_intro : bool)
    (tw ov : Z) (cs : list emitted) :
  make_chunks_traced fuel turns include_intro tw ov = Returned cs ->
  make_chunks fuel turns include_intro tw ov = Returned (map em_chunk cs).
Proof. intros H. unfold make_chunks. rewrite H. reflexivity. Qed.

(** On an advancing configuration [make_chunks] returns, with any fuel of
    at least the number of usable Turns, the trace entered at index 0. *)
Lemma make_chunks_traced_total (turns : list Turn) (include_intro : bool) (tw ov : Z) :
  advancing tw ov ->
  exists cs,
    (forall fuel,
        (List.length (usable_turns include_intro turns) <= fuel)%nat ->
        make_chunks_traced fuel turns include_intro tw ov = Returned cs)
    /\ trace_from (usable_turns include_intro turns) tw ov 0 0 cs.
Proof.
  intros Hadv.
  destruct (usable_turns include_intro turns) as [|u us] eqn:Eu.
  - exists []. split.
    + intros fuel _. unfold make_chunks_traced. rewrite Eu. reflexivity.
    + apply trace_done. simpl. lia.
  - destruct (chunk_loop_total (u :: us) tw ov (List.length (u :: us)) Hadv 0 0 [])
      as (cs & Hrun & Htr); try lia.
    exists cs. split; [|exact Htr].
    intros fuel Hfuel. rewrite make_chunks_traced_nonempty by (rewrite Eu; discriminate).
    rewrite Eu. eapply chunk_loop_more_fuel; [exact Hfuel | exact Hrun].
Qed.

(** C1 (as amended). When the usable sequence is not empty and its total
    word count is below the target, [make_chunks] returns a first chunk that
    holds every usable Turn, followed by min(max(overlap_turns, 0), n - 1)
    further chunks, each running to the end of the sequence: one chunk in
    all exactly when [overlap_turns <= 0] or a single Turn is usable. When no
    Turn is usable it returns no chunk, whatever the fuel, and does not
    raise. *)
Theorem short_sequence_chunks (turns : list Turn) (include_intro : bool)
    (target_words overlap_turns : Z) :
  let usable := usable_turns include_intro turns in
  let n := Z.of_nat (List.length usable) in
  (usable = [] ->
   forall fuel,
     make_chunks_traced fuel turns include_intro target_words overlap_turns
     = Returned [])
  /\ (usable <> [] -> total_words usable < target_words ->
      exists first more,
        (forall fuel,
            (List.length usable <= fuel)%nat ->
            make_chunks_traced fuel turns include_intro target_words overlap_turns
            = Returned (first :: more))
        /\ contributing usable first = usable
        /\ Chunk.text (em_chunk first) = strip (join NL (map render_turn usable))
        /\ Forall (fun c => em_stop_i c = n) more
        /\ Z.of_nat (List.length more) = Z.min (Z.max overlap_turns 0) (n - 1)).
Proof.
  intros usable n. split.
  - intros Hnil fuel. unfold make_chunks_traced. fold usable. rewrite Hnil. reflexivity.
  - intros Hne Hshort.
    assert (Hadv : advancing target_words overlap_turns).
    { left. pose proof (total_words_nonneg usable). lia. }
    destruct (make_chunks_traced_total turns include_intro target_words overlap_turns Hadv)
      as (cs & Hrun & Htr). fold usable in Hrun, Htr.
    destruct (trace_short_count usable target_words overlap_turns 0 0 cs Hshort Htr)
      as [Hstops Hlen]; [lia|]. fold n in Hstops, Hlen.
    assert (Hn : 0 < n).
    { unfold n. destruct usable; [congruence | simpl; lia]. }
    replace (0 <? n) with true in Hlen by (symmetry; apply Z.ltb_lt; lia).
    destruct cs as [|first more]; [cbn [List.length] in Hlen; lia|].
    exists first, more. split; [exact Hrun|].
    inversion Htr as [|i cid c i' more' Hlt Hstep Htr' Ei]; subst.
    destruct (trace_step_inv usable target_words overlap_turns 0 0 first i'
                ltac:(lia) Hstep) as [Hok _].
    destruct Hok as (Hstart & _ & _ & _ & _ & _ & _ & _ & Htext & _).
    inversion Hstops as [|x l Hstop Hrest]; subst.
    assert (Hall : contributing usable first = usable).
    { unfold contributing. rewrite Hstart, Hstop. fold n.
      replace (Z.to_nat (n - 0)) with (List.length usable) by (unfold n; lia).
      simpl. apply firstn_all. }
    repeat split.
    + exact Hall.
    + rewrite Htext, Hall. reflexivity.
    + exact Hrest.
    + cbn [List.length] in Hlen. lia.
Qed.

(** C2 (as amended). On a configuration with a positive target or a positive
    overlap, [make_chunks] returns, and every chunk whose packing stopped
    before the end of the usable sequence has a word count, over the Turns
    it was packed from, of at least the target. With [overlap_turns <= 0]
    these are all chunks but the final one. *)
Theorem chunks_reach_target_or_end (turns : list Turn) (include_intro : bool)
    (target_words overlap_turns : Z) :
  advancing target_words overlap_turns ->
  let usable := usable_turns include_intro turns in
  exists cs,
    (forall fuel,
        (List.length usable <= fuel)%nat ->
        make_chunks_traced fuel turns include_intro target_words overlap_turns
        = Returned cs)
    /\ (forall c, In c cs ->
          em_stop_i c < Z.of_nat (List.length usable) ->
          target_words <= total_words (contributing usable c))
    /\ (overlap_turns <= 0 ->
        forall c, In c (removelast cs) ->
          target_words <= total_words (contributing usable c)).
Proof.
  intros Hadv usable.
  destruct (make_chunks_traced_total turns include_intro target_words overlap_turns Hadv)
    as (cs & Hrun & Htr). fold usable in Hrun, Htr.
  exists cs. split; [exact Hrun|].
  pose proof (trace_steps_ok usable target_words overlap_turns 0 0 cs Htr ltac:(lia))
    as Hall.
  rewrite Forall_forall in Hall.
  assert (Hwords : forall c, In c cs -> em_words c = total_words (contributing usable c)).
  { intros c Hc. destruct (Hall c Hc) as (i' & cid' & _ & Hok).
    destruct Hok as (_ & _ & Hw & _). exact Hw. }
  split.
  - intros c Hc Hstop. destruct (Hall c Hc) as (i' & cid' & _ & Hok).
    destruct Hok as (_ & _ & Hw & Hfull & _). rewrite <- Hw. apply Hfull. exact Hstop.
  - intros Hov c Hc.
    pose proof (trace_full_but_last usable target_words overlap_turns 0 0 cs Hov Htr
                  ltac:(lia)) as Hfull.
    rewrite Forall_forall in Hfull. rewrite <- Hwords.
    + apply Hfull. exact Hc.
    + clear -Hc. induction cs as [|x cs IH]; [destruct Hc|].
      destruct cs as [|y cs]; [destruct Hc|].
      cbn [removelast] in Hc. destruct Hc as [->|Hc]; [left; reflexivity|].
      right. apply IH. exact Hc.
Qed.

(** Word counts of slices of a sequence whose Turns all have [w] words. *)
Lemma uniform_slice_words (w : Z) (l : list Turn) :
  Forall (fun tr => word_count (text tr) = w) l ->
  forall i k,
    total_words (firstn k (skipn i l))
    = w * Z.of_nat (Nat.min k (List.length l - i)).
Proof.
  induction 1 as [|tr l Hw Hall IH]; intros i k.
  - rewrite skipn_nil, firstn_nil. simpl. lia.
  - destruct i as [|i].
    + destruct k as [|k]; [simpl; lia|].
      cbn [skipn firstn total_words fold_right].
      specialize (IH 0%nat k). rewrite skipn_O in IH.
      unfold total_words in IH. rewrite IH, Hw. cbn [List.length].
      replace (Nat.min (S k) (S (List.length l) - 0))
        with (S (Nat.min k (List.length l - 0))) by lia.
      rewrite Nat2Z.inj_succ. ring.
    + cbn [skipn List.length]. rewrite IH. f_equal.
Qed.

(** C3 (as amended). Four usable Turns labelled conversation, of six words
    each, chunked with target word count 10 and overlap 1, give chunks that
    start at the indices 0, 1, 2 and 3 of the usable sequence, stopping
    before the indices 2, 3, 4 and 4: the rewind after the chunk of Turns 2
    and 3 leaves index 3 to a last chunk of one Turn. *)
Theorem four_turns_start_indices (a b c d : Turn) (include_intro : bool) :
  Forall (fun tr => section_type tr = Conversation
                    /\ is_usable include_intro tr = true
                    /\ word_count (text tr) = 6) [a; b; c; d] ->
  exists cs,
    (forall fuel,
        (4 <= fuel)%nat ->
        make_chunks_traced fuel [a; b; c; d] include_intro 10 1 = Returned cs)
    /\ start_indices cs = [0; 1; 2; 3]
    /\ map em_stop_i cs = [2; 3; 4; 4].
Proof.
  intros H.
  assert (Hus : usable_turns include_intro [a; b; c; d] = [a; b; c; d]).
  { unfold usable_turns. apply forallb_filter_id. apply forallb_forall.
    rewrite Forall_forall in H. intros x Hx. apply (H x Hx). }
  assert (Hw : Forall (fun tr => word_count (text tr) = 6) [a; b; c; d]).
  { eapply Forall_impl; [|exact H]. simpl. intros x (_ & _ & Hx). exact Hx. }
  destruct (make_chunks_traced_total [a; b; c; d] include_intro 10 1) as (cs & Hrun & Htr);
    [left; lia|].
  rewrite Hus in Hrun, Htr. exists cs. split; [exact Hrun|].
  pose proof (uniform_slice_words 6 _ Hw) as Hslice.
  assert (Hstep : forall i cid e i',
             0 <= i < 4 ->
             chunk_step [a; b; c; d] 10 1 i cid = Some (e, i') ->
             em_start_i e = i
             /\ em_stop_i e = Z.min (i + 2) 4
             /\ i' = Z.max (Z.min (i + 2) 4 - 1) (i + 1)).
  { intros i cid e i' Hi He.
    destruct (trace_step_inv [a; b; c; d] 10 1 i cid e i' Hi He) as [Hok ->].
    destruct Hok as (Hs & Hrange & Hwords & Hfull & Hprog & Hmin & _).
    unfold contributing in Hwords. rewrite Hs, Hslice in Hwords.
    rewrite Hslice in Hmin. cbn [List.length] in Hrange, Hfull, Hmin, Hwords.
    specialize (Hprog ltac:(lia)). specialize (Hmin Hprog).
    assert (Hstop : em_stop_i e = Z.min (i + 2) 4) by lia.
    split; [exact Hs|]. split; [exact Hstop|].
    rewrite Hstop. unfold next_index. reflexivity. }
  inversion Htr as [? ? Hge|? ? e0 ? ? Hlt0 Hc0 Htr0]; subst; clear Htr;
    [cbn [List.length] in Hge; lia|].
  apply Hstep in Hc0; [|cbn [List.length] in Hlt0; lia].
  destruct Hc0 as (Hs0 & Hp0 & ->). vm_compute Z.max in Htr0.
  inversion Htr0 as [? ? Hge|? ? e1 ? ? Hlt1 Hc1 Htr1]; subst; clear Htr0;
    [cbn [List.length] in Hge; lia|].
  apply Hstep in Hc1; [|cbn [List.length] in Hlt1; lia].
  destruct Hc1 as (Hs1 & Hp1 & ->). vm_compute Z.max in Htr1.
  inversion Htr1 as [? ? Hge|? ? e2 ? ? Hlt2 Hc2 Htr2]; subst; clear Htr1;
    [cbn [List.length] in Hge; lia|].
  apply Hstep in Hc2; [|cbn [List.length] in Hlt2; lia].
  destruct Hc2 as (Hs2 & Hp2 & ->). vm_compute Z.max in Htr2.
  inversion Htr2 as [? ? Hge|? ? e3 ? ? Hlt3 Hc3 Htr3]; subst; clear Htr2;
    [cbn [List.length] in Hge; lia|].
  apply Hstep in Hc3; [|cbn [List.length] in Hlt3; lia].
  destruct Hc3 as (Hs3 & Hp3 & ->). vm_compute Z.max in Htr3.
  inversion Htr3 as [? ? Hge|? ? ? ? ? Hlt4 _ _]; subst;
    [|cbn [List.length] in Hlt4; lia].
  unfold start_indices. cbn [map].
  rewrite Hs0, Hs1, Hs2, Hs3, Hp0, Hp1, Hp2, Hp3. split; reflexivity.
Qed.

Lemma four_turns_start_indices_witness :
  Forall (fun tr => section_type tr = Conversation
                    /\ is_usable false tr = true
                    /\ word_count (text tr) = 6) four_turns
  /\ exists cs,
      (forall fuel,
          (4 <= fuel)%nat ->
          make_chunks_traced fuel four_turns false 10 1 = Returned cs)
      /\ start_indices cs = [0; 1; 2; 3]
      /\ map em_stop_i cs = [2; 3; 4; 4].
Proof.
  assert (H : Forall (fun tr => section_type tr = Conversation
                                /\ is_usable false tr = true
                                /\ word_count (text tr) = 6) four_turns)
    by (repeat constructor).
  split; [exact H|].
  exact (four_turns_start_indices (conv_turn 0 six_words) (conv_turn 10 six_words)
           (conv_turn 20 six_words) (conv_turn 30 six_words) false H).
Defined.

(** C3, the claim as stated fails: on four conversation Turns of six words
    each, with target 10 and overlap 1, the chunks start at 0, 1, 2 and also
    at 3. *)
Lemma four_turns_fourth_chunk :
  map_outcome start_indices (make_chunks_traced 4 four_turns false 10 1)
  = Returned [0; 1; 2; 3]
  /\ map_outcome (map Chunk.text) (make_chunks 4 four_turns false 10 1)
     = Returned
         [ "Host (000000s): one two three four five six" ++ NL
           ++ "Host (000010s): one two three four five six";
           "Host (000010s): one two three four five six" ++ NL
           ++ "Host (000020s): one two three four five six";
           "Host (000020s): one two three four five six" ++ NL
           ++ "Host (000030s): one two three four five six";
           "Host (000030s): one two three four five six" ].
Proof. split; vm_compute; reflexivity. Qed.

Lemma short_sequence_chunks_witness :
  usable_turns false short_pair <> []
  /\ total_words (usable_turns false short_pair) < 10
  /\ exists first more,
      (forall fuel,
          (List.length (usable_turns false short_pair) <= fuel)%nat ->
          make_chunks_traced fuel short_pair false 10 1 = Returned (first :: more))
      /\ contributing (usable_turns false short_pair) first
         = usable_turns false short_pair
      /\ Chunk.text (em_chunk first)
         = strip (join NL (map render_turn (usable_turns false short_pair)))
      /\ Forall (fun c => em_stop_i c
                          = Z.of_nat (List.length (usable_turns false short_pair))) more
      /\ Z.of_nat (List.length more)
         = Z.min (Z.max 1 0)
                 (Z.of_nat (List.length (usable_turns false short_pair)) - 1).
Proof.
  assert (Hne : usable_turns false short_pair <> []) by (vm_compute; discriminate).
  assert (Hlt : total_words (usable_turns false short_pair) < 10)
    by (vm_compute; reflexivity).
  split; [exact Hne|]. split; [exact Hlt|].
  exact (proj2 (short_sequence_chunks short_pair false 10 1) Hne Hlt).
Defined.

(** C1, the claim as stated fails: two usable Turns of eight words in all,
    below the target of 10, come out as two chunks when the overlap is 1. *)
Lemma short_pair_two_chunks :
  usable_turns false short_pair = short_pair
  /\ total_words short_pair = 8
  /\ map_outcome (map Chunk.text) (make_chunks 2 short_pair false 10 1)
     = Returned
         [ "Host (000000s): one two three four five six" ++ NL
           ++ "Host (000010s): seven eight";
           "Host (000010s): seven eight" ].
Proof. repeat split; vm_compute; reflexivity. Qed.

Lemma chunks_reach_target_or_end_witness :
  advancing 10 0
  /\ exists cs,
      (forall fuel,
          (List.length (usable_turns false four_turns) <= fuel)%nat ->
          make_chunks_traced fuel four_turns false 10 0 = Returned cs)
      /\ (forall c, In c cs ->
            em_stop_i c < Z.of_nat (List.length (usable_turns false four_turns)) ->
            10 <= total_words (contributing (usable_turns false four_turns) c))
      /\ (0 <= 0 ->
          forall c, In c (removelast cs) ->
            10 <= total_words (contributing (usable_turns false four_turns) c)).
Proof.
  assert (Hadv : advancing 10 0) by (left; lia).
  split; [exact Hadv|].
  exact (chunks_reach_target_or_end four_turns false 10 0 Hadv).
Defined.

(** C2, the claim as stated fails: with overlap 1 the first of the two
    chunks of [short_pair] is not the final one and holds 8 words, fewer
    than the target of 10. *)
Lemma short_pair_first_chunk_below_target :
  map_outcome (map (fun c => (em_start_i c, em_stop_i c,
                              total_words (contributing short_pair c))))
              (make_chunks_traced 2 short_pair false 10 1)
  = Returned [ (0, 2, 8); (1, 2, 2) ]
  /\ 8 < 10.
Proof. split; [vm_compute; reflexivity | lia]. Qed.

(** On an advancing configuration the start indices of the chunks
    [make_chunks] returns grow strictly. *)
Lemma start_indices_increase (turns : list Turn) (include_intro : bool) (tw ov : Z) :
  advancing tw ov ->
  exists cs,
    (forall fuel,
        (List.length (usable_turns include_intro turns) <= fuel)%nat ->
        make_chunks_traced fuel turns include_intro tw ov = Returned cs)
    /\ strictly_increasing (start_indices cs).
Proof.
  intros Hadv.
  destruct (make_chunks_traced_total turns include_intro tw ov Hadv) as (cs & Hrun & Htr).
  exists cs. split; [exact Hrun|].
  apply (trace_increasing _ _ _ 0 0 cs Hadv Htr). lia.
Qed.

(** C5, what the code does on one usable Turn with [target_words = 0] and
    [overlap_turns = 0]: the iteration entered at index 0 packs nothing and
    leaves the index at 0, so the next chunk starts where this one did and
    the loop never ends, whatever the fuel. *)
Theorem make_chunks_stalls_without_target :
  (forall fuel, make_chunks fuel [conv_turn 0 six_words] false 0 0 = OutOfFuel)
  /\ (exists c, chunk_step [conv_turn 0 six_words] 0 0 0 0 = Some (c, 0)
                /\ em_start_i c = 0 /\ em_stop_i c = 0).
Proof.
  split.
  - intros fuel. unfold make_chunks.
    rewrite make_chunks_traced_nonempty by (vm_compute; discriminate).
    replace (usable_turns false [conv_turn 0 six_words]) with [conv_turn 0 six_words]
      by (vm_compute; reflexivity).
    rewrite chunk_loop_stalls; [reflexivity | lia | lia | simpl; lia].
  - eexists. split; [vm_compute; reflexivity|]. split; reflexivity.
Qed.

(* ------------------------------------------------------------------ *)
(** * Properties of [label_sections] *)

Section OutroLatch.

(** Once the latch is set the iteration labels [outro] and keeps it set. *)
Lemma label_turn_latched (i : nat) (before : list Turn) (st : label_state) (tr : Turn) :
  outro_mode st = true -> label_turn i before st tr = (st, Outro).
Proof. intros H. unfold label_turn. rewrite H. reflexivity. Qed.

(** The label [outro] is only given with the latch set afterwards. *)
Lemma label_turn_outro (i : nat) (before : list Turn) (st st' : label_state) (tr : Turn) :
  label_turn i before st tr = (st', Outro) -> outro_mode st' = true.
Proof.
  unfold label_turn.
  destruct (outro_mode st) eqn:Eo; [intros [= <-]; exact Eo|].
  repeat match goal with
         | |- context [if ?b then _ else _] => destruct b
         end; intros [= <-]; try reflexivity; discriminate.
Qed.

(** The loop appends to [before] one relabelled Turn per remaining Turn;
    with the latch set they are all [outro], and in any case an [outro]
    among them is followed by [outro] only. *)
Lemma label_loop_spec (rest : list Turn) :
  forall before st,
  exists tail,
    label_loop before st rest = (before ++ tail)%list
    /\ List.length tail = List.length rest
    /\ (outro_mode st = true -> Forall (fun tr => section_type tr = Outro) tail)
    /\ (forall i j ti tj,
           (i < j)%nat ->
           nth_error tail i = Some ti -> nth_error tail j = Some tj ->
           section_type ti = Outro -> section_type tj = Outro).
Proof.
  induction rest as [|tr rest IH]; intros before st.
  - exists []. simpl. rewrite app_nil_r. repeat split; try constructor.
    intros i j ti tj _ Hi. destruct i; discriminate.
  - simpl label_loop.
    destruct (label_turn (List.length before) before st tr) as [st' l] eqn:El.
    destruct (IH (before ++ [set_section_type tr l])%list st')
      as (tail & Hrun & Hlen & Hlatched & Hclosed).
    exists (set_section_type tr l :: tail). repeat split.
    + rewrite Hrun, <- app_assoc. reflexivity.
    + simpl. rewrite Hlen. reflexivity.
    + intros Ho. rewrite (label_turn_latched _ _ _ _ Ho) in El.
      injection El as <- <-. constructor; [reflexivity | apply Hlatched; exact Ho].
    + intros i j ti tj Hij Hi Hj Hout.
      destruct j as [|j]; [lia|]. simpl in Hj.
      destruct i as [|i].
      * simpl in Hi. injection Hi as <-. simpl in Hout. subst l.
        apply label_turn_outro in El.
        specialize (Hlatched El). rewrite Forall_forall in Hlatched.
        apply Hlatched. eapply nth_error_In. exact Hj.
      * simpl in Hi. apply (Hclosed i j ti tj); try assumption. lia.
Qed.

End OutroLatch.

(** [label_sections] relabels in place: same number of Turns. *)
Lemma label_sections_length (turns : list Turn) :
  List.length (label_sections turns) = List.length turns.
Proof.
  destruct turns as [|tr turns]; [reflexivity|].
  unfold label_sections.
  destruct (label_loop_spec (tr :: turns) [] (mkLabel false None false))
    as (tail & Hrun & Hlen & _).
  rewrite Hrun. simpl. rewrite Hlen. reflexivity.
Qed.

(** C6. After [label_sections], a Turn labelled [outro] at position [i] is
    followed only by Turns labelled [outro]: for positions [i < j], [outro]
    at [i] gives [outro] at [j]. *)
Theorem outro_is_final (turns : list Turn) (i j : nat) (ti tj : Turn) :
  (i < j)%nat ->
  nth_error (label_sections turns) i = Some ti ->
  nth_error (label_sections turns) j = Some tj ->
  section_type ti = Outro ->
  section_type tj = Outro.
Proof.
  intros Hij Hi Hj Hout.
  destruct turns as [|tr turns]; [destruct i; discriminate|].
  unfold label_sections in Hi, Hj.
  destruct (label_loop_spec (tr :: turns) [] (mkLabel false None false))
    as (tail & Hrun & _ & _ & Hclosed).
  rewrite Hrun in Hi, Hj. simpl app in Hi, Hj.
  exact (Hclosed i j ti tj Hij Hi Hj Hout).
Qed.

Lemma outro_is_final_witness :
  (1 < 2)%nat
  /\ nth_error (label_sections farewell_turns) 1
     = Some (set_section_type (raw_turn 3000 "Thanks so much for listening, everyone.") Outro)
  /\ nth_error (label_sections farewell_turns) 2
     = Some (set_section_type (raw_turn 3010 "One more thing about pricing.") Outro)
  /\ section_type (set_section_type (raw_turn 3010 "One more thing about pricing.") Outro)
     = Outro.
Proof.
  assert (H1 : nth_error (label_sections farewell_turns) 1
               = Some (set_section_type
                         (raw_turn 3000 "Thanks so much for listening, everyone.") Outro))
    by (vm_compute; reflexivity).
  assert (H2 : nth_error (label_sections farewell_turns) 2
               = Some (set_section_type
                         (raw_turn 3010 "One more thing about pricing.") Outro))
    by (vm_compute; reflexivity).
  assert (Hlt : (1 < 2)%nat) by lia.
  split; [exact Hlt|]. split; [exact H1|]. split; [exact H2|].
  exact (outro_is_final farewell_turns 1 2 _ _ Hlt H1 H2 eq_refl).
Defined.

(* ------------------------------------------------------------------ *)
(** * Facts about strings and the matcher *)

Section StringFacts.
Variable p : ascii -> bool.

Lemma all_chars_app (s1 s2 : string) :
  all_chars p (s1 ++ s2) = all_chars p s1 && all_chars p s2.
Proof.
  induction s1 as [|c s1 IH]; simpl; [reflexivity|].
  rewrite IH, andb_assoc. reflexivity.
Qed.

Lemma rstrip_by_empty (s : string) :
  rstrip_by p s = "" -> all_chars p s = true.
Proof.
  induction s as [|c s IH]; simpl; [reflexivity|].
  destruct (rstrip_by p s) eqn:E; [|discriminate].
  destruct (p c); [intros _; apply IH; reflexivity | discriminate].
Qed.

Lemma lstrip_by_all (s : string) :
  all_chars p (lstrip_by p s) = true -> all_chars p s = true.
Proof.
  induction s as [|c s IH]; simpl; [reflexivity|].
  destruct (p c) eqn:E; simpl; [exact IH|].
  rewrite E. discriminate.
Qed.

(** Nothing is stripped from a string without a character of the class. *)
Lemma rstrip_by_none (s : string) :
  all_chars (fun c => negb (p c)) s = true -> rstrip_by p s = s.
Proof.
  induction s as [|c s IH]; simpl; [reflexivity|].
  intros H. apply andb_prop in H as [Hc Hs]. rewrite (IH Hs).
  destruct s; [|reflexivity].
  destruct (p c); [discriminate | reflexivity].
Qed.
End StringFacts.

Lemma blank_all_space (line : string) :
  is_blank line = true -> all_chars is_space line = true.
Proof.
  unfold is_blank, strip. intros H.
  apply lstrip_by_all, rstrip_by_empty.
  destruct (rstrip_by is_space (lstrip_by is_space line)); [reflexivity | discriminate].
Qed.

(** The lines [splitlines] returns hold no line-break character. *)
Lemma splitlines_go_clean (s : string) :
  forall cur after_cr,
    all_chars (fun c => negb (is_linebreak c)) cur = true ->
    Forall (fun l => all_chars (fun c => negb (is_linebreak c)) l = true)
           (splitlines_go s cur after_cr).
Proof.
  induction s as [|c s IH]; intros cur after_cr Hcur; simpl.
  - destruct (is_empty cur); repeat constructor; exact Hcur.
  - destruct (after_cr && is_code 10 c); [apply IH; exact Hcur|].
    destruct (is_linebreak c) eqn:E.
    + constructor; [exact Hcur | apply IH; reflexivity].
    + apply IH. rewrite all_chars_app, Hcur. simpl. rewrite E. reflexivity.
Qed.

Lemma linefeed_is_linebreak (c : ascii) :
  is_code 10 c = true -> is_linebreak c = true.
Proof.
  unfold is_linebreak, is_code, between. intros H.
  apply N.eqb_eq in H. rewrite H. reflexivity.
Qed.

Lemma splitlines_rstrip (text : string) :
  Forall (fun l => rstrip_newline l = l) (splitlines text).
Proof.
  eapply Forall_impl; [|apply (splitlines_go_clean text "" false); reflexivity].
  simpl. intros l Hl. apply rstrip_by_none.
  clear -Hl. induction l as [|c l IH]; simpl in *; [reflexivity|].
  apply andb_prop in Hl as [Hc Hl]. rewrite (IH Hl), andb_true_r.
  destruct (is_code 10 c) eqn:E; [|reflexivity].
  rewrite (linefeed_is_linebreak c E) in Hc. discriminate.
Qed.

Section MatcherFacts.
(** A class of characters [p] and a literal outside it. *)
Variable p : ascii -> bool.

Lemma rep_loop_none {R : Type} (cls : ascii -> bool) (lo : nat) (hi : option nat)
    (greedy : bool) (k : option ascii -> string -> string -> option R) :
  (forall prev taken s, all_chars p s = true -> k prev taken s = None) ->
  forall s n prev taken,
    all_chars p s = true ->
    rep_loop cls lo hi greedy k n prev taken s = None.
Proof.
  intros Hk. induction s as [|c s IH]; intros n prev taken Hs.
  - simpl. rewrite (Hk prev taken "" Hs).
    destruct greedy, (lo <=? n)%nat; reflexivity.
  - simpl in Hs. apply andb_prop in Hs as [Hc Hs'].
    assert (Hks : k prev taken (String c s) = None)
      by (apply Hk; simpl; rewrite Hc, Hs'; reflexivity).
    simpl. rewrite Hks, (IH (S n) (Some c) (taken ++ String c "") Hs').
    destruct greedy, (cls c && below n hi), (lo <=? n)%nat; reflexivity.
Qed.

(** A pattern with a literal outside [p] matches no string made of
    characters of [p]. *)
Lemma exec_needs_literal (c : ascii) (re : regex) :
  In (Lit c) re -> p c = false ->
  forall prev s acc caps,
    all_chars p s = true -> exec re prev s acc caps = None.
Proof.
  intros Hin Hc. induction re as [|it re IH]; [destruct Hin|].
  intros prev s acc caps Hs.
  destruct it as [| | |d|name cls lo hi greedy]; simpl.
  - destruct Hin as [E|Hin]; [discriminate|].
    destruct prev; [reflexivity | apply IH; assumption].
  - destruct Hin as [E|Hin]; [discriminate|].
    destruct (at_eos s); [apply IH; assumption | reflexivity].
  - destruct Hin as [E|Hin]; [discriminate|].
    destruct (xorb _ _); [apply IH; assumption | reflexivity].
  - destruct s as [|e s]; [reflexivity|].
    simpl in Hs. apply andb_prop in Hs as [He Hs].
    destruct (Ascii.eqb d e) eqn:E; [|reflexivity].
    apply Ascii.eqb_eq in E. subst e.
    destruct Hin as [E|Hin]; [injection E as ->; congruence|].
    apply IH; assumption.
  - destruct Hin as [E|Hin]; [discriminate|].
    apply rep_loop_none; [|exact Hs].
    intros prev' taken s' Hs'. apply IH; assumption.
Qed.
End MatcherFacts.

(** A blank line matches neither timestamp pattern. *)
Lemma blank_no_timestamp (line : string) :
  is_blank line = true -> is_timestamp_line line = false.
Proof.
  intros H. apply blank_all_space in H.
  unfold is_timestamp_line, matches, re_match_at_start.
  rewrite (exec_needs_literal is_space "(" RE_SPEAKER_TS), (exec_needs_literal is_space "(" RE_TS_ONLY);
    try reflexivity; try exact H; simpl; tauto.
Qed.

Lemma match_timestamp_none (line : string) :
  match_timestamp line = None <-> is_timestamp_line line = false.
Proof.
  unfold match_timestamp, is_timestamp_line, matches.
  destruct (re_match_at_start RE_SPEAKER_TS line), (re_match_at_start RE_TS_ONLY line);
    simpl; split; intros H; try discriminate; reflexivity.
Qed.

Section MatcherSoundness.

Lemma append_assoc (a b c : string) : (a ++ b) ++ c = a ++ (b ++ c).
Proof. induction a as [|x a IH]; simpl; [reflexivity | rewrite IH; reflexivity]. Qed.

Lemma append_nil_r (a : string) : a ++ "" = a.
Proof. induction a as [|x a IH]; simpl; [reflexivity | rewrite IH; reflexivity]. Qed.

Lemma length_append (a b : string) :
  String.length (a ++ b) = (String.length a + String.length b)%nat.
Proof. induction a as [|x a IH]; simpl; [reflexivity | rewrite IH; reflexivity]. Qed.

(** A successful quantifier took a run [u] of its class, within its bounds,
    and what follows succeeded after it. *)
Lemma rep_loop_sound {R : Type} (cls : ascii -> bool) (lo : nat) (hi : option nat)
    (greedy : bool) (k : option ascii -> string -> string -> option R) :
  forall s n prev taken r,
    match hi with Some h => (n <= h)%nat | None => True end ->
    rep_loop cls lo hi greedy k n prev taken s = Some r ->
    exists u s' prev',
      s = u ++ s'
      /\ all_chars cls u = true
      /\ (lo <= n + String.length u)%nat
      /\ match hi with Some h => (n + String.length u <= h)%nat | None => True end
      /\ k prev' (taken ++ u) s' = Some r.
Proof.
  induction s as [|c s IH]; intros n prev taken r Hn Hrun.
  - assert (Hstop : (lo <=? n)%nat = true /\ k prev taken "" = Some r).
    { simpl in Hrun. destruct greedy, (lo <=? n)%nat; try discriminate;
        destruct (k prev taken "") eqn:E; try discriminate;
        injection Hrun as <-; split; reflexivity. }
    destruct Hstop as [Hlo Hk]. apply Nat.leb_le in Hlo.
    exists "", "", prev. simpl. rewrite append_nil_r, Nat.add_0_r.
    repeat split; try assumption.
  - assert (Hcases :
        ((lo <=? n)%nat = true /\ k prev taken (String c s) = Some r)
        \/ (cls c && below n hi = true
            /\ rep_loop cls lo hi greedy k (S n) (Some c) (taken ++ String c "") s
               = Some r)).
    { simpl in Hrun. destruct greedy.
      - destruct (cls c && below n hi).
        + destruct (rep_loop cls lo hi true k (S n) (Some c) (taken ++ String c "") s)
            eqn:E.
          * injection Hrun as <-. right. split; reflexivity.
          * left. destruct (lo <=? n)%nat; [split; [reflexivity | exact Hrun] | discriminate].
        + left. destruct (lo <=? n)%nat; [split; [reflexivity | exact Hrun] | discriminate].
      - destruct (lo <=? n)%nat.
        + destruct (k prev taken (String c s)) eqn:E.
          * injection Hrun as <-. left. split; reflexivity.
          * right. destruct (cls c && below n hi); [split; [reflexivity | exact Hrun] | discriminate].
        + right. destruct (cls c && below n hi); [split; [reflexivity | exact Hrun] | discriminate]. }
    destruct Hcases as [[Hlo Hk]|[Hc Hrec]].
    + apply Nat.leb_le in Hlo. exists "", (String c s), prev.
      simpl. rewrite append_nil_r, Nat.add_0_r. repeat split; assumption.
    + apply andb_prop in Hc as [Hc Hbelow].
      apply IH in Hrec.
      * destruct Hrec as (u & s' & prev' & -> & Hu & Hlo & Hhi & Hk).
        exists (String c u), s', prev'. simpl. rewrite Hc, Hu.
        rewrite append_assoc in Hk. simpl in Hk.
        repeat split; try assumption; try lia.
        destruct hi; [lia | exact I].
      * destruct hi as [h|]; [|exact I]. simpl in Hbelow.
        apply Nat.ltb_lt in Hbelow. lia.
Qed.

(** A match consumed a prefix of the input that has the shape of the
    pattern. *)
Lemma exec_sound (re : regex) :
  forall prev s acc caps m,
    exec re prev s acc caps = Some m ->
    exists w, m_text m = acc ++ w /\ s = w ++ m_rest m /\ shape re w.
Proof.
  induction re as [|it re IH]; intros prev s acc caps m Hrun.
  - simpl in Hrun. injection Hrun as <-. exists "". simpl.
    rewrite append_nil_r. repeat split.
  - destruct it as [| | |d|name cls lo hi greedy]; simpl in Hrun.
    + destruct prev; [discriminate|]. apply IH in Hrun. exact Hrun.
    + destruct (at_eos s); [|discriminate]. apply IH in Hrun. exact Hrun.
    + destruct (xorb _ _); [|discriminate]. apply IH in Hrun. exact Hrun.
    + destruct s as [|e s]; [discriminate|].
      destruct (Ascii.eqb d e) eqn:E; [|discriminate].
      apply Ascii.eqb_eq in E. subst e.
      apply IH in Hrun as (w & Htext & Hs & Hshape).
      exists (String d w). rewrite Htext, append_assoc. simpl.
      repeat split; [rewrite Hs; reflexivity|]. exists w. split; [reflexivity | exact Hshape].
    + apply rep_loop_sound in Hrun; [|destruct hi; [lia | exact I]].
      destruct Hrun as (u & s' & prev' & -> & Hu & Hlo & Hhi & Hk).
      apply IH in Hk as (w & Htext & Hs & Hshape).
      exists (u ++ w). rewrite Htext. simpl. rewrite !append_assoc.
      repeat split; [rewrite Hs; reflexivity|].
      exists u, w. repeat split; try assumption.
Qed.

(** Each match [finditer] reports occurs in the scanned string and has the
    shape of the pattern. *)
Lemma finditer_go_in (re : regex) (s : string) :
  forall prev skip v,
    In v (finditer_go re prev s skip) -> occurs v s /\ shape re v.
Proof.
  induction s as [|c s IH]; intros prev skip v Hin; [destruct Hin|].
  assert (Hlater : forall prev' skip', In v (finditer_go re prev' s skip') ->
                                       occurs v (String c s) /\ shape re v).
  { intros prev' skip' H. apply IH in H as [(a & b & ->) Hshape].
    split; [exists (String c a), b; reflexivity | exact Hshape]. }
  simpl in Hin. destruct skip as [|n]; [|eapply Hlater; exact Hin].
  destruct (exec re prev (String c s) "" []) as [m|] eqn:E;
    [|eapply Hlater; exact Hin].
  destruct Hin as [<-|Hin]; [|eapply Hlater; exact Hin].
  apply exec_sound in E as (w & Htext & Hs & Hshape). simpl in Htext. subst w.
  split; [exists "", (m_rest m); exact Hs | exact Hshape].
Qed.

End MatcherSoundness.

(* ------------------------------------------------------------------ *)
(** * Where the reported PII values lie *)

Section Occurrences.

Lemma occurs_app_r (v s x : string) : occurs v s -> occurs v (s ++ x).
Proof.
  intros (a & b & ->). exists a, (b ++ x). rewrite !append_assoc. reflexivity.
Qed.

Lemma occurs_app_l (v s x : string) : occurs v s -> occurs v (x ++ s).
Proof.
  intros (a & b & ->). exists (x ++ a), b. rewrite !append_assoc. reflexivity.
Qed.

Lemma prefix_append (v b : string) : String.prefix v (v ++ b) = true.
Proof.
  induction v as [|c v IH]; simpl; [destruct b; reflexivity|].
  destruct (ascii_dec c c); [exact IH | congruence].
Qed.

Lemma occurs_contains (v s : string) : occurs v s -> contains v s = true.
Proof.
  intros (a & b & ->). induction a as [|c a IH].
  - simpl append.
    assert (E : forall h, String.prefix v h = true -> contains v h = true)
      by (intros h Hh; destruct h; cbn [contains]; rewrite Hh; reflexivity).
    apply E, prefix_append.
  - simpl. rewrite IH. apply orb_true_r.
Qed.

(** Stripping on the right, through a concatenation. *)
Lemma rstrip_by_app (p : ascii -> bool) (x y : string) :
  rstrip_by p (x ++ y)
  = match rstrip_by p y with
    | "" => rstrip_by p x
    | _ => x ++ rstrip_by p y
    end.
Proof.
  induction x as [|c x IH]; simpl.
  - destruct (rstrip_by p y); reflexivity.
  - rewrite IH. destruct (rstrip_by p y) eqn:E; [reflexivity|].
    destruct x; reflexivity.
Qed.

Lemma lstrip_by_keeps (v : string) :
  solid v -> forall a b, exists a', lstrip_by is_space (a ++ v ++ b) = a' ++ v ++ b.
Proof.
  intros [(c & w & -> & Hc) _] a b. induction a as [|d a IH].
  - exists "". simpl. rewrite Hc. reflexivity.
  - simpl. destruct (is_space d); [exact IH|].
    exists (String d a). reflexivity.
Qed.

(** [strip] keeps a solid value that occurs in the string. *)
Lemma strip_keeps (v s : string) : solid v -> occurs v s -> occurs v (strip s).
Proof.
  intros Hv (a & b & ->). unfold strip.
  destruct (lstrip_by_keeps v Hv a b) as [a' ->].
  destruct Hv as [(c & w & -> & Hc) Hr].
  assert (Hvb : exists b', rstrip_by is_space (String c w ++ b) = String c w ++ b').
  { rewrite rstrip_by_app. destruct (rstrip_by is_space b) eqn:E.
    - exists "". rewrite Hr, append_nil_r. reflexivity.
    - eexists. reflexivity. }
  destruct Hvb as [b' Hvb].
  exists a', b'. rewrite rstrip_by_app, Hvb. reflexivity.
Qed.

(** A property of characters checked on the 256 of them. *)
Lemma all_ascii (f : ascii -> bool) :
  forallb f (map ascii_of_nat (seq 0 256)) = true -> forall c, f c = true.
Proof.
  intros H c. rewrite forallb_forall in H. apply H.
  rewrite <- (ascii_nat_embedding c). apply in_map, in_seq.
  pose proof (nat_ascii_bounded c). lia.
Qed.

(** The characters the two PII patterns can start and end with are not
    white space. *)
Lemma outside_space (cls : ascii -> bool) :
  forallb (fun c => implb (cls c) (negb (is_space c)))
          (map ascii_of_nat (seq 0 256)) = true ->
  forall c, cls c = true -> is_space c = false.
Proof.
  intros H c Hc. pose proof (all_ascii _ H c) as Hi. simpl in Hi.
  rewrite Hc in Hi. simpl in Hi. apply negb_true_iff. exact Hi.
Qed.

Lemma email_local_not_space (c : ascii) : email_local c = true -> is_space c = false.
Proof. apply outside_space. vm_compute. reflexivity. Qed.

Lemma letter_not_space (c : ascii) : is_letter_az c = true -> is_space c = false.
Proof. apply outside_space. vm_compute. reflexivity. Qed.

Lemma decimal_not_space (c : ascii) : is_decimal c = true -> is_space c = false.
Proof. apply outside_space. vm_compute. reflexivity. Qed.

Lemma plus_not_space (c : ascii) : is_char "+" c = true -> is_space c = false.
Proof. apply outside_space. vm_compute. reflexivity. Qed.

Lemma rstrip_by_class (cls : ascii -> bool) (u : string) :
  (forall c, cls c = true -> is_space c = false) ->
  all_chars cls u = true -> rstrip_by is_space u = u.
Proof.
  intros Hcls Hu. apply rstrip_by_none.
  induction u as [|c u IH]; simpl in *; [reflexivity|].
  apply andb_prop in Hu as [Hc Hu]. rewrite (Hcls c Hc), (IH Hu). reflexivity.
Qed.

(** A string that starts with a character outside white space and ends
    with a non-empty run of a class outside white space is solid. *)
Lemma solid_intro (cls : ascii -> bool) (c : ascii) (w x u : string) :
  (forall d, cls d = true -> is_space d = false) ->
  is_space c = false ->
  String c w = x ++ u -> u <> "" -> all_chars cls u = true ->
  solid (String c w).
Proof.
  intros Hcls Hc E Hne Hu. split; [exists c, w; split; [reflexivity | exact Hc]|].
  rewrite E, rstrip_by_app, (rstrip_by_class cls u Hcls Hu).
  destruct u; [congruence | reflexivity].
Qed.

Lemma email_shape_solid (v : string) : shape EMAIL_RE v -> solid v.
Proof.
  intros (u1 & r1 & -> & Hu1 & Hlo1 & _ & r2 & -> & u2 & r3 & -> & Hu2 & _ & _
          & r4 & -> & u3 & r5 & -> & Hu3 & Hlo3 & _ & ->).
  destruct u1 as [|c u1]; [simpl in Hlo1; lia|].
  simpl in Hu1. apply andb_prop in Hu1 as [Hc _].
  simpl append.
  apply (solid_intro is_letter_az c _ (String c u1 ++ String "@" (u2 ++ ".")) u3).
  - exact letter_not_space.
  - apply email_local_not_space. exact Hc.
  - repeat (rewrite ?append_assoc, ?append_nil_r; cbn [append]). reflexivity.
  - destruct u3; [simpl in Hlo3; lia | discriminate].
  - exact Hu3.
Qed.

Lemma phone_shape_solid (v : string) : shape PHONE_RE v -> solid v.
Proof.
  intros (u0 & r0 & -> & Hu0 & _ & Hhi0 & u1 & r1 & -> & Hu1 & Hlo1 & Hhi1
          & u2 & r2 & -> & Hu2 & _ & _ & u3 & r3 & -> & Hu3 & Hlo3 & Hhi3 & ->).
  rewrite append_nil_r.
  destruct u1 as [|d1 u1]; [simpl in Hlo1; lia|].
  assert (Hne3 : u3 <> "") by (destruct u3; [simpl in Hlo3; lia | discriminate]).
  simpl in Hu1. apply andb_prop in Hu1 as [Hd1 _].
  destruct u0 as [|c0 u0].
  - simpl append.
    apply (solid_intro is_decimal d1 _ (String d1 u1 ++ u2) u3);
      [exact decimal_not_space | apply decimal_not_space; exact Hd1 | | exact Hne3 | exact Hu3].
    repeat (rewrite ?append_assoc, ?append_nil_r; cbn [append]). reflexivity.
  - simpl in Hu0. apply andb_prop in Hu0 as [Hc0 _]. simpl append.
    apply (solid_intro is_decimal c0 _ (String c0 u0 ++ String d1 u1 ++ u2) u3);
      [exact decimal_not_space | apply plus_not_space; exact Hc0 | | exact Hne3 | exact Hu3].
    repeat (rewrite ?append_assoc, ?append_nil_r; cbn [append]). reflexivity.
Qed.

(** What [detect_pii] reports occurs in the scanned string and is solid. *)
Lemma detect_pii_in (s : string) (f : pii_flag) :
  In f (detect_pii s) -> solid (pii_value f) /\ occurs (pii_value f) s.
Proof.
  unfold detect_pii. intros H. apply in_app_or in H as [H|H];
    apply in_map_iff in H as (v & <- & Hv); simpl.
  - apply finditer_go_in in Hv as [Hocc Hshape].
    split; [apply email_shape_solid; exact Hshape | exact Hocc].
  - apply filter_In in Hv as [Hv _].
    apply finditer_go_in in Hv as [Hocc Hshape].
    split; [apply phone_shape_solid; exact Hshape | exact Hocc].
Qed.

End Occurrences.

(* ------------------------------------------------------------------ *)
(** * Properties of [parse_transcript] and of the PII pair *)

(** C9. The line of Jane Doe, a blank line and a continuation line give one
    Turn, with the paragraph break kept as a single line feed and no blank
    after it; the same with or without redaction and with or without a
    final line feed. *)
Theorem jane_doe_scenario (redact : bool) :
  parse_transcript jane_text redact
  = [ mkTurn (Some "Jane Doe") 65
        ("I disagree with that." ++ NL ++ "and here's why.")
        Unknown false None ]
  /\ parse_transcript (jane_text ++ NL) redact
     = [ mkTurn (Some "Jane Doe") 65
           ("I disagree with that." ++ NL ++ "and here's why.")
           Unknown false None ].
Proof. destruct redact; split; vm_compute; reflexivity. Qed.

(** C4 (as amended). The file of the one line "(00:00:10): ..." gives one
    Turn without speaker, at 10 seconds, elided, whose text is the three
    dots; [make_chunks] drops it for every [include_intro], whatever its
    section label and the rest of the configuration. *)
Theorem ellipsis_scenario (redact : bool) :
  parse_transcript ellipsis_text redact
  = [ mkTurn None 10 "..." Unknown true None ]
  /\ label_sections (parse_transcript ellipsis_text redact)
     = [ mkTurn None 10 "..." Intro true None ]
  /\ forall (l : section) (include_intro : bool) (target_words overlap_turns : Z)
            (fuel : nat),
       make_chunks fuel [ mkTurn None 10 "..." l true None ]
                   include_intro target_words overlap_turns
       = Returned [].
Proof.
  split; [destruct redact; vm_compute; reflexivity|].
  split; [destruct redact; vm_compute; reflexivity|].
  intros l include_intro tw ov fuel. unfold make_chunks, make_chunks_traced.
  replace (usable_turns include_intro [mkTurn None 10 "..." l true None]) with (@nil Turn);
    [reflexivity|].
  destruct l, include_intro; vm_compute; reflexivity.
Qed.

(** C4, the claim as stated fails: the text of the Turn is the three dots,
    not the empty string. *)
Lemma ellipsis_text_kept :
  map text (parse_transcript ellipsis_text false) = [ "..." ]
  /\ map (fun tr => is_empty (text tr)) (parse_transcript ellipsis_text false) = [ false ].
Proof. split; vm_compute; reflexivity. Qed.

(** C8, what the code does at the failing input: redaction replaces the
    phone number, which uncovers a word boundary after "a@b.cd", and
    detection on the redacted string reports that email. *)
Theorem redaction_uncovers_email :
  detect_pii leaky_text = [ mkFlag Phone "1234567890" ]
  /\ redact_pii leaky_text = "a@b.cd[REDACTED_PHONE]"
  /\ detect_pii (redact_pii leaky_text) = [ mkFlag Email "a@b.cd" ].
Proof. repeat split; vm_compute; reflexivity. Qed.

Section TurnCount.
Variable redact : bool.

(** The effect of one line on the number of Turns: a timestamp line
    opens a Turn, a continuation line opens the synthetic one when no
    Turn is open, a blank line changes nothing. *)
Lemma parse_line_count (turns : list Turn) (cur : option Turn) (l : string) :
  rstrip_newline l = l ->
  (List.length (fst (parse_line redact (turns, cur) l))
   + pending (snd (parse_line redact (turns, cur) l))
   = List.length turns + pending cur
     + (if is_timestamp_line l then 1 else 0)
     + match cur with
       | None => if is_blank l || is_timestamp_line l then 0 else 1
       | Some _ => 0
       end)%nat
  /\ (snd (parse_line redact (turns, cur) l) = None
      <-> cur = None /\ is_blank l = true).
Proof.
  intros Hl. unfold parse_line. rewrite Hl. fold (is_blank l).
  destruct (is_blank l) eqn:Eb.
  - rewrite (blank_no_timestamp l Eb).
    destruct cur as [c|].
    + destruct (nonempty (text c) && negb (endswith_newline (text c)));
        simpl; (split; [lia | split; [discriminate | intros [? _]; discriminate]]).
    + simpl. split; [lia | tauto].
  - destruct (match_timestamp l) as [[[sp secs] rest]|] eqn:Em.
    + assert (Ets : is_timestamp_line l = true).
      { destruct (is_timestamp_line l) eqn:E; [reflexivity|].
        apply match_timestamp_none in E. congruence. }
      rewrite Ets.
      destruct cur as [c|]; cbn [fst snd pending orb]; rewrite ?length_app;
        simpl; (split; [lia | split; [discriminate | intros [_ ?]; discriminate]]).
    + apply match_timestamp_none in Em. rewrite Em.
      destruct cur as [c|]; cbn [fst snd pending orb];
        (split; [lia | split; [discriminate | intros [_ ?]; discriminate]]).
Qed.

(** The Turns built so far, the open one included, after some lines. *)
Lemma parse_lines_count (lines : list string) :
  Forall (fun l => rstrip_newline l = l) lines ->
  forall turns cur,
    (List.length (fst (parse_lines redact lines (turns, cur)))
     + pending (snd (parse_lines redact lines (turns, cur)))
     = List.length turns + pending cur + count_timestamp_lines lines
       + match cur with
         | None => if opens_with_continuation lines then 1 else 0
         | Some _ => 0
         end)%nat.
Proof.
  induction 1 as [|l lines Hl Hlines IH]; intros turns cur.
  - unfold count_timestamp_lines, opens_with_continuation. simpl.
    destruct cur; simpl; lia.
  - unfold parse_lines in *. cbn [fold_left].
    destruct (parse_line_count turns cur l Hl) as [Hcount Hnone].
    destruct (parse_line redact (turns, cur) l) as [turns' cur'].
    rewrite IH. cbn [fst snd] in Hcount, Hnone.
    unfold count_timestamp_lines, opens_with_continuation in *.
    cbn [filter find].
    destruct (is_timestamp_line l) eqn:Ets, (is_blank l) eqn:Eb;
      try (rewrite (blank_no_timestamp l Eb) in Ets; discriminate);
      cbn [negb orb List.length] in *; rewrite ?Ets, ?Eb; cbn [negb];
      destruct cur as [c|], cur' as [c'|]; cbn [pending] in *; try lia;
      try (destruct Hnone as [Hn _]; destruct (Hn eq_refl); discriminate);
      try (destruct Hnone as [_ Hn]; discriminate Hn; split; reflexivity).
Qed.

End TurnCount.

Section LeadingTurn.
Variable redact : bool.

(** No line changes the speaker and time of the first Turn. *)
Lemma parse_line_head_key (st : parser_state) (l : string) (k : option string * Z) :
  head_key st = Some k -> head_key (parse_line redact st l) = Some k.
Proof.
  destruct st as [turns cur]. unfold head_key, parse_line. cbn [fst snd].
  intros Hk.
  destruct (is_empty (strip (rstrip_newline l))).
  - destruct cur as [c|]; [|exact Hk].
    destruct (nonempty (text c) && negb (endswith_newline (text c)));
      cbn [fst snd]; destruct turns; exact Hk.
  - destruct (match_timestamp (rstrip_newline l)) as [[[sp secs] rest]|]; cbn [fst snd].
    + destruct turns as [|tr turns], cur as [c|]; try discriminate; exact Hk.
    + destruct turns as [|tr turns]; [|exact Hk].
      destruct cur as [c|]; [|discriminate].
      rewrite <- Hk.
      repeat match goal with
             | |- context [if ?b then _ else _] => destruct b
             end; reflexivity.
Qed.

Lemma parse_lines_head_key (lines : list string) :
  forall st k, head_key st = Some k -> head_key (parse_lines redact lines st) = Some k.
Proof.
  induction lines as [|l lines IH]; intros st k Hk; [exact Hk|].
  unfold parse_lines in *. cbn [fold_left].
  apply IH, parse_line_head_key, Hk.
Qed.

(** A file that opens with a continuation line starts with a Turn without
    speaker at time 0. *)
Lemma parse_lines_opening (lines : list string) :
  Forall (fun l => rstrip_newline l = l) lines ->
  opens_with_continuation lines = true ->
  head_key (parse_lines redact lines ([], None)) = Some (None, 0).
Proof.
  induction 1 as [|l lines Hl Hlines IH]; [discriminate|].
  unfold opens_with_continuation. cbn [find].
  unfold parse_lines in *. cbn [fold_left].
  destruct (is_blank l) eqn:Eb; cbn [negb].
  - intros Hopen. unfold parse_line. rewrite Hl. fold (is_blank l). rewrite Eb.
    apply IH. exact Hopen.
  - intros Hts. apply negb_true_iff, match_timestamp_none in Hts.
    apply parse_lines_head_key.
    unfold parse_line. rewrite Hl. fold (is_blank l). rewrite Eb, Hts.
    unfold head_key. cbn [fst snd].
    repeat match goal with
           | |- context [if ?b then _ else _] => destruct b
           end; reflexivity.
Qed.

Lemma parse_finish_head (st : parser_state) (k : option string * Z) :
  head_key st = Some k ->
  exists tr rest, parse_finish st = tr :: rest /\ (speaker tr, t tr) = k.
Proof.
  destruct st as [turns cur]. unfold head_key, parse_finish. cbn [fst snd].
  destruct turns as [|tr turns].
  - destruct cur as [c|]; [|discriminate]. intros [= <-].
    eexists _, _. split; reflexivity.
  - intros [= <-]. destruct cur as [c|]; eexists _, _; split; reflexivity.
Qed.

End LeadingTurn.

(** C7. The number of Turns [parse_transcript] returns is the number of
    lines that match one of the two timestamp patterns, plus one exactly
    when the first non-blank line is a continuation line; in that case the
    list starts with the synthetic Turn, without speaker and at time 0. *)
Theorem turn_count (text0 : string) (redact : bool) :
  List.length (parse_transcript text0 redact)
  = (count_timestamp_lines (splitlines text0)
     + if opens_with_continuation (splitlines text0) then 1 else 0)%nat
  /\ (opens_with_continuation (splitlines text0) = true ->
      exists tr rest,
        parse_transcript text0 redact = tr :: rest
        /\ speaker tr = None /\ t tr = 0).
Proof.
  split.
  - unfold parse_transcript.
    pose proof (parse_lines_count redact (splitlines text0) (splitlines_rstrip text0)
                  [] None) as H.
    destruct (parse_lines redact (splitlines text0) ([], None)) as [turns cur].
    cbn [fst snd pending List.length] in H.
    unfold parse_finish. destruct cur as [c|]; cbn [pending] in H.
    + rewrite length_app. simpl. lia.
    + lia.
  - intros Hopen. unfold parse_transcript.
    pose proof (parse_lines_opening redact (splitlines text0) (splitlines_rstrip text0)
                  Hopen) as Hk.
    apply parse_finish_head in Hk as (tr & rest & Hrun & Hkey).
    exists tr, rest. injection Hkey as Hs Ht. repeat split; assumption.
Qed.

Lemma turn_count_witness :
  opens_with_continuation (splitlines narrated_text) = true
  /\ List.length (parse_transcript narrated_text false) = (1 + 1)%nat
  /\ exists tr rest,
      parse_transcript narrated_text false = tr :: rest
      /\ speaker tr = None /\ t tr = 0.
Proof.
  assert (Hopen : opens_with_continuation (splitlines narrated_text) = true)
    by (vm_compute; reflexivity).
  split; [exact Hopen|].
  split.
  - exact (proj1 (turn_count narrated_text false)).
  - exact (proj2 (turn_count narrated_text false) Hopen).
Defined.

Section FlagProvenance.
Variable redact : bool.

Lemma detect_pii_empty : detect_pii "" = [].
Proof. reflexivity. Qed.

Lemma redact_pii_empty : redact_pii "" = "".
Proof. reflexivity. Qed.

Lemma nonempty_false (s : string) : nonempty s = false -> s = "".
Proof. destruct s; [reflexivity | discriminate]. Qed.

(** What the parser scans for a payload is the stored payload. *)
Lemma scanned_is_stored (piece : string) :
  let kept := if redact && nonempty piece then redact_pii piece else piece in
  kept = stored redact piece
  /\ (if nonempty kept then detect_pii kept else []) = detect_pii (stored redact piece).
Proof.
  cbv zeta. unfold stored.
  assert (E : (if redact && nonempty piece then redact_pii piece else piece)
              = if redact then redact_pii piece else piece).
  { destruct redact; [|reflexivity]. simpl.
    destruct (nonempty piece) eqn:En; [reflexivity|].
    apply nonempty_false in En. subst piece. reflexivity. }
  rewrite E. split; [reflexivity|].
  set (kept := if redact then redact_pii piece else piece).
  destruct (nonempty kept) eqn:En; [reflexivity|].
  apply nonempty_false in En. rewrite En. reflexivity.
Qed.

Lemma scan_app (ps qs : list string) :
  scan redact (ps ++ qs) = (scan redact ps ++ scan redact qs)%list.
Proof. unfold scan. apply flat_map_app. Qed.

Lemma scan_one (piece : string) :
  scan redact [piece] = detect_pii (stored redact piece).
Proof. unfold scan. simpl. apply app_nil_r. Qed.

(** Appending the flags of one more payload, as the continuation branch
    does it. *)
Lemma flags_of_extend (found more : list pii_flag) :
  (if truthy_list more
   then Some ((match flags_of found with
               | Some l => if truthy_list l then l else []
               | None => []
               end) ++ more)%list
   else flags_of found)
  = flags_of (found ++ more).
Proof.
  unfold flags_of. destruct more as [|m more].
  - simpl. rewrite app_nil_r. reflexivity.
  - destruct found as [|f found]; reflexivity.
Qed.

Lemma parse_lines_flags (lines : list string) :
  forall turns cur done curp,
    map pii_flags turns = map (fun ps => flags_of (scan redact ps)) done ->
    open_agrees redact cur curp ->
    map pii_flags (parse_finish (parse_lines redact lines (turns, cur)))
    = map (fun ps => flags_of (scan redact ps)) (done ++ turn_pieces_go lines curp).
Proof.
  induction lines as [|l lines IH]; intros turns cur done curp Hdone Hopen.
  - simpl. destruct cur as [c|], curp as [ps|]; simpl in Hopen; try contradiction.
    + rewrite !map_app, Hdone. simpl. rewrite Hopen. reflexivity.
    + rewrite app_nil_r. exact Hdone.
  - unfold parse_lines in *. cbn [fold_left turn_pieces_go].
    unfold parse_line. fold (is_blank (rstrip_newline l)).
    destruct (is_blank (rstrip_newline l)).
    + destruct cur as [c|], curp as [ps|]; simpl in Hopen; try contradiction.
      * destruct (nonempty (text c) && negb (endswith_newline (text c)));
          apply IH; try assumption; exact Hopen.
      * apply IH; [assumption | exact I].
    + destruct (match_timestamp (rstrip_newline l)) as [[[sp secs] rest]|].
      * destruct (scanned_is_stored rest) as [Hkept Hscan]. cbv zeta in Hkept, Hscan.
        rewrite app_assoc. apply IH.
        -- destruct cur as [c|], curp as [ps|]; simpl in Hopen; try contradiction.
           ++ rewrite !map_app, Hdone. simpl. rewrite Hopen. reflexivity.
           ++ rewrite app_nil_r. exact Hdone.
        -- unfold open_agrees. rewrite scan_one, <- Hscan.
           set (kept := if redact && nonempty rest then redact_pii rest else rest).
           destruct (nonempty kept); reflexivity.
      * destruct (scanned_is_stored (strip (rstrip_newline l))) as [Hkept Hscan].
        cbv zeta in Hkept, Hscan.
        apply IH; [exact Hdone|].
        set (cont := if redact && nonempty (strip (rstrip_newline l))
                     then redact_pii (strip (rstrip_newline l))
                     else strip (rstrip_newline l)) in *.
        assert (Hold : pii_flags (match cur with
                                  | Some c => c
                                  | None => mkTurn None 0 "" Unknown false None
                                  end)
                       = flags_of (scan redact (match curp with
                                                | Some ps => ps
                                                | None => []
                                                end))).
        { destruct cur as [c|], curp as [ps|]; simpl in Hopen; try contradiction;
            [exact Hopen | reflexivity]. }
        set (c0 := match cur with
                   | Some c => c
                   | None => mkTurn None 0 "" Unknown false None
                   end) in *.
        unfold open_agrees.
        rewrite scan_app, scan_one, <- Hscan, <- flags_of_extend, <- Hold.
        destruct (nonempty (text c0) && negb (endswith_newline (text c0)));
          destruct (nonempty cont && negb (ellipsis_match cont));
          destruct (nonempty cont); simpl;
          try reflexivity;
          destruct (truthy_list (detect_pii cont)); reflexivity.
Qed.

End FlagProvenance.

Lemma has_pii_false (turns : list Turn) :
  has_pii turns = false
  <-> Forall (fun f => truthy_flags f = false) (map pii_flags turns).
Proof.
  unfold has_pii. induction turns as [|tr turns IH]; simpl.
  - split; [constructor | reflexivity].
  - destruct (truthy_flags (pii_flags tr)) eqn:E; simpl.
    + rewrite E. simpl. split; [discriminate|].
      intros H. inversion H; subst. congruence.
    + rewrite IH. split; [constructor; assumption|].
      intros H. inversion H; subst. assumption.
Qed.

Lemma scan_nil (redact : bool) (ps : list string) :
  truthy_flags (flags_of (scan redact ps)) = false
  <-> forall p, In p ps -> detect_pii (stored redact p) = [].
Proof.
  unfold flags_of, scan. induction ps as [|q ps IH]; simpl.
  - split; [intros _ p [] | reflexivity].
  - destruct (detect_pii (stored redact q)) eqn:E; simpl.
    + rewrite IH. split.
      * intros H p [<-|Hp]; [exact E | apply H; exact Hp].
      * intros H p Hp. apply H. right. exact Hp.
    + split; [discriminate|]. intros H. specialize (H q (or_introl eq_refl)).
      rewrite E in H. discriminate.
Qed.

Section FlagsInText.
Variable redact : bool.

Lemma held_no_flags (tr : Turn) : pii_flags tr = None -> flags_held tr.
Proof. intros H fl f Hfl. rewrite H in Hfl. discriminate. Qed.

Lemma held_strip (c : Turn) :
  flags_held c -> flags_held (set_text c (strip (text c))).
Proof.
  intros H fl f Hfl Hf. destruct (H fl f Hfl Hf) as [Hs Ho].
  split; [exact Hs | apply strip_keeps; assumption].
Qed.

Lemma held_append (c : Turn) (x : string) :
  flags_held c -> flags_held (set_text c (text c ++ x)).
Proof.
  intros H fl f Hfl Hf. destruct (H fl f Hfl Hf) as [Hs Ho].
  split; [exact Hs | apply occurs_app_r; exact Ho].
Qed.

Lemma held_elided (c : Turn) (b : bool) :
  flags_held c -> flags_held (set_is_elided c b).
Proof. intros H. exact H. Qed.

(** The Turn a timestamp line opens holds the flags found in its text. *)
Lemma held_fresh (sp : option string) (secs : Z) (kept : string) (e : bool) :
  flags_held
    (if nonempty kept then
       set_pii_flags (mkTurn sp secs kept Unknown e None)
         (if truthy_list (detect_pii kept) then Some (detect_pii kept) else None)
     else mkTurn sp secs kept Unknown e None).
Proof.
  destruct (nonempty kept); [|apply held_no_flags; reflexivity].
  destruct (truthy_list (detect_pii kept)); [|apply held_no_flags; reflexivity].
  intros fl f [= <-] Hf. simpl. apply detect_pii_in. exact Hf.
Qed.

(** Merging the flags of a continuation line that was just appended. *)
Lemma held_merge (c : Turn) (x cont : string) :
  flags_held c -> text c = x ++ cont ->
  flags_held
    (if nonempty cont then
       if truthy_list (detect_pii cont)
       then set_pii_flags c
              (Some ((match pii_flags c with
                      | Some l => if truthy_list l then l else []
                      | None => []
                      end) ++ detect_pii cont)%list)
       else c
     else c).
Proof.
  intros H Htext. destruct (nonempty cont); [|exact H].
  destruct (truthy_list (detect_pii cont)); [|exact H].
  intros fl f [= <-] Hf. simpl. apply in_app_or in Hf as [Hf|Hf].
  - destruct (pii_flags c) as [l|] eqn:El; [|destruct Hf].
    destruct (truthy_list l); [|destruct Hf].
    exact (H l f El Hf).
  - apply detect_pii_in in Hf as [Hs Ho]. split; [exact Hs|].
    rewrite Htext. apply occurs_app_l. exact Ho.
Qed.

Lemma parse_line_held (turns : list Turn) (cur : option Turn) (l : string) :
  Forall flags_held turns ->
  (forall c, cur = Some c -> flags_held c) ->
  Forall flags_held (fst (parse_line redact (turns, cur) l))
  /\ (forall c, snd (parse_line redact (turns, cur) l) = Some c -> flags_held c).
Proof.
  intros Hturns Hcur. unfold parse_line.
  destruct (is_empty (strip (rstrip_newline l))).
  - destruct cur as [c|]; [|split; [exact Hturns | discriminate]].
    destruct (nonempty (text c) && negb (endswith_newline (text c))); simpl.
    + split; [exact Hturns|]. intros c' [= <-]. apply held_append, Hcur. reflexivity.
    + split; [exact Hturns | exact Hcur].
  - destruct (match_timestamp (rstrip_newline l)) as [[[sp secs] rest]|].
    + cbn [fst snd]. split.
      * destruct cur as [c|]; [|exact Hturns].
        apply Forall_app. split; [exact Hturns|].
        constructor; [|constructor]. apply held_strip, Hcur. reflexivity.
      * intros c' [= <-]. apply held_fresh.
    + cbn [fst snd]. split; [exact Hturns|].
      intros c' [= <-].
      set (c0 := match cur with
                 | Some c => c
                 | None => mkTurn None 0 "" Unknown false None
                 end).
      assert (H0 : flags_held c0).
      { unfold c0. destruct cur as [c|]; [apply Hcur; reflexivity|].
        apply held_no_flags. reflexivity. }
      set (cont := if redact && nonempty (strip (rstrip_newline l))
                   then redact_pii (strip (rstrip_newline l))
                   else strip (rstrip_newline l)).
      set (c1 := if nonempty (text c0) && negb (endswith_newline (text c0))
                 then set_text c0 (text c0 ++ " ") else c0).
      assert (H1 : flags_held c1).
      { unfold c1.
        destruct (nonempty (text c0) && negb (endswith_newline (text c0)));
          [apply held_append|]; exact H0. }
      set (c3 := if nonempty cont && negb (ellipsis_match cont)
                 then set_is_elided (set_text c1 (text c1 ++ cont)) false
                 else set_text c1 (text c1 ++ cont)).
      assert (H3 : flags_held c3 /\ text c3 = text c1 ++ cont).
      { unfold c3. destruct (nonempty cont && negb (ellipsis_match cont));
          (split; [|reflexivity]);
          [apply held_elided|]; apply held_append; exact H1. }
      destruct H3 as [H3 Htext].
      exact (held_merge c3 (text c1) cont H3 Htext).
Qed.

Lemma parse_lines_held (lines : list string) :
  forall turns cur,
    Forall flags_held turns ->
    (forall c, cur = Some c -> flags_held c) ->
    Forall flags_held (parse_finish (parse_lines redact lines (turns, cur))).
Proof.
  induction lines as [|l lines IH]; intros turns cur Hturns Hcur.
  - simpl. destruct cur as [c|]; [|exact Hturns].
    apply Forall_app. split; [exact Hturns|].
    constructor; [|constructor]. apply held_strip, Hcur. reflexivity.
  - unfold parse_lines in *. cbn [fold_left].
    destruct (parse_line_held turns cur l Hturns Hcur) as [Ht Hc].
    destruct (parse_line redact (turns, cur) l) as [turns' cur'].
    apply IH; assumption.
Qed.

(** Every flag of every parsed Turn reports a value found in the text the
    Turn keeps. *)
Lemma parsed_flags_in_text (text0 : string) (tr : Turn) (fl : list pii_flag)
    (f : pii_flag) :
  In tr (parse_transcript text0 redact) ->
  pii_flags tr = Some fl -> In f fl ->
  contains (pii_value f) (text tr) = true.
Proof.
  intros Htr Hfl Hf.
  pose proof (parse_lines_held (splitlines text0) [] None (Forall_nil _)
                ltac:(discriminate)) as Hall.
  rewrite Forall_forall in Hall.
  apply occurs_contains. exact (proj2 (Hall tr Htr fl f Hfl Hf)).
Qed.

End FlagsInText.

(** The order of the two passes. With redaction enabled, the [pii_flags]
    of every Turn are what [detect_pii] finds in the redacted payloads of
    its lines (the remainder of the timestamp line and the continuation
    lines), absent when that is nothing, and every value recorded occurs
    in the text the Turn keeps; [has_pii] is false exactly when
    [detect_pii] finds nothing in any redacted payload. This says nothing
    of what [redact_pii] replaces: see the theorem below. *)
Lemma flags_scan_redacted_text (text0 : string) :
  map pii_flags (parse_transcript text0 true)
  = map (fun ps => flags_of (scan true ps)) (turn_pieces text0)
  /\ (forall tr fl f,
        In tr (parse_transcript text0 true) ->
        pii_flags tr = Some fl -> In f fl ->
        contains (pii_value f) (text tr) = true)
  /\ (has_pii (parse_transcript text0 true) = false
      <-> forall ps p, In ps (turn_pieces text0) -> In p ps ->
                       detect_pii (redact_pii p) = []).
Proof.
  assert (H : map pii_flags (parse_transcript text0 true)
              = map (fun ps => flags_of (scan true ps)) (turn_pieces text0)).
  { unfold parse_transcript, turn_pieces.
    apply (parse_lines_flags true (splitlines text0) [] None [] None);
      [reflexivity | exact I]. }
  split; [exact H|].
  split; [exact (parsed_flags_in_text true text0)|].
  rewrite has_pii_false, H, Forall_map, Forall_forall.
  split.
  - intros Hall ps p Hps Hp. apply (proj1 (scan_nil true ps) (Hall ps Hps) p Hp).
  - intros Hall ps Hps. apply scan_nil. intros p Hp. apply (Hall ps p Hps Hp).
Qed.


(* ------------------------------------------------------------------ *)
(** * Further properties of [make_chunks] *)

(** X1. [make_chunks] never raises: the two subscripts [usable[start_i]]
    and [usable[end_i]] are always in range (the latter also when nothing
    was packed and [end_i] is [start_i - 1], possibly -1). With any fuel the
    run either returns or is still looping. *)
Theorem make_chunks_never_raises (fuel : nat) (turns : list Turn) (include_intro : bool)
    (target_words overlap_turns : Z) :
  make_chunks fuel turns include_intro target_words overlap_turns = OutOfFuel
  \/ exists chunks,
      make_chunks fuel turns include_intro target_words overlap_turns = Returned chunks.
Proof.
  unfold make_chunks, make_chunks_traced.
  destruct (usable_turns include_intro turns) as [|u us] eqn:Eu.
  - right. eexists. reflexivity.
  - pose proof (chunk_loop_no_error (u :: us) target_words overlap_turns fuel 0 0 []
                  ltac:(lia)) as Hno.
    destruct (chunk_loop fuel (u :: us) target_words overlap_turns 0 0 []) as [cs| |].
    + right. eexists. reflexivity.
    + congruence.
    + left. reflexivity.
Qed.

Section TraceShape.
Variable usable : list Turn.
Variables target_words overlap_turns : Z.

Let n : Z := Z.of_nat (List.length usable).
Let trace := trace_from usable target_words overlap_turns.

(** The chunk ids count up from the id the loop was entered with. *)
Lemma trace_chunk_ids (i cid : Z) (more : list emitted) :
  trace i cid more -> 0 <= i ->
  map (fun c => Chunk.chunk_id (em_chunk c)) more
  = map (fun k => cid + Z.of_nat k) (seq 0 (List.length more)).
Proof.
  induction 1 as [|i cid c i' more Hlt Hstep Htr IH]; intros Hi; [reflexivity|].
  fold n in Hlt.
  destruct (trace_step_inv usable target_words overlap_turns i cid c i' ltac:(lia) Hstep)
    as [Hok ->].
  destruct Hok as (_ & Hrange & _ & _ & _ & _ & _ & Hid & _).
  cbn [List.length seq map]. rewrite Hid. f_equal; [lia|].
  rewrite IH by (pose proof (next_index_bounds overlap_turns i (em_stop_i c)); lia).
  rewrite <- seq_shift, map_map. apply map_ext. intros k. lia.
Qed.

(** On an advancing configuration there are at most as many chunks as
    indices left. *)
Lemma trace_length_bound (i cid : Z) (more : list emitted) :
  advancing target_words overlap_turns ->
  trace i cid more -> 0 <= i ->
  Z.of_nat (List.length more) <= Z.max 0 (n - i).
Proof.
  intros Hadv.
  induction 1 as [|i cid c i' more Hlt Hstep Htr IH]; intros Hi; [simpl; lia|].
  fold n in Hlt.
  destruct (trace_step_inv usable target_words overlap_turns i cid c i' ltac:(lia) Hstep)
    as [Hok ->].
  destruct Hok as (_ & Hrange & _ & _ & Hprog & _).
  pose proof (next_index_advances target_words overlap_turns i (em_stop_i c) Hadv) as Hn.
  specialize (IH ltac:(lia)). cbn [List.length]. lia.
Qed.

(** With a positive target every chunk holds a Turn, the next chunk starts
    inside or right after it, re-including at most [overlap_turns] Turns,
    and the chunks cover every index from the entry index on. *)
Lemma trace_cover (i cid : Z) (more : list emitted) :
  1 <= target_words ->
  trace i cid more -> 0 <= i ->
  Forall (fun c => em_start_i c < em_stop_i c <= n) more
  /\ linked (fun a b => em_start_i a < em_start_i b <= em_stop_i a
                        /\ em_stop_i a - em_start_i b <= Z.max overlap_turns 0) more
  /\ (forall c more', more = c :: more' -> em_start_i c = i)
  /\ (forall j, i <= j < n ->
        exists c, In c more /\ em_start_i c <= j < em_stop_i c).
Proof.
  intros Htw.
  induction 1 as [|i cid c i' more Hlt Hstep Htr IH]; intros Hi.
  - fold n in H. split; [constructor|]. split; [exact I|].
    split; [discriminate|]. intros j Hj. lia.
  - fold n in Hlt.
    destruct (trace_step_inv usable target_words overlap_turns i cid c i' ltac:(lia) Hstep)
      as [Hok ->].
    destruct Hok as (Hs & Hrange & _ & _ & Hprog & _).
    specialize (Hprog Htw). fold n in Hrange.
    assert (Hnext : i < next_index overlap_turns i (em_stop_i c) <= em_stop_i c
                    /\ em_stop_i c - next_index overlap_turns i (em_stop_i c)
                       <= Z.max overlap_turns 0).
    { unfold next_index. destruct (0 <? overlap_turns) eqn:E; lia. }
    destruct IH as (Hall & Hlink & Hhd & Hcov); [lia|].
    split; [|split; [|split]].
    + constructor; [lia | exact Hall].
    + destruct more as [|c' more]; [exact I|].
      pose proof (Hhd c' more eq_refl) as Hc'.
      change (linked ?R (c :: c' :: more)) with (R c c' /\ linked R (c' :: more)).
      split; [rewrite Hc', Hs; lia | exact Hlink].
    + intros c0 more0 [= <- <-]. exact Hs.
    + intros j Hj. destruct (Z_lt_le_dec j (em_stop_i c)) as [Hl|Hl].
      * exists c. split; [left; reflexivity | lia].
      * destruct (Hcov j ltac:(lia)) as (c' & Hin & Hc').
        exists c'. split; [right; exact Hin | exact Hc'].
Qed.

End TraceShape.

(** X2. With a positive target or a positive overlap, [make_chunks]
    returns (fuel for one iteration per usable Turn is enough) at most as
    many chunks as there are usable Turns; their [chunk_id]s are 0, 1, 2,
    ... in order, and their start indices grow strictly. *)
Theorem chunks_are_numbered (turns : list Turn) (include_intro : bool)
    (target_words overlap_turns : Z) :
  advancing target_words overlap_turns ->
  exists cs,
    (forall fuel,
        (List.length (usable_turns include_intro turns) <= fuel)%nat ->
        make_chunks_traced fuel turns include_intro target_words overlap_turns
        = Returned cs)
    /\ (List.length cs <= List.length (usable_turns include_intro turns))%nat
    /\ map Chunk.chunk_id (map em_chunk cs) = map Z.of_nat (seq 0 (List.length cs))
    /\ strictly_increasing (start_indices cs).
Proof.
  intros Hadv.
  destruct (make_chunks_traced_total turns include_intro target_words overlap_turns Hadv)
    as (cs & Hrun & Htr).
  exists cs. split; [exact Hrun|].
  pose proof (trace_length_bound _ _ _ 0 0 cs Hadv Htr ltac:(lia)) as Hlen.
  pose proof (trace_chunk_ids _ _ _ 0 0 cs Htr ltac:(lia)) as Hids.
  pose proof (trace_increasing _ _ _ 0 0 cs Hadv Htr ltac:(lia)) as [Hinc _].
  repeat split.
  - lia.
  - rewrite map_map, Hids. apply map_ext. intros k. lia.
  - exact Hinc.
Qed.

Lemma chunks_are_numbered_witness :
  advancing 10 1
  /\ exists cs,
      (forall fuel,
          (List.length (usable_turns false four_turns) <= fuel)%nat ->
          make_chunks_traced fuel four_turns false 10 1 = Returned cs)
      /\ (List.length cs <= List.length (usable_turns false four_turns))%nat
      /\ map Chunk.chunk_id (map em_chunk cs) = map Z.of_nat (seq 0 (List.length cs))
      /\ strictly_increasing (start_indices cs).
Proof.
  assert (Hadv : advancing 10 1) by (left; lia).
  split; [exact Hadv|].
  exact (chunks_are_numbered four_turns false 10 1 Hadv).
Defined.

(** X3. With a positive target no usable Turn is left out: the first chunk
    starts at the first usable Turn, every chunk holds at least one Turn,
    each next chunk starts inside or right after the previous one and
    re-includes at most max(overlap_turns, 0) of its Turns, and every index
    of the usable sequence lies in some chunk. *)
Theorem chunks_cover_usable (turns : list Turn) (include_intro : bool)
    (target_words overlap_turns : Z) :
  1 <= target_words ->
  let usable := usable_turns include_intro turns in
  exists cs,
    (forall fuel,
        (List.length usable <= fuel)%nat ->
        make_chunks_traced fuel turns include_intro target_words overlap_turns
        = Returned cs)
    /\ Forall (fun c => em_start_i c < em_stop_i c <= Z.of_nat (List.length usable)) cs
    /\ linked (fun a b => em_start_i a < em_start_i b <= em_stop_i a
                          /\ em_stop_i a - em_start_i b <= Z.max overlap_turns 0) cs
    /\ (forall c cs', cs = c :: cs' -> em_start_i c = 0)
    /\ (forall j, 0 <= j < Z.of_nat (List.length usable) ->
          exists c, In c cs /\ em_start_i c <= j < em_stop_i c).
Proof.
  intros Htw usable.
  destruct (make_chunks_traced_total turns include_intro target_words overlap_turns
              (or_introl Htw)) as (cs & Hrun & Htr).
  exists cs. split; [exact Hrun|].
  exact (trace_cover _ _ _ 0 0 cs Htw Htr ltac:(lia)).
Qed.

Lemma chunks_cover_usable_witness :
  1 <= 10
  /\ exists cs,
      (forall fuel,
          (List.length (usable_turns false dialogue) <= fuel)%nat ->
          make_chunks_traced fuel dialogue false 10 1 = Returned cs)
      /\ Forall (fun c => em_start_i c < em_stop_i c
                          <= Z.of_nat (List.length (usable_turns false dialogue))) cs
      /\ linked (fun a b => em_start_i a < em_start_i b <= em_stop_i a
                            /\ em_stop_i a - em_start_i b <= Z.max 1 0) cs
      /\ (forall c cs', cs = c :: cs' -> em_start_i c = 0)
      /\ (forall j, 0 <= j < Z.of_nat (List.length (usable_turns false dialogue)) ->
            exists c, In c cs /\ em_start_i c <= j < em_stop_i c).
Proof.
  assert (Htw : 1 <= 10) by lia.
  split; [exact Htw|].
  exact (chunks_cover_usable dialogue false 10 1 Htw).
Defined.

Section SliceFacts.
Context {A : Type}.

Lemma py_index_nonneg (l : list A) (k : Z) :
  0 <= k < Z.of_nat (List.length l) -> py_index l k = nth_error l (Z.to_nat k).
Proof.
  intros Hk. unfold py_index.
  replace ((0 <=? k) && (k <? Z.of_nat (List.length l))) with true; [reflexivity|].
  symmetry. apply andb_true_intro. split; [apply Z.leb_le | apply Z.ltb_lt]; lia.
Qed.

Lemma nth_error_slice (l : list A) (i k j : nat) :
  (j < k)%nat -> nth_error (firstn k (skipn i l)) j = nth_error l (i + j).
Proof.
  intros Hj. rewrite nth_error_firstn.
  replace (j <? k)%nat with true by (symmetry; apply Nat.ltb_lt; exact Hj).
  apply nth_error_skipn.
Qed.

Lemma last_nth_error (l : list A) (d : A) :
  l <> [] -> nth_error l (List.length l - 1) = Some (last l d).
Proof.
  induction l as [|a l IH]; [congruence|]. intros _.
  destruct l as [|b l]; [reflexivity|].
  specialize (IH ltac:(discriminate)).
  cbn [List.length] in *. replace (S (S (List.length l)) - 1)%nat
    with (S (S (List.length l) - 1)) by lia.
  exact IH.
Qed.

Lemma in_slice (l : list A) (i k : nat) (x : A) :
  In x (firstn k (skipn i l)) -> In x l.
Proof.
  intros H. rewrite <- (firstn_skipn i l). apply in_or_app. right.
  rewrite <- (firstn_skipn k (skipn i l)). apply in_or_app. left. exact H.
Qed.

Lemma slice_length (l : list A) (i k : nat) :
  (i + k <= List.length l)%nat -> List.length (firstn k (skipn i l)) = k.
Proof. intros H. rewrite length_firstn, length_skipn. lia. Qed.

End SliceFacts.

Section SpeakerFacts.

(** The speakers the inner loop collects are those of the Turns it took. *)
Lemma pack_speakers (tw : Z) (rest : list Turn) :
  forall st,
    pk_i st <= pk_i (pack tw rest st)
    /\ pk_speakers (pack tw rest st)
       = fold_left (fun acc tr => set_add (speaker_label tr) acc)
           (firstn (Z.to_nat (pk_i (pack tw rest st) - pk_i st)) rest)
           (pk_speakers st).
Proof.
  induction rest as [|tr rest IH]; intros st.
  - simpl. split; [lia|]. rewrite firstn_nil. reflexivity.
  - simpl pack. destruct (pk_words st <? tw).
    + destruct (IH (mkPack (pk_words st + word_count (text tr))
                           (pk_buf_parts st ++ [render_turn tr])
                           (set_add (speaker_label tr) (pk_speakers st))
                           (pk_i st + 1))) as [Hle Hsp].
      cbn [pk_i pk_speakers] in Hle, Hsp. split; [lia|].
      rewrite Hsp.
      match goal with
      | |- context [Z.to_nat (?a - pk_i st)] =>
          replace (Z.to_nat (a - pk_i st)) with (S (Z.to_nat (a - (pk_i st + 1)))) by lia
      end.
      reflexivity.
    + split; [lia|]. rewrite Z.sub_diag. reflexivity.
Qed.

Lemma chunk_step_speakers (usable : list Turn) (tw ov i cid : Z) (c : emitted) (i' : Z) :
  chunk_step usable tw ov i cid = Some (c, i') ->
  Chunk.speakers (em_chunk c) = sorted (labels_of (contributing usable c)).
Proof.
  unfold chunk_step.
  destruct (py_index usable i) as [first|]; [|discriminate].
  destruct (py_index usable _) as [last|]; [|discriminate].
  intros [= <- _]. unfold contributing, labels_of.
  cbn [em_chunk em_start_i em_stop_i Chunk.speakers].
  destruct (pack_speakers tw (skipn (Z.to_nat i) usable) (mkPack 0 [] [] i)) as [_ Hsp].
  cbn [pk_i pk_speakers] in Hsp. rewrite Hsp. reflexivity.
Qed.

Lemma set_add_in (x y : string) (l : list string) :
  In x (set_add y l) <-> x = y \/ In x l.
Proof.
  unfold set_add. destruct (existsb (String.eqb y) l) eqn:E.
  - split; [tauto|]. intros [->|H]; [|exact H].
    apply existsb_exists in E as (z & Hz & Ez). apply String.eqb_eq in Ez. subst z. exact Hz.
  - rewrite in_app_iff. simpl. split.
    + intros [H|[H|[]]]; [right; exact H | left; symmetry; exact H].
    + intros [->|H]; [right; left; reflexivity | left; exact H].
Qed.

Lemma set_add_nodup (y : string) (l : list string) : NoDup l -> NoDup (set_add y l).
Proof.
  intros Hl. unfold set_add. destruct (existsb (String.eqb y) l) eqn:E; [exact Hl|].
  apply NoDup_app; [exact Hl | repeat constructor; intros [] | ].
  intros x Hx [Ex|[]]. subst x.
  assert (existsb (String.eqb y) l = true); [|congruence].
  apply existsb_exists. exists y. split; [exact Hx | apply String.eqb_refl].
Qed.

Lemma fold_set_add (trs : list Turn) :
  forall acc,
    NoDup acc ->
    NoDup (fold_left (fun acc tr => set_add (speaker_label tr) acc) trs acc)
    /\ forall x,
        In x (fold_left (fun acc tr => set_add (speaker_label tr) acc) trs acc)
        <-> In x acc \/ exists tr, In tr trs /\ speaker_label tr = x.
Proof.
  induction trs as [|tr trs IH]; intros acc Hacc; simpl.
  - split; [exact Hacc|]. intros x. split; [tauto|]. intros [H|(tr & [] & _)]. exact H.
  - destruct (IH (set_add (speaker_label tr) acc) (set_add_nodup _ _ Hacc)) as [Hnd Hin].
    split; [exact Hnd|]. intros x. rewrite Hin, set_add_in. split.
    + intros [[->|H]|(tr' & Htr' & E)].
      * right. exists tr. split; [left; reflexivity | reflexivity].
      * left. exact H.
      * right. exists tr'. split; [right; exact Htr' | exact E].
    + intros [H|(tr' & [<-|Htr'] & E)].
      * left. right. exact H.
      * left. left. symmetry. exact E.
      * right. exists tr'. split; assumption.
Qed.

Lemma insert_sorted_in (x y : string) (l : list string) :
  In x (insert_sorted y l) <-> x = y \/ In x l.
Proof.
  induction l as [|z l IH]; simpl; [intuition congruence|].
  destruct (String.leb y z); simpl; [intuition congruence|].
  rewrite IH. intuition congruence.
Qed.

Lemma insert_sorted_nodup (y : string) (l : list string) :
  ~ In y l -> NoDup l -> NoDup (insert_sorted y l).
Proof.
  induction l as [|z l IH]; intros Hy Hl; simpl.
  - constructor; [intros [] | constructor].
  - destruct (String.leb y z); [constructor; assumption|].
    inversion Hl as [|? ? Hz Hl']; subst.
    constructor.
    + rewrite insert_sorted_in. intros [->|H]; [apply Hy; left; reflexivity | exact (Hz H)].
    + apply IH; [intros H; apply Hy; right; exact H | exact Hl'].
Qed.

Lemma insert_sorted_sorted (y : string) (l : list string) :
  Sorted leb_string l -> Sorted leb_string (insert_sorted y l).
Proof.
  induction l as [|z l IH]; intros Hl; simpl.
  - repeat constructor.
  - destruct (String.leb y z) eqn:E.
    + constructor; [exact Hl | constructor; exact E].
    + inversion Hl as [|? ? Hl' Hhd]; subst.
      constructor; [apply IH; exact Hl'|].
      assert (Hzy : leb_string z y).
      { destruct (String.leb_total y z) as [H|H]; [congruence | exact H]. }
      destruct l as [|w l]; simpl.
      * constructor. exact Hzy.
      * destruct (String.leb y w); constructor; [exact Hzy|].
        inversion Hhd; subst. assumption.
Qed.

(** [sorted] orders a duplicate-free list and keeps its elements. *)
Lemma sorted_spec (l : list string) :
  NoDup l ->
  Sorted leb_string (sorted l) /\ NoDup (sorted l)
  /\ forall x, In x (sorted l) <-> In x l.
Proof.
  unfold sorted. induction l as [|y l IH]; intros Hl; simpl.
  - repeat split; try constructor; tauto.
  - inversion Hl as [|? ? Hy Hl']; subst.
    destruct (IH Hl') as (Hs & Hnd & Hin).
    split; [apply insert_sorted_sorted; exact Hs|].
    split.
    + apply insert_sorted_nodup; [rewrite Hin; exact Hy | exact Hnd].
    + intros x. rewrite insert_sorted_in, Hin. intuition congruence.
Qed.

End SpeakerFacts.

(** The Turns a chunk was packed from are usable Turns. *)
Lemma contributing_usable (include_intro : bool) (turns : list Turn) (c : emitted)
    (tr : Turn) :
  In tr (contributing (usable_turns include_intro turns) c) ->
  In tr turns /\ is_usable include_intro tr = true.
Proof.
  unfold contributing, usable_turns. intros H.
  apply in_slice in H. apply filter_In in H. exact H.
Qed.

(** X4. With a positive target every chunk [make_chunks] returns describes
    a non-empty run of usable Turns (Turns of an allowed section, not
    elided, with text): its [text] is the stripped join of their rendered
    lines, [t_start] and [t_end] are the times of the first and the last of
    them, and [speakers] lists their speaker labels in ascending order,
    each once. *)
Theorem chunk_describes_its_turns (turns : list Turn) (include_intro : bool)
    (target_words overlap_turns : Z) :
  1 <= target_words ->
  let usable := usable_turns include_intro turns in
  exists cs,
    (forall fuel,
        (List.length usable <= fuel)%nat ->
        make_chunks_traced fuel turns include_intro target_words overlap_turns
        = Returned cs)
    /\ forall c, In c cs ->
         let run := contributing usable c in
         run <> []
         /\ (forall tr, In tr run -> In tr turns /\ is_usable include_intro tr = true)
         /\ Chunk.text (em_chunk c) = strip (join NL (map render_turn run))
         /\ hd_error (map t run) = Some (Chunk.t_start (em_chunk c))
         /\ last (map t run) 0 = Chunk.t_end (em_chunk c)
         /\ Sorted leb_string (Chunk.speakers (em_chunk c))
         /\ NoDup (Chunk.speakers (em_chunk c))
         /\ (forall s, In s (Chunk.speakers (em_chunk c))
                       <-> exists tr, In tr run /\ speaker_label tr = s).
Proof.
  intros Htw usable.
  destruct (make_chunks_traced_total turns include_intro target_words overlap_turns
              (or_introl Htw)) as (cs & Hrun & Htr).
  fold usable in Hrun, Htr. exists cs. split; [exact Hrun|].
  assert (Hsteps : forall i cid more,
             trace_from usable target_words overlap_turns i cid more -> 0 <= i ->
             Forall (fun c => exists i' cid' nxt,
                         0 <= i' < Z.of_nat (List.length usable)
                         /\ chunk_step usable target_words overlap_turns i' cid'
                            = Some (c, nxt)) more).
  { induction 1 as [|i cid c i' more Hlt Hstep Htr' IH]; intros Hi; [constructor|].
    destruct (trace_step_inv usable target_words overlap_turns i cid c i' ltac:(lia) Hstep)
      as [Hok ->].
    constructor; [exists i, cid; eexists; split; [lia | exact Hstep]|].
    apply IH. destruct Hok as (_ & Hrange & _).
    pose proof (next_index_bounds overlap_turns i (em_stop_i c)). lia. }
  specialize (Hsteps 0 0 cs Htr ltac:(lia)). rewrite Forall_forall in Hsteps.
  intros c Hc run. destruct (Hsteps c Hc) as (i & cid & nxt & Hi & Hstep).
  pose proof (chunk_step_speakers usable target_words overlap_turns i cid c nxt Hstep)
    as Hsp.
  destruct (trace_step_inv usable target_words overlap_turns i cid c nxt Hi Hstep)
    as [Hok _].
  destruct Hok as (Hs & Hrange & _ & _ & Hprog & _ & _ & _ & Htext
                   & (first & Hfirst & Hts) & (lst & Hlast & Hte)).
  specialize (Hprog Htw).
  set (k := Z.to_nat (em_stop_i c - em_start_i c)).
  assert (Hk : (1 <= k)%nat /\ (Z.to_nat i + k <= List.length usable)%nat) by (unfold k; lia).
  assert (Hlen : List.length run = k).
  { unfold run, contributing. fold k. rewrite Hs. apply slice_length. lia. }
  assert (Hne : run <> []).
  { intros E. rewrite E in Hlen. simpl in Hlen. lia. }
  assert (Hnth : forall j, (j < k)%nat -> nth_error run j = nth_error usable (Z.to_nat i + j)).
  { intros j Hj. unfold run, contributing. fold k. rewrite Hs.
    apply nth_error_slice. exact Hj. }
  split; [exact Hne|].
  split; [intros tr Hin; exact (contributing_usable include_intro turns c tr Hin)|].
  split; [exact Htext|].
  split.
  - rewrite py_index_nonneg in Hfirst by lia.
    pose proof (Hnth 0%nat ltac:(lia)) as H0. rewrite Nat.add_0_r, Hfirst in H0.
    destruct run as [|r run']; [discriminate|].
    simpl in H0. injection H0 as ->. simpl. rewrite Hts. reflexivity.
  - split.
    + rewrite py_index_nonneg in Hlast by lia.
      pose proof (Hnth (k - 1)%nat ltac:(lia)) as Hl.
      replace (Z.to_nat i + (k - 1))%nat with (Z.to_nat (em_stop_i c - 1)) in Hl
        by (unfold k; lia).
      rewrite Hlast in Hl.
      assert (Hm : nth_error (map t run) (List.length (map t run) - 1) = Some (t lst)).
      { rewrite length_map, Hlen. rewrite nth_error_map, Hl. reflexivity. }
      rewrite (last_nth_error (map t run) 0) in Hm
        by (destruct run; [congruence | discriminate]).
      injection Hm as ->. symmetry. exact Hte.
    + rewrite Hsp. unfold labels_of. fold run.
      destruct (fold_set_add run [] (NoDup_nil _)) as [Hnd Hin].
      destruct (sorted_spec _ Hnd) as (Hsorted & Hnd' & Hin').
      split; [exact Hsorted|]. split; [exact Hnd'|].
      intros s. rewrite Hin', Hin. split; [intros [[]|H]; exact H | intros H; right; exact H].
Qed.

Lemma chunk_describes_its_turns_witness :
  1 <= 10
  /\ exists cs,
      (forall fuel,
          (List.length (usable_turns false dialogue) <= fuel)%nat ->
          make_chunks_traced fuel dialogue false 10 1 = Returned cs)
      /\ forall c, In c cs ->
           let run := contributing (usable_turns false dialogue) c in
           run <> []
           /\ (forall tr, In tr run -> In tr dialogue /\ is_usable false tr = true)
           /\ Chunk.text (em_chunk c) = strip (join NL (map render_turn run))
           /\ hd_error (map t run) = Some (Chunk.t_start (em_chunk c))
           /\ last (map t run) 0 = Chunk.t_end (em_chunk c)
           /\ Sorted leb_string (Chunk.speakers (em_chunk c))
           /\ NoDup (Chunk.speakers (em_chunk c))
           /\ (forall s, In s (Chunk.speakers (em_chunk c))
                         <-> exists tr, In tr run /\ speaker_label tr = s).
Proof.
  assert (Htw : 1 <= 10) by lia.
  split; [exact Htw|].
  exact (chunk_describes_its_turns dialogue false 10 1 Htw).
Defined.

(** With a target that is not positive nothing is packed: every iteration
    appends an empty chunk, and a positive overlap moves one index on. *)
Lemma trace_empty_chunks (usable : list Turn) (tw ov i cid : Z) (more : list emitted) :
  tw <= 0 -> 1 <= ov ->
  trace_from usable tw ov i cid more -> 0 <= i ->
  Z.of_nat (List.length more) = Z.max 0 (Z.of_nat (List.length usable) - i)
  /\ Forall (fun c => em_stop_i c = em_start_i c
                      /\ Chunk.text (em_chunk c) = ""
                      /\ Chunk.speakers (em_chunk c) = []
                      /\ exists prev,
                          py_index usable (em_start_i c - 1) = Some prev
                          /\ Chunk.t_end (em_chunk c) = t prev) more.
Proof.
  intros Htw Hov.
  induction 1 as [|i cid c i' more Hlt Hstep Htr IH]; intros Hi.
  - split; [simpl; lia | constructor].
  - pose proof (chunk_step_speakers usable tw ov i cid c i' Hstep) as Hsp.
    destruct (trace_step_inv usable tw ov i cid c i' ltac:(lia) Hstep) as [Hok ->].
    destruct Hok as (Hs & Hrange & _ & _ & _ & Hmin & _ & _ & Htext & _ & Hend).
    assert (Hstop : em_stop_i c = i).
    { destruct (Z.eq_dec (em_stop_i c) i) as [E|E]; [exact E|].
      specialize (Hmin ltac:(lia)).
      pose proof (total_words_nonneg
                    (firstn (Z.to_nat (em_stop_i c - i - 1))
                            (skipn (Z.to_nat i) usable))). lia. }
    assert (Hrun : contributing usable c = []).
    { unfold contributing. rewrite Hs, Hstop, Z.sub_diag. reflexivity. }
    rewrite Hrun in Htext, Hsp. rewrite Hstop in *.
    assert (Hnext : next_index ov i i = i + 1).
    { unfold next_index. destruct (0 <? ov) eqn:E; lia. }
    rewrite Hnext in *. destruct IH as [Hlen Hall]; [lia|].
    split; [cbn [List.length]; lia|].
    constructor; [|exact Hall].
    rewrite Hs. repeat split; try assumption. 
Qed.

(** X5. With a target word count that is not positive and a positive
    overlap, [make_chunks] returns one chunk per usable Turn and every one
    is empty: no text, no speakers, nothing packed; its [t_end] is the time
    of the Turn before its start index, which for the first chunk is the
    last usable Turn (the subscript -1). *)
Theorem zero_target_empty_chunks (turns : list Turn) (include_intro : bool)
    (target_words overlap_turns : Z) :
  target_words <= 0 -> 1 <= overlap_turns ->
  let usable := usable_turns include_intro turns in
  exists cs,
    (forall fuel,
        (List.length usable <= fuel)%nat ->
        make_chunks_traced fuel turns include_intro target_words overlap_turns
        = Returned cs)
    /\ List.length cs = List.length usable
    /\ forall c, In c cs ->
         em_stop_i c = em_start_i c
         /\ Chunk.text (em_chunk c) = ""
         /\ Chunk.speakers (em_chunk c) = []
         /\ exists prev,
             py_index usable (em_start_i c - 1) = Some prev
             /\ Chunk.t_end (em_chunk c) = t prev.
Proof.
  intros Htw Hov usable.
  destruct (make_chunks_traced_total turns include_intro target_words overlap_turns
              (or_intror Hov)) as (cs & Hrun & Htr).
  fold usable in Hrun, Htr. exists cs. split; [exact Hrun|].
  destruct (trace_empty_chunks usable target_words overlap_turns 0 0 cs Htw Hov Htr
              ltac:(lia)) as [Hlen Hall].
  split; [lia|]. rewrite Forall_forall in Hall. exact Hall.
Qed.

Lemma zero_target_empty_chunks_witness :
  0 <= 0 /\ 1 <= 1
  /\ exists cs,
      (forall fuel,
          (List.length (usable_turns false dialogue) <= fuel)%nat ->
          make_chunks_traced fuel dialogue false 0 1 = Returned cs)
      /\ List.length cs = List.length (usable_turns false dialogue)
      /\ forall c, In c cs ->
           em_stop_i c = em_start_i c
           /\ Chunk.text (em_chunk c) = ""
           /\ Chunk.speakers (em_chunk c) = []
           /\ exists prev,
               py_index (usable_turns false dialogue) (em_start_i c - 1) = Some prev
               /\ Chunk.t_end (em_chunk c) = t prev.
Proof.
  assert (Htw : 0 <= 0) by lia. assert (Hov : 1 <= 1) by lia.
  split; [exact Htw|]. split; [exact Hov|].
  exact (zero_target_empty_chunks dialogue false 0 1 Htw Hov).
Defined.

(* ------------------------------------------------------------------ *)
(** * Further properties of [label_sections] *)

Section LabelInvariant.
(** A property [P] of the Turns to label, an invariant [Inv] of the loop
    (over the relabelled prefix and the state) and a property [Q] of each
    relabelled Turn with the prefix before it. *)
Variable P : Turn -> Prop.
Variable Inv : list Turn -> label_state -> Prop.
Variable Q : list Turn -> Turn -> Prop.

Hypothesis Hstep :
  forall before st tr st' l,
    P tr -> Inv before st ->
    label_turn (List.length before) before st tr = (st', l) ->
    Q before (set_section_type tr l)
    /\ Inv (before ++ [set_section_type tr l]) st'.

Lemma label_loop_pointwise (rest : list Turn) :
  forall before st,
    Forall P rest -> Inv before st ->
    exists tail,
      label_loop before st rest = (before ++ tail)%list
      /\ map unlabelled tail = map unlabelled rest
      /\ forall j tj, nth_error tail j = Some tj -> Q (before ++ firstn j tail) tj.
Proof.
  induction rest as [|tr rest IH]; intros before st HP Hinv.
  - exists []. simpl. rewrite app_nil_r. repeat split.
    intros j tj Hj. destruct j; discriminate.
  - inversion HP as [|? ? Htr Hrest]; subst. simpl label_loop.
    destruct (label_turn (List.length before) before st tr) as [st' l] eqn:El.
    destruct (Hstep before st tr st' l Htr Hinv El) as [HQ Hinv'].
    destruct (IH (before ++ [set_section_type tr l])%list st' Hrest Hinv')
      as (tail & Hrun & Hraw & Hpt).
    exists (set_section_type tr l :: tail). repeat split.
    + rewrite Hrun, <- app_assoc. reflexivity.
    + simpl. rewrite Hraw. reflexivity.
    + intros j tj Hj. destruct j as [|j].
      * simpl in Hj. injection Hj as <-. simpl. rewrite app_nil_r. exact HQ.
      * simpl in Hj. specialize (Hpt j tj Hj).
        rewrite <- app_assoc in Hpt. exact Hpt.
Qed.

Lemma label_sections_pointwise (turns : list Turn) :
  Forall P turns -> Inv [] label_init ->
  map unlabelled (label_sections turns) = map unlabelled turns
  /\ forall j tj,
      nth_error (label_sections turns) j = Some tj ->
      Q (firstn j (label_sections turns)) tj.
Proof.
  intros HP Hinv. destruct turns as [|tr turns].
  - split; [reflexivity|]. intros j tj Hj. destruct j; discriminate.
  - unfold label_sections.
    destruct (label_loop_pointwise (tr :: turns) [] label_init HP Hinv)
      as (tail & Hrun & Hraw & Hpt).
    fold label_init. rewrite Hrun. simpl app in *. split; assumption.
Qed.

End LabelInvariant.

Lemma has_sponsor_app (l1 l2 : list Turn) :
  has_sponsor (l1 ++ l2) = has_sponsor l1 || has_sponsor l2.
Proof. unfold has_sponsor. apply existsb_app. Qed.

(** One iteration: the label is never [unknown]; [conversation] needs a
    sponsor label before, [intro] the absence of one. *)
Lemma label_turn_order (before : list Turn) (st st' : label_state) (tr : Turn)
    (l : section) :
  (sponsor_mode st = true -> has_sponsor before = true) ->
  label_turn (List.length before) before st tr = (st', l) ->
  (l <> Unknown
   /\ (l = Conversation -> has_sponsor before = true)
   /\ (l = Intro -> has_sponsor before = false))
  /\ (sponsor_mode st' = true -> has_sponsor (before ++ [set_section_type tr l]) = true).
Proof.
  intros Hinv. unfold label_turn.
  assert (Hlast : forall l0, has_sponsor (before ++ [set_section_type tr l0])
                             = has_sponsor before || section_eqb l0 Sponsor).
  { intros l0. rewrite has_sponsor_app. unfold has_sponsor at 2. simpl.
    rewrite orb_false_r. reflexivity. }
  fold (has_sponsor before).
  destruct (outro_mode st) eqn:Eo.
  { intros [= <- <-]. rewrite Hlast.
    repeat split; try discriminate. intros H. rewrite (Hinv H). reflexivity. }
  destruct (any_in OUTRO_MARKERS (lower (text tr))).
  { intros [= <- <-]. rewrite Hlast. cbn [sponsor_mode].
    repeat split; try discriminate. intros H. rewrite (Hinv H). reflexivity. }
  destruct (sponsor_mode st) eqn:Es; cbn [negb andb].
  - specialize (Hinv eq_refl).
    destruct (any_in SPONSOR_TRANSITION (lower (text tr))).
    { intros [= <- <-]. cbn [sponsor_mode]. repeat split; try discriminate.
      intros _. exact Hinv. }
    destruct (match sponsor_start_t st with
              | Some t0 => 8 * 60 <? t tr - t0
              | None => false
              end).
    { intros [= <- <-]. cbn [sponsor_mode]. repeat split; try discriminate.
      intros _. exact Hinv. }
    intros [= <- <-]. rewrite Hlast, Hinv. repeat split; try discriminate.
  - destruct (any_in SPONSOR_START (lower (text tr))).
    { intros [= <- <-]. rewrite Hlast. cbn [sponsor_mode section_eqb].
      repeat split; try discriminate. intros _. apply orb_true_r. }
    destruct (List.length before =? 0)%nat eqn:E0.
    { intros [= <- <-]. rewrite Es. repeat split; try discriminate.
      intros _. apply Nat.eqb_eq in E0. destruct before; [reflexivity | discriminate]. }
    destruct (has_sponsor before) eqn:Eh; intros [= <- <-]; rewrite Es;
      repeat split; try discriminate; reflexivity.
Qed.

(** X6. [label_sections] changes nothing but the labels: the list keeps its
    length and every Turn its speaker, time, text, elision mark and flags;
    and every Turn gets one of the four section labels. *)
Theorem label_sections_only_relabels (turns : list Turn) :
  map unlabelled (label_sections turns) = map unlabelled turns
  /\ List.length (label_sections turns) = List.length turns
  /\ Forall (fun tr => section_type tr <> Unknown) (label_sections turns).
Proof.
  destruct (label_sections_pointwise (fun _ => True)
              (fun before st => sponsor_mode st = true -> has_sponsor before = true)
              (fun _ tj => section_type tj <> Unknown)) with (turns := turns)
    as [Hraw Hpt].
  - intros before st tr st' l _ Hinv El.
    destruct (label_turn_order before st st' tr l Hinv El) as [(Hl & _) Hinv'].
    split; [exact Hl | exact Hinv'].
  - apply Forall_forall. intros; exact I.
  - discriminate.
  - split; [exact Hraw|]. split; [apply label_sections_length|].
    apply Forall_forall. intros tr Htr.
    apply In_nth_error in Htr as [j Hj]. exact (Hpt j tr Hj).
Qed.

(** X7. After [label_sections], a Turn is labelled [conversation] only when
    some earlier Turn is labelled [sponsor], and [intro] only when no
    earlier Turn is; so the first Turn is never [conversation]. *)
Theorem conversation_follows_sponsor (turns : list Turn) (j : nat) (tj : Turn) :
  nth_error (label_sections turns) j = Some tj ->
  (section_type tj = Conversation ->
   has_sponsor (firstn j (label_sections turns)) = true)
  /\ (section_type tj = Intro ->
      has_sponsor (firstn j (label_sections turns)) = false)
  /\ (j = 0%nat -> section_type tj <> Conversation).
Proof.
  intros Hj.
  destruct (label_sections_pointwise (fun _ => True)
              (fun before st => sponsor_mode st = true -> has_sponsor before = true)
              (fun before tj =>
                 (section_type tj = Conversation -> has_sponsor before = true)
                 /\ (section_type tj = Intro -> has_sponsor before = false)))
    with (turns := turns) as [_ Hpt].
  - intros before st tr st' l _ Hinv El.
    destruct (label_turn_order before st st' tr l Hinv El) as [(_ & Hc & Hi) Hinv'].
    split; [split; assumption | exact Hinv'].
  - apply Forall_forall. intros; exact I.
  - discriminate.
  - destruct (Hpt j tj Hj) as [Hc Hi]. split; [exact Hc|]. split; [exact Hi|].
    intros -> E. specialize (Hc E). discriminate.
Qed.

Lemma conversation_follows_sponsor_witness :
  nth_error (label_sections sponsor_break) 3
  = Some (set_section_type (raw_turn 600 "Anvils for everyone.") Conversation)
  /\ (section_type (set_section_type (raw_turn 600 "Anvils for everyone.") Conversation)
      = Conversation ->
      has_sponsor (firstn 3 (label_sections sponsor_break)) = true)
  /\ (section_type (set_section_type (raw_turn 600 "Anvils for everyone.") Conversation)
      = Intro ->
      has_sponsor (firstn 3 (label_sections sponsor_break)) = false)
  /\ (3%nat = 0%nat ->
      section_type (set_section_type (raw_turn 600 "Anvils for everyone.") Conversation)
      <> Conversation).
Proof.
  assert (H : nth_error (label_sections sponsor_break) 3
              = Some (set_section_type (raw_turn 600 "Anvils for everyone.") Conversation))
    by (vm_compute; reflexivity).
  split; [exact H|].
  exact (conversation_follows_sponsor sponsor_break 3 _ H).
Defined.

(** Without a sponsor-start phrase an iteration outside sponsor mode stays
    outside it and labels [intro] or [outro]. *)
Lemma label_turn_plain (before : list Turn) (st st' : label_state) (tr : Turn)
    (l : section) :
  opens_sponsor tr = false ->
  sponsor_mode st = false /\ has_sponsor before = false ->
  label_turn (List.length before) before st tr = (st', l) ->
  (l = Intro \/ l = Outro)
  /\ (sponsor_mode st' = false /\ has_sponsor (before ++ [set_section_type tr l]) = false).
Proof.
  unfold opens_sponsor. intros Hno [Hmode Hnone]. unfold label_turn.
  fold (has_sponsor before). rewrite Hmode, Hno, Hnone. cbn [negb andb].
  assert (Hlast : forall l0, l0 <> Sponsor ->
                             has_sponsor (before ++ [set_section_type tr l0]) = false).
  { intros l0 Hl0. rewrite has_sponsor_app, Hnone. unfold has_sponsor. simpl.
    destruct l0; try reflexivity. congruence. }
  destruct (outro_mode st), (any_in OUTRO_MARKERS (lower (text tr))),
    (List.length before =? 0)%nat;
    intros [= <- <-];
    (split;
     [first [left; reflexivity | right; reflexivity]
     | split; [first [exact Hmode | reflexivity] | apply Hlast; discriminate]]).
Qed.

(** X8. When no Turn holds a sponsor-start phrase, [label_sections] labels
    every Turn [intro] or [outro], and [make_chunks] without
    [include_intro] returns no chunk, whatever the fuel and the rest of the
    configuration. *)
Theorem no_sponsor_no_chunks (turns : list Turn) :
  Forall (fun tr => opens_sponsor tr = false) turns ->
  Forall (fun tr => section_type tr = Intro \/ section_type tr = Outro)
         (label_sections turns)
  /\ forall fuel target_words overlap_turns,
      make_chunks fuel (label_sections turns) false target_words overlap_turns
      = Returned [].
Proof.
  intros Hno.
  destruct (label_sections_pointwise (fun tr => opens_sponsor tr = false)
              (fun before st => sponsor_mode st = false /\ has_sponsor before = false)
              (fun _ tj => section_type tj = Intro \/ section_type tj = Outro))
    with (turns := turns) as [_ Hpt].
  - intros before st tr st' l Htr Hinv El.
    exact (label_turn_plain before st st' tr l Htr Hinv El).
  - exact Hno.
  - split; reflexivity.
  - assert (Hall : Forall (fun tr => section_type tr = Intro \/ section_type tr = Outro)
                          (label_sections turns)).
    { apply Forall_forall. intros tr Htr.
      apply In_nth_error in Htr as [j Hj]. exact (Hpt j tr Hj). }
    split; [exact Hall|].
    intros fuel tw ov. unfold make_chunks, make_chunks_traced.
    replace (usable_turns false (label_sections turns)) with (@nil Turn); [reflexivity|].
    symmetry. unfold usable_turns. clear Hpt.
    induction Hall as [|tr l Htr Hl IH]; [reflexivity|].
    cbn [filter]. rewrite IH.
    assert (E : is_usable false tr = false)
      by (unfold is_usable, allowed; destruct Htr as [-> | ->]; reflexivity).
    rewrite E. reflexivity.
Qed.

Lemma no_sponsor_no_chunks_witness :
  Forall (fun tr => opens_sponsor tr = false) farewell_turns
  /\ Forall (fun tr => section_type tr = Intro \/ section_type tr = Outro)
            (label_sections farewell_turns)
  /\ forall fuel target_words overlap_turns,
      make_chunks fuel (label_sections farewell_turns) false target_words overlap_turns
      = Returned [].
Proof.
  assert (H : Forall (fun tr => opens_sponsor tr = false) farewell_turns)
    by (repeat constructor).
  split; [exact H|].
  exact (no_sponsor_no_chunks farewell_turns H).
Defined.

(** One iteration keeps the opener of the sponsor segment known, and a
    [sponsor] label is given to the opener itself or within eight minutes
    of it. *)
Lemma label_turn_anchor (before : list Turn) (st st' : label_state) (tr : Turn)
    (l : section) :
  sponsor_anchor before st ->
  label_turn (List.length before) before st tr = (st', l) ->
  (l = Sponsor ->
   opens_sponsor tr = true
   \/ exists opener,
       In opener before /\ section_type opener = Sponsor
       /\ opens_sponsor opener = true /\ t tr - t opener <= 8 * 60)
  /\ sponsor_anchor (before ++ [set_section_type tr l]) st'.
Proof.
  intros Hanchor. unfold label_turn.
  assert (Hkeep : forall l0 st0,
             sponsor_mode st0 = sponsor_mode st ->
             sponsor_start_t st0 = sponsor_start_t st ->
             sponsor_anchor (before ++ [set_section_type tr l0]) st0).
  { intros l0 st0 Em Et Hm. rewrite Em in Hm.
    destruct (Hanchor Hm) as (t0 & op & Hs & Hin & Hrest).
    exists t0, op. rewrite Et. split; [exact Hs|].
    split; [apply in_or_app; left; exact Hin | exact Hrest]. }
  destruct (outro_mode st).
  { intros [= <- <-]. split; [discriminate | apply Hkeep; reflexivity]. }
  destruct (any_in OUTRO_MARKERS (lower (text tr))).
  { intros [= <- <-]. split; [discriminate | apply Hkeep; reflexivity]. }
  destruct (sponsor_mode st) eqn:Es; cbn [negb andb].
  - destruct (Hanchor Es) as (t0 & op & Hs & Hin & Hlab & Hopen & Ht).
    destruct (any_in SPONSOR_TRANSITION (lower (text tr))).
    { intros [= <- <-]. split; [discriminate | intros Hm; discriminate Hm]. }
    rewrite Hs. destruct (8 * 60 <? t tr - t0) eqn:E.
    { intros [= <- <-]. split; [discriminate | intros Hm; discriminate Hm]. }
    intros [= <- <-]. split.
    + intros _. right. exists op. apply Z.ltb_ge in E.
      repeat split; try assumption. rewrite Ht. exact E.
    + apply Hkeep; [exact Es | reflexivity].
  - fold (opens_sponsor tr). destruct (opens_sponsor tr) eqn:Eopen.
    { intros [= <- <-]. split; [intros _; left; reflexivity|].
      intros _. exists (t tr), (set_section_type tr Sponsor).
      repeat split; [apply in_or_app; right; left; reflexivity | exact Eopen]. }
    destruct (List.length before =? 0)%nat.
    { intros [= <- <-]. split; [discriminate|]. intros Hm. rewrite Es in Hm. discriminate. }
    destruct (existsb _ before); intros [= <- <-];
      (split; [discriminate|]); intros Hm; rewrite Es in Hm; discriminate.
Qed.

(** X9. After [label_sections], a Turn labelled [sponsor] either holds a
    sponsor-start phrase itself or comes at most 480 seconds after an
    earlier Turn that is labelled [sponsor] and holds one: a sponsor
    segment does not run on beyond eight minutes from its opener. *)
Theorem sponsor_within_eight_minutes (turns : list Turn) (j : nat) (tj : Turn) :
  nth_error (label_sections turns) j = Some tj ->
  section_type tj = Sponsor ->
  opens_sponsor tj = true
  \/ exists opener,
      In opener (firstn j (label_sections turns))
      /\ section_type opener = Sponsor
      /\ opens_sponsor opener = true
      /\ t tj - t opener <= 480.
Proof.
  intros Hj Hlab.
  destruct (label_sections_pointwise (fun _ => True) sponsor_anchor
              (fun before tj =>
                 section_type tj = Sponsor ->
                 opens_sponsor tj = true
                 \/ exists opener,
                     In opener before /\ section_type opener = Sponsor
                     /\ opens_sponsor opener = true /\ t tj - t opener <= 480))
    with (turns := turns) as [_ Hpt].
  - intros before st tr st' l _ Hinv El.
    destruct (label_turn_anchor before st st' tr l Hinv El) as [Hl Hinv'].
    split; [|exact Hinv']. simpl. intros E. exact (Hl E).
  - apply Forall_forall. intros; exact I.
  - intros Hm. discriminate Hm.
  - exact (Hpt j tj Hj Hlab).
Qed.

Lemma sponsor_within_eight_minutes_witness :
  nth_error (label_sections sponsor_break) 2
  = Some (set_section_type (raw_turn 40 "Acme makes anvils.") Sponsor)
  /\ section_type (set_section_type (raw_turn 40 "Acme makes anvils.") Sponsor) = Sponsor
  /\ (opens_sponsor (set_section_type (raw_turn 40 "Acme makes anvils.") Sponsor) = true
      \/ exists opener,
          In opener (firstn 2 (label_sections sponsor_break))
          /\ section_type opener = Sponsor
          /\ opens_sponsor opener = true
          /\ t (set_section_type (raw_turn 40 "Acme makes anvils.") Sponsor) - t opener
             <= 480).
Proof.
  assert (H : nth_error (label_sections sponsor_break) 2
              = Some (set_section_type (raw_turn 40 "Acme makes anvils.") Sponsor))
    by (vm_compute; reflexivity).
  split; [exact H|]. split; [reflexivity|].
  exact (sponsor_within_eight_minutes sponsor_break 2 _ H eq_refl).
Defined.

(* ------------------------------------------------------------------ *)
(** * Further properties of [parse_transcript] *)

Section Stripping.

Lemma rstrip_by_idem (p : ascii -> bool) (s : string) :
  rstrip_by p (rstrip_by p s) = rstrip_by p s.
Proof.
  induction s as [|c s IH]; [reflexivity|]. simpl.
  destruct (rstrip_by p s) as [|d r] eqn:E.
  - destruct (p c) eqn:Ec; [reflexivity|]. simpl. rewrite Ec. reflexivity.
  - change (rstrip_by p (String c (String d r)) = String c (String d r)).
    cbn [rstrip_by] in *. cbn [rstrip_by]. rewrite IH. reflexivity.
Qed.

(** After stripping on the left the string is empty or starts outside the
    class, and stripping on the right keeps that. *)
Lemma lstrip_rstrip (p : ascii -> bool) (s : string) :
  lstrip_by p (rstrip_by p (lstrip_by p s)) = rstrip_by p (lstrip_by p s).
Proof.
  induction s as [|c s IH]; [reflexivity|]. simpl.
  destruct (p c) eqn:Ec; [exact IH|].
  cbn [rstrip_by]. destruct (rstrip_by p s); rewrite ?Ec; cbn [lstrip_by];
    rewrite Ec; reflexivity.
Qed.

Lemma strip_idem (s : string) : strip (strip s) = strip s.
Proof. unfold strip. rewrite lstrip_rstrip. apply rstrip_by_idem. Qed.

End Stripping.

Section TidyTurns.
Variable redact : bool.

Lemma match_timestamp_stripped (line : string) (sp : option string) (secs : Z)
    (rest : string) :
  match_timestamp line = Some (sp, secs, rest) ->
  match sp with Some s => stripped s | None => True end.
Proof.
  unfold match_timestamp.
  destruct (re_match_at_start RE_SPEAKER_TS line) as [m|].
  - intros [= <- _ _]. apply strip_idem.
  - destruct (re_match_at_start RE_TS_ONLY line); [|discriminate].
    intros [= <- _ _]. exact I.
Qed.

(** The open Turn keeps a stripped speaker through every line; flushed
    Turns are tidy. *)
Lemma parse_line_tidy (turns : list Turn) (cur : option Turn) (l : string) :
  Forall tidy turns ->
  (forall c, cur = Some c -> match speaker c with Some s => stripped s | None => True end) ->
  Forall tidy (fst (parse_line redact (turns, cur) l))
  /\ (forall c, snd (parse_line redact (turns, cur) l) = Some c ->
                match speaker c with Some s => stripped s | None => True end).
Proof.
  intros Hturns Hcur. unfold parse_line.
  destruct (is_empty (strip (rstrip_newline l))).
  - destruct cur as [c|]; [|split; [exact Hturns | discriminate]].
    destruct (nonempty (text c) && negb (endswith_newline (text c))); cbn [fst snd].
    + split; [exact Hturns|]. intros c' [= <-]. exact (Hcur c eq_refl).
    + split; [exact Hturns | exact Hcur].
  - destruct (match_timestamp (rstrip_newline l)) as [[[sp secs] rest]|] eqn:Em;
      cbn [fst snd].
    + split.
      * destruct cur as [c|]; [|exact Hturns].
        apply Forall_app. split; [exact Hturns|]. constructor; [|constructor].
        split; [apply strip_idem | exact (Hcur c eq_refl)].
      * intros c' [= <-]. apply match_timestamp_stripped in Em.
        destruct (nonempty _); exact Em.
    + split; [exact Hturns|]. intros c' [= <-].
      assert (H0 : match speaker (match cur with
                                  | Some c => c
                                  | None => mkTurn None 0 "" Unknown false None
                                  end) with
                   | Some s => stripped s
                   | None => True
                   end).
      { destruct cur as [c|]; [exact (Hcur c eq_refl) | exact I]. }
      repeat match goal with
             | |- context [if ?b then _ else _] => destruct b
             end; exact H0.
Qed.

Lemma parse_lines_tidy (lines : list string) :
  forall turns cur,
    Forall tidy turns ->
    (forall c, cur = Some c ->
               match speaker c with Some s => stripped s | None => True end) ->
    Forall tidy (parse_finish (parse_lines redact lines (turns, cur))).
Proof.
  induction lines as [|l lines IH]; intros turns cur Hturns Hcur.
  - simpl. destruct cur as [c|]; [|exact Hturns].
    apply Forall_app. split; [exact Hturns|]. constructor; [|constructor].
    split; [apply strip_idem | exact (Hcur c eq_refl)].
  - unfold parse_lines in *. cbn [fold_left].
    destruct (parse_line_tidy turns cur l Hturns Hcur) as [Ht Hc].
    destruct (parse_line redact (turns, cur) l) as [turns' cur'].
    apply IH; assumption.
Qed.

End TidyTurns.

(** X10. Every Turn [parse_transcript] returns has a text without white
    space at either end, and a speaker, when it has one, likewise. *)
Theorem parsed_turns_are_stripped (text0 : string) (redact : bool) :
  Forall (fun tr =>
            strip (text tr) = text tr
            /\ match speaker tr with Some s => strip s = s | None => True end)
         (parse_transcript text0 redact).
Proof.
  unfold parse_transcript.
  apply (parse_lines_tidy redact (splitlines text0) [] None); [constructor | discriminate].
Qed.

Section RedactionParity.

Lemma parse_line_same_keys (a b : parser_state) (l : string) :
  same_keys a b -> same_keys (parse_line true a l) (parse_line false b l).
Proof.
  destruct a as [ta ca], b as [tb cb]. unfold same_keys. cbn [fst snd].
  intros [Ht Hc]. unfold parse_line.
  destruct (is_empty (strip (rstrip_newline l))).
  - destruct ca as [a|], cb as [b|]; try discriminate; cbn [fst snd];
      [|split; assumption].
    destruct (nonempty (text a) && negb (endswith_newline (text a))),
             (nonempty (text b) && negb (endswith_newline (text b)));
      cbn [fst snd]; (split; [exact Ht | exact Hc]).
  - destruct (match_timestamp (rstrip_newline l)) as [[[sp secs] rest]|]; cbn [fst snd].
    + split.
      * destruct ca as [a|], cb as [b|]; try discriminate; [|exact Ht].
        rewrite !map_app, Ht. simpl. f_equal. f_equal.
        simpl in Hc. injection Hc as Hs Htime. unfold turn_key. simpl. congruence.
      * repeat match goal with
               | |- context [if ?c then _ else _] => destruct c
               end; reflexivity.
    + split; [exact Ht|].
      assert (H0 : turn_key (match ca with
                             | Some c => c
                             | None => mkTurn None 0 "" Unknown false None
                             end)
                   = turn_key (match cb with
                               | Some c => c
                               | None => mkTurn None 0 "" Unknown false None
                               end)).
      { destruct ca as [a|], cb as [b|]; try discriminate; [|reflexivity].
        simpl in Hc. injection Hc as Hs Htime. unfold turn_key. congruence. }
      cbn [option_map]. f_equal.
      repeat match goal with
             | |- context [if ?c then _ else _] => destruct c
             end; exact H0.
Qed.

Lemma parse_lines_same_keys (lines : list string) :
  forall a b,
    same_keys a b ->
    same_keys (parse_lines true lines a) (parse_lines false lines b).
Proof.
  induction lines as [|l lines IH]; intros a b Hab; [exact Hab|].
  unfold parse_lines in *. cbn [fold_left].
  apply IH, parse_line_same_keys, Hab.
Qed.

End RedactionParity.

(** X11. Redaction changes neither which Turns the parser returns nor
    their speakers and times: with and without [redact] the lists have the
    same length and, position by position, the same speaker and time. *)
Theorem redaction_keeps_turns (text0 : string) :
  map turn_key (parse_transcript text0 true)
  = map turn_key (parse_transcript text0 false).
Proof.
  unfold parse_transcript.
  pose proof (parse_lines_same_keys (splitlines text0) ([], None) ([], None)
                (conj eq_refl eq_refl)) as [Ht Hc].
  destruct (parse_lines true (splitlines text0) ([], None)) as [ta ca].
  destruct (parse_lines false (splitlines text0) ([], None)) as [tb cb].
  cbn [fst snd] in Ht, Hc. unfold parse_finish.
  destruct ca as [a|], cb as [b|]; try discriminate; [|exact Ht].
  rewrite !map_app, Ht. simpl. f_equal. f_equal.
  simpl in Hc. injection Hc as Hs Htime. unfold turn_key. simpl. congruence.
Qed.

Section TimeRange.

(** The groups a match binds are those of the pattern, on top of the ones
    bound before. *)
Lemma exec_groups (re : regex) :
  forall prev s acc caps m,
    exec re prev s acc caps = Some m ->
    exists new, m_groups m = (new ++ caps)%list /\ caps_shape re new.
Proof.
  induction re as [|it re IH]; intros prev s acc caps m Hrun.
  - simpl in Hrun. injection Hrun as <-. exists []. split; reflexivity.
  - destruct it as [| | |d|name cls lo hi greedy]; simpl in Hrun.
    + destruct prev; [discriminate|]. apply IH in Hrun. exact Hrun.
    + destruct (at_eos s); [|discriminate]. apply IH in Hrun. exact Hrun.
    + destruct (xorb _ _); [|discriminate]. apply IH in Hrun. exact Hrun.
    + destruct s as [|e s]; [discriminate|].
      destruct (Ascii.eqb d e); [|discriminate]. apply IH in Hrun. exact Hrun.
    + apply rep_loop_sound in Hrun; [|destruct hi; [lia | exact I]].
      destruct Hrun as (u & s' & prev' & -> & Hu & Hlo & Hhi & Hk).
      apply IH in Hk as (new & Hg & Hshape).
      destruct name as [nm|]; simpl in Hg.
      * exists (new ++ [(nm, u)])%list. rewrite <- app_assoc. split; [exact Hg|].
        simpl. exists u, new. repeat split; assumption.
      * exists new. split; [exact Hg | exact Hshape].
Qed.

Lemma digit_value_range (c : ascii) :
  is_decimal c = true -> 0 <= digit_value c <= 9.
Proof.
  unfold is_decimal, between, digit_value. intros H.
  apply andb_prop in H as [H1 H2]. apply N.leb_le in H1, H2. lia.
Qed.

(** One or two decimal digits denote a number up to 99. *)
Lemma int_two_digits (u : string) :
  all_chars is_decimal u = true -> (String.length u <= 2)%nat -> 0 <= int u <= 99.
Proof.
  unfold int. intros Hu Hlen.
  destruct u as [|a [|b [|c u]]];
    cbn [int_of_digits all_chars String.length] in *; try lia.
  - apply andb_prop in Hu as [Ha _]. pose proof (digit_value_range a Ha). lia.
  - apply andb_prop in Hu as [Ha Hu]. apply andb_prop in Hu as [Hb _].
    pose proof (digit_value_range a Ha). pose proof (digit_value_range b Hb). lia.
Qed.

Lemma ts_groups_range (re : regex) (line : string) (m : re_match) :
  re = RE_SPEAKER_TS \/ re = RE_TS_ONLY ->
  re_match_at_start re line = Some m ->
  0 <= ts_to_seconds (group "h" (m_groups m)) (group "m" (m_groups m))
                     (group "s" (m_groups m)) <= MAX_SECONDS.
Proof.
  intros Hre Hm. unfold re_match_at_start in Hm.
  apply exec_groups in Hm as (new & Hg & Hshape). rewrite app_nil_r in Hg.
  assert (H : exists uh um us,
             group "h" new = uh /\ group "m" new = um /\ group "s" new = us
             /\ all_chars is_decimal uh = true /\ (String.length uh <= 2)%nat
             /\ all_chars is_decimal um = true /\ (String.length um <= 2)%nat
             /\ all_chars is_decimal us = true /\ (String.length us <= 2)%nat).
  { destruct Hre as [-> | ->]; simpl in Hshape.
    - destruct Hshape as (usp & r1 & -> & _ & _ & _ & uh & r2 & -> & Hh & _ & Hhl
                          & um & r3 & -> & Hm' & _ & Hml & us & r4 & -> & Hs & _ & Hsl
                          & ur & r5 & -> & _ & _ & _ & ->).
      exists uh, um, us. repeat split; assumption.
    - destruct Hshape as (uh & r2 & -> & Hh & _ & Hhl
                          & um & r3 & -> & Hm' & _ & Hml & us & r4 & -> & Hs & _ & Hsl
                          & ur & r5 & -> & _ & _ & _ & ->).
      exists uh, um, us. repeat split; assumption. }
  destruct H as (uh & um & us & Eh & Em & Es & Hh & Hhl & Hm' & Hml & Hs & Hsl).
  rewrite Hg, Eh, Em, Es. unfold ts_to_seconds, MAX_SECONDS.
  pose proof (int_two_digits uh Hh Hhl). pose proof (int_two_digits um Hm' Hml).
  pose proof (int_two_digits us Hs Hsl). lia.
Qed.

Lemma match_timestamp_range (line : string) (sp : option string) (secs : Z)
    (rest : string) :
  match_timestamp line = Some (sp, secs, rest) -> 0 <= secs <= MAX_SECONDS.
Proof.
  unfold match_timestamp.
  destruct (re_match_at_start RE_SPEAKER_TS line) as [m|] eqn:E1.
  - intros [= _ <- _]. apply (ts_groups_range RE_SPEAKER_TS line m); [left; reflexivity | exact E1].
  - destruct (re_match_at_start RE_TS_ONLY line) as [m|] eqn:E2; [|discriminate].
    intros [= _ <- _]. apply (ts_groups_range RE_TS_ONLY line m); [right; reflexivity | exact E2].
Qed.

Variable redact : bool.

Lemma parse_line_times (turns : list Turn) (cur : option Turn) (l : string) :
  Forall (fun tr => 0 <= t tr <= MAX_SECONDS) turns ->
  (forall c, cur = Some c -> 0 <= t c <= MAX_SECONDS) ->
  Forall (fun tr => 0 <= t tr <= MAX_SECONDS) (fst (parse_line redact (turns, cur) l))
  /\ (forall c, snd (parse_line redact (turns, cur) l) = Some c ->
                0 <= t c <= MAX_SECONDS).
Proof.
  intros Hturns Hcur. unfold parse_line.
  destruct (is_empty (strip (rstrip_newline l))).
  - destruct cur as [c|]; [|split; [exact Hturns | discriminate]].
    destruct (nonempty (text c) && negb (endswith_newline (text c))); cbn [fst snd].
    + split; [exact Hturns|]. intros c' [= <-]. exact (Hcur c eq_refl).
    + split; [exact Hturns | exact Hcur].
  - destruct (match_timestamp (rstrip_newline l)) as [[[sp secs] rest]|] eqn:Em;
      cbn [fst snd].
    + split.
      * destruct cur as [c|]; [|exact Hturns].
        apply Forall_app. split; [exact Hturns|]. constructor; [|constructor].
        exact (Hcur c eq_refl).
      * intros c' [= <-]. apply match_timestamp_range in Em.
        destruct (nonempty _); exact Em.
    + split; [exact Hturns|]. intros c' [= <-].
      assert (H0 : 0 <= t (match cur with
                           | Some c => c
                           | None => mkTurn None 0 "" Unknown false None
                           end) <= MAX_SECONDS).
      { destruct cur as [c|]; [exact (Hcur c eq_refl) | unfold MAX_SECONDS; simpl; lia]. }
      repeat match goal with
             | |- context [if ?b then _ else _] => destruct b
             end; exact H0.
Qed.

Lemma parse_lines_times (lines : list string) :
  forall turns cur,
    Forall (fun tr => 0 <= t tr <= MAX_SECONDS) turns ->
    (forall c, cur = Some c -> 0 <= t c <= MAX_SECONDS) ->
    Forall (fun tr => 0 <= t tr <= MAX_SECONDS)
           (parse_finish (parse_lines redact lines (turns, cur))).
Proof.
  induction lines as [|l lines IH]; intros turns cur Hturns Hcur.
  - simpl. destruct cur as [c|]; [|exact Hturns].
    apply Forall_app. split; [exact Hturns|]. constructor; [|constructor].
    exact (Hcur c eq_refl).
  - unfold parse_lines in *. cbn [fold_left].
    destruct (parse_line_times turns cur l Hturns Hcur) as [Ht Hc].
    destruct (parse_line redact (turns, cur) l) as [turns' cur'].
    apply IH; assumption.
Qed.

End TimeRange.

(** X12. Every Turn [parse_transcript] returns has a time between 0 and
    362439 seconds (99:99:99). The patterns take any two digits for the
    minutes and the seconds, so the bound is reached: "(99:99:99): x"
    gives a Turn at 362439 seconds. *)
Theorem parsed_times_in_range (text0 : string) (redact : bool) :
  Forall (fun tr => 0 <= t tr <= 362439) (parse_transcript text0 redact)
  /\ map t (parse_transcript "(99:99:99): x" redact) = [362439].
Proof.
  split.
  - unfold parse_transcript.
    apply (parse_lines_times redact (splitlines text0) [] None); [constructor | discriminate].
  - destruct redact; vm_compute; reflexivity.
Qed.

(* ------------------------------------------------------------------ *)
(** * Further properties of [detect_pii] and [redact_pii] *)

Section Substitution.
Variable re : regex.
Variable repl : string -> string.

(** The pattern matches no empty string. *)
Hypothesis Hnonempty : forall w, shape re w -> w <> "".

Lemma drop_append (w rest : string) : drop (String.length w) (w ++ rest) = rest.
Proof. induction w as [|c w IH]; [reflexivity | exact IH]. Qed.

Lemma drop_empty (n : nat) : drop n "" = "".
Proof. destruct n; reflexivity. Qed.

(** A match at a position: its text is a non-empty prefix of the input. *)
Lemma exec_prefix (prev : option ascii) (c : ascii) (s : string) (m : re_match) :
  exec re prev (String c s) "" [] = Some m ->
  exists w', m_text m = String c w' /\ s = w' ++ m_rest m /\ shape re (m_text m).
Proof.
  intros H. apply exec_sound in H as (w & Htext & Hs & Hshape).
  simpl in Htext. rewrite <- Htext in Hshape, Hs. clear Htext w.
  destruct (m_text m) as [|d w'] eqn:E; [exfalso; exact (Hnonempty "" Hshape eq_refl)|].
  simpl in Hs. injection Hs as -> ->. exists w'. repeat split. exact Hshape.
Qed.

(** A substitution that maps every match found to itself changes
    nothing. *)
Lemma sub_go_unchanged (s : string) :
  forall prev skip,
    (forall v, In v (finditer_go re prev s skip) -> repl v = v) ->
    sub_go re repl prev s skip = drop skip s.
Proof.
  induction s as [|c s IH]; intros prev skip Hid.
  - simpl. rewrite drop_empty. reflexivity.
  - simpl in *. destruct skip as [|n]; [|apply IH; exact Hid].
    destruct (exec re prev (String c s) "" []) as [m|] eqn:E.
    + rewrite (Hid (m_text m) (or_introl eq_refl)).
      rewrite IH by (intros v Hv; apply Hid; right; exact Hv).
      destruct (exec_prefix prev c s m E) as (w' & Htext & Hs & _).
      rewrite Htext. simpl. rewrite Nat.sub_0_r.
      rewrite Hs at 1. rewrite drop_append. rewrite <- Hs. reflexivity.
    + rewrite IH by exact Hid. reflexivity.
Qed.

End Substitution.

Lemma email_shape_nonempty (w : string) : shape EMAIL_RE w -> w <> "".
Proof.
  intros H E. apply email_shape_solid in H as [(c & w' & Hw & _) _]. congruence.
Qed.

Lemma phone_shape_nonempty (w : string) : shape PHONE_RE w -> w <> "".
Proof.
  intros H E. apply phone_shape_solid in H as [(c & w' & Hw & _) _]. congruence.
Qed.

(** Text in which [detect_pii] finds nothing is left as it is by
    [redact_pii]. *)
Lemma redact_pii_keeps_clean_text (s : string) :
  detect_pii s = [] -> redact_pii s = s.
Proof.
  unfold detect_pii, redact_pii. intros H.
  apply app_eq_nil in H as [He Hp].
  apply map_eq_nil in He, Hp.
  assert (E1 : sub EMAIL_RE (fun _ => "[REDACTED_EMAIL]") s = s).
  { unfold sub. rewrite (sub_go_unchanged EMAIL_RE _ email_shape_nonempty); [reflexivity|].
    unfold finditer in He. rewrite He. intros v []. }
  rewrite E1. unfold sub.
  rewrite (sub_go_unchanged PHONE_RE _ phone_shape_nonempty); [reflexivity|].
  intros v Hv. unfold _phone_sub. destruct (10 <=? count_digits v) eqn:E; [|reflexivity].
  assert (Hin : In v (filter (fun val => 10 <=? count_digits val) (finditer PHONE_RE s)))
    by (apply filter_In; split; [exact Hv | exact E]).
  rewrite Hp in Hin. destruct Hin.
Qed.

Lemma email_shape_at (v : string) : shape EMAIL_RE v -> occurs "@" v.
Proof.
  intros (u1 & r1 & -> & _ & _ & _ & r2 & -> & _).
  exists u1, r2. reflexivity.
Qed.

(** X13. Every flag [detect_pii] reports names a value that occurs in the
    scanned text and neither starts nor ends with white space; an email
    value holds an "@", a phone value at least ten digits. *)
Theorem detect_pii_reports_what_is_there (s : string) (f : pii_flag) :
  In f (detect_pii s) ->
  contains (pii_value f) s = true
  /\ strip (pii_value f) = pii_value f
  /\ pii_value f <> ""
  /\ match pii_type f with
     | Email => contains "@" (pii_value f) = true
     | Phone => 10 <= count_digits (pii_value f)
     end.
Proof.
  intros Hf. destruct (detect_pii_in s f Hf) as [Hsolid Hocc].
  split; [apply occurs_contains; exact Hocc|].
  split.
  { destruct Hsolid as [(c & w & E & Hc) Hr]. unfold strip. rewrite E in *.
    simpl. rewrite Hc. exact Hr. }
  split.
  { destruct Hsolid as [(c & w & E & _) _]. congruence. }
  unfold detect_pii in Hf. apply in_app_or in Hf as [H|H];
    apply in_map_iff in H as (v & <- & Hv); simpl.
  - apply finditer_go_in in Hv as [_ Hshape].
    apply occurs_contains, email_shape_at. exact Hshape.
  - apply filter_In in Hv as [_ Hd]. apply Z.leb_le in Hd. exact Hd.
Qed.

Lemma detect_pii_reports_what_is_there_witness :
  In (mkFlag Phone "1234567890") (detect_pii leaky_text)
  /\ contains "1234567890" leaky_text = true
  /\ strip "1234567890" = "1234567890"
  /\ "1234567890" <> ""
  /\ 10 <= count_digits "1234567890".
Proof.
  assert (H : In (mkFlag Phone "1234567890") (detect_pii leaky_text))
    by (vm_compute; left; reflexivity).
  split; [exact H|].
  exact (detect_pii_reports_what_is_there leaky_text (mkFlag Phone "1234567890") H).
Defined.

Section Counting.

Lemma count_char_app (c : ascii) (a b : string) :
  count_char c (a ++ b) = count_char c a + count_char c b.
Proof. induction a as [|d a IH]; simpl; [reflexivity | rewrite IH; lia]. Qed.

Lemma count_char_nonneg (c : ascii) (s : string) : 0 <= count_char c s.
Proof. induction s as [|d s IH]; simpl; [lia | destruct (Ascii.eqb c d); lia]. Qed.

Lemma count_char_class (cls : ascii -> bool) (c : ascii) (u : string) :
  cls c = false -> all_chars cls u = true -> count_char c u = 0.
Proof.
  intros Hc. induction u as [|d u IH]; simpl; [reflexivity|].
  intros H. apply andb_prop in H as [Hd Hu]. rewrite (IH Hu).
  destruct (Ascii.eqb c d) eqn:E; [|reflexivity].
  apply Ascii.eqb_eq in E. subst d. congruence.
Qed.

Lemma email_shape_no_bracket (v : string) : shape EMAIL_RE v -> count_char BRACKET v = 0.
Proof.
  intros (u1 & r1 & -> & Hu1 & _ & _ & r2 & -> & u2 & r3 & -> & Hu2 & _ & _
          & r4 & -> & u3 & r5 & -> & Hu3 & _ & _ & ->).
  repeat (rewrite ?count_char_app; cbn [count_char]).
  rewrite (count_char_class email_local BRACKET u1 eq_refl Hu1),
          (count_char_class email_domain BRACKET u2 eq_refl Hu2),
          (count_char_class is_letter_az BRACKET u3 eq_refl Hu3).
  reflexivity.
Qed.

Lemma phone_shape_no_bracket (v : string) : shape PHONE_RE v -> count_char BRACKET v = 0.
Proof.
  intros (u0 & r0 & -> & Hu0 & _ & _ & u1 & r1 & -> & Hu1 & _ & _
          & u2 & r2 & -> & Hu2 & _ & _ & u3 & r3 & -> & Hu3 & _ & _ & ->).
  repeat (rewrite ?count_char_app; cbn [count_char]).
  rewrite (count_char_class (is_char "+") BRACKET u0 eq_refl Hu0),
          (count_char_class is_decimal BRACKET u1 eq_refl Hu1),
          (count_char_class phone_inner BRACKET u2 eq_refl Hu2),
          (count_char_class is_decimal BRACKET u3 eq_refl Hu3).
  reflexivity.
Qed.

Variable re : regex.
Variable repl : string -> string.
Hypothesis Hnonempty : forall w, shape re w -> w <> "".

(** The occurrences of a character after a substitution: those of the
    text scanned, plus what each replacement adds. *)
Lemma sub_go_count (b : ascii) (s : string) :
  forall prev skip,
    count_char b (sub_go re repl prev s skip)
    = count_char b (drop skip s)
      + sum_Z (map (fun v => count_char b (repl v) - count_char b v)
                   (finditer_go re prev s skip)).
Proof.
  induction s as [|c s IH]; intros prev skip.
  - simpl. rewrite drop_empty. reflexivity.
  - cbn [sub_go finditer_go]. destruct skip as [|n]; [|rewrite IH; reflexivity].
    destruct (exec re prev (String c s) "" []) as [m|] eqn:E.
    + destruct (exec_prefix re Hnonempty prev c s m E) as (w' & Htext & Hs & _).
      assert (Hd : drop (String.length w') s = m_rest m)
        by (rewrite Hs; apply drop_append).
      assert (Hc : count_char b (String c s)
                   = count_char b (String c w') + count_char b (m_rest m)).
      { rewrite Hs. change (String c (w' ++ m_rest m)) with (String c w' ++ m_rest m).
        apply count_char_app. }
      rewrite count_char_app, IH, Htext.
      replace (String.length (String c w') - 1)%nat with (String.length w')
        by (simpl; lia).
      rewrite Hd. cbn [drop]. rewrite Hc.
      unfold sum_Z. cbn [map fold_right]. lia.
    + cbn [count_char drop]. rewrite IH. cbn [drop]. lia.
Qed.

End Counting.

Lemma sum_gain_all (l : list string) (gain : string -> Z) :
  (forall v, In v l -> gain v = 1) -> sum_Z (map gain l) = Z.of_nat (List.length l).
Proof.
  unfold sum_Z. induction l as [|v l IH]; intros H; [reflexivity|].
  cbn [map fold_right List.length].
  rewrite (H v (or_introl eq_refl)), IH by (intros w Hw; apply H; right; exact Hw). lia.
Qed.

Lemma sum_gain_filter (l : list string) (gain : string -> Z) (keep : string -> bool) :
  (forall v, In v l -> gain v = if keep v then 1 else 0) ->
  sum_Z (map gain l) = Z.of_nat (List.length (filter keep l)).
Proof.
  unfold sum_Z. induction l as [|v l IH]; intros H; [reflexivity|].
  cbn [map fold_right filter].
  rewrite (H v (or_introl eq_refl)), IH by (intros w Hw; apply H; right; exact Hw).
  destruct (keep v); cbn [List.length]; lia.
Qed.

(** Brackets after the two substitutions of [redact_pii]: one more per
    email replaced, one more per phone number replaced. *)
Lemma email_sub_count (s : string) :
  count_char BRACKET (sub EMAIL_RE (fun _ => "[REDACTED_EMAIL]") s)
  = count_char BRACKET s + Z.of_nat (List.length (finditer EMAIL_RE s)).
Proof.
  unfold sub, finditer. rewrite (sub_go_count EMAIL_RE _ email_shape_nonempty).
  cbn [drop]. f_equal. apply sum_gain_all.
  intros v Hv. apply finditer_go_in in Hv as [_ Hshape].
  rewrite (email_shape_no_bracket v Hshape). reflexivity.
Qed.

Lemma phone_sub_count (s : string) :
  count_char BRACKET (sub PHONE_RE _phone_sub s)
  = count_char BRACKET s
    + Z.of_nat (List.length (filter (fun val => 10 <=? count_digits val)
                                    (finditer PHONE_RE s))).
Proof.
  unfold sub, finditer. rewrite (sub_go_count PHONE_RE _ phone_shape_nonempty).
  cbn [drop]. f_equal. apply sum_gain_filter.
  intros v Hv. apply finditer_go_in in Hv as [_ Hshape].
  unfold _phone_sub. destruct (10 <=? count_digits v).
  - rewrite (phone_shape_no_bracket v Hshape). reflexivity.
  - lia.
Qed.

(** X14. [redact_pii] leaves a text as it is exactly when [detect_pii]
    finds nothing in it: every email and every phone number detected is
    replaced by its token, and nothing else is touched. *)
Theorem redact_pii_changes_iff_detected (s : string) :
  redact_pii s = s <-> detect_pii s = [].
Proof.
  split; [|apply redact_pii_keeps_clean_text].
  intros H.
  assert (Hcount : count_char BRACKET (redact_pii s) = count_char BRACKET s)
    by (rewrite H; reflexivity).
  unfold redact_pii in Hcount. rewrite phone_sub_count, email_sub_count in Hcount.
  assert (He : finditer EMAIL_RE s = []).
  { destruct (finditer EMAIL_RE s); [reflexivity | simpl in Hcount; lia]. }
  assert (E1 : sub EMAIL_RE (fun _ => "[REDACTED_EMAIL]") s = s).
  { unfold sub. rewrite (sub_go_unchanged EMAIL_RE _ email_shape_nonempty); [reflexivity|].
    unfold finditer in He. rewrite He. intros v []. }
  rewrite E1, He in Hcount.
  unfold detect_pii. rewrite He.
  destruct (filter (fun val => 10 <=? count_digits val) (finditer PHONE_RE s));
    [reflexivity | simpl in Hcount; lia].
Qed.

(* ------------------------------------------------------------------ *)
(** * Redaction of a transcript without PII *)

Section CleanTranscript.

Lemma redact_if_clean (x : string) :
  (nonempty x = true -> detect_pii x = []) ->
  (if nonempty x then redact_pii x else x) = x.
Proof.
  intros H. destruct (nonempty x); [|reflexivity].
  apply redact_pii_keeps_clean_text, H. reflexivity.
Qed.

Lemma truthy_app {A : Type} (l l' : list A) :
  truthy_list l' = true -> truthy_list (l ++ l') = true.
Proof. destruct l, l'; try discriminate; reflexivity. Qed.

(** The flags of a state are never taken back: a line that leaves the
    state without flags found it without flags, and met no PII, so that
    redaction had nothing to change on it. *)
Lemma parse_line_clean (st : parser_state) (l : string) :
  clean_state (parse_line false st l) ->
  clean_state st /\ parse_line true st l = parse_line false st l.
Proof.
  destruct st as [turns cur]. unfold parse_line, clean_state.
  destruct (is_empty (strip (rstrip_newline l))).
  - intros H. split; [|reflexivity].
    destruct cur as [c|]; [|exact H].
    destruct (nonempty (text c) && negb (endswith_newline (text c))); exact H.
  - destruct (match_timestamp (rstrip_newline l)) as [[[sp secs] rest]|];
      cbn [andb fst snd].
    + intros [Ht Hc].
      assert (Hrest : nonempty rest = true -> detect_pii rest = []).
      { intros Hne. rewrite Hne in Hc. unfold unflagged in Hc. cbn in Hc.
        destruct (detect_pii rest); [reflexivity | discriminate]. }
      split.
      * destruct cur as [c|]; [|split; [exact Ht | exact I]].
        apply Forall_app in Ht as [Ht Hl]. split; [exact Ht|].
        apply Forall_inv in Hl. exact Hl.
      * rewrite (redact_if_clean rest Hrest). reflexivity.
    + set (cur0 := match cur with
                   | Some c => c
                   | None => mkTurn None 0 "" Unknown false None
                   end).
      set (cont := strip (rstrip_newline l)).
      set (cur1 := if nonempty (text cur0) && negb (endswith_newline (text cur0))
                   then set_text cur0 (text cur0 ++ " ") else cur0).
      assert (F1 : pii_flags cur1 = pii_flags cur0)
        by (unfold cur1; destruct (_ && _); reflexivity).
      intros [Ht Hc].
      assert (Hcont : nonempty cont = true -> detect_pii cont = []).
      { intros Hne. rewrite Hne in Hc.
        destruct (detect_pii cont) as [|f fs]; [reflexivity|]. exfalso.
        cbn [truthy_list] in Hc. unfold unflagged in Hc.
        destruct (ellipsis_match cont); cbn in Hc;
        destruct (match pii_flags cur1 with
                  | Some l0 => if truthy_list l0 then l0 else []
                  | None => []
                  end); discriminate. }
      split.
      * split; [exact Ht|]. destruct cur as [c|]; [|exact I].
        unfold unflagged in *. fold cur0.
        destruct (nonempty cont) eqn:Hne.
        -- rewrite (Hcont eq_refl) in Hc. cbn [truthy_list] in Hc.
           destruct (negb (ellipsis_match cont)); cbn in Hc;
             rewrite F1 in Hc; exact Hc.
        -- cbn in Hc. rewrite F1 in Hc. exact Hc.
      * rewrite (redact_if_clean cont Hcont). reflexivity.
Qed.

Lemma parse_lines_clean (lines : list string) :
  forall st,
    clean_state (parse_lines false lines st) ->
    clean_state st /\ parse_lines true lines st = parse_lines false lines st.
Proof.
  induction lines as [|l lines IH]; intros st H; [split; [exact H | reflexivity]|].
  unfold parse_lines in *. cbn [fold_left] in *.
  destruct (IH _ H) as [Hl E].
  destruct (parse_line_clean st l Hl) as [Hst El].
  split; [exact Hst|]. rewrite El. exact E.
Qed.

Lemma has_pii_unflagged (turns : list Turn) :
  has_pii turns = false -> Forall unflagged turns.
Proof.
  unfold has_pii, unflagged. induction turns as [|tr turns IH]; [constructor|].
  cbn [filter]. destruct (truthy_flags (pii_flags tr)) eqn:E.
  - cbn [map existsb]. rewrite E. discriminate.
  - intros H. constructor; [exact E | apply IH, H].
Qed.

End CleanTranscript.

(** X15. When the Turns parsed without redaction hold no PII flag,
    parsing with redaction returns the very same Turns: redaction changes
    nothing in a transcript in which nothing is detected. *)
Theorem redaction_changes_nothing_without_pii (text0 : string) :
  has_pii (parse_transcript text0 false) = false ->
  parse_transcript text0 true = parse_transcript text0 false.
Proof.
  unfold parse_transcript. intros H. apply has_pii_unflagged in H.
  assert (Hclean : clean_state (parse_lines false (splitlines text0) ([], None))).
  { destruct (parse_lines false (splitlines text0) ([], None)) as [turns [c|]];
      unfold clean_state; cbn [parse_finish fst snd] in *; [|split; [exact H | exact I]].
    apply Forall_app in H as [Ht Hl]. split; [exact Ht|].
    apply Forall_inv in Hl. exact Hl. }
  destruct (parse_lines_clean _ _ Hclean) as [_ ->]. reflexivity.
Qed.

Lemma redaction_changes_nothing_without_pii_witness :
  has_pii (parse_transcript jane_text false) = false
  /\ parse_transcript jane_text true = parse_transcript jane_text false.
Proof.
  assert (H : has_pii (parse_transcript jane_text false) = false)
    by (vm_compute; reflexivity).
  split; [exact H|].
  exact (redaction_changes_nothing_without_pii jane_text H).
Defined.

(* ------------------------------------------------------------------ *)
(** * Properties of [slugify] *)

Section Pieces.
Variable p : ascii -> bool.

Lemma prefix_nil (s : string) : String.prefix "" s = true.
Proof. destruct s; reflexivity. Qed.

Lemma prefix_true (v s : string) : String.prefix v s = true -> exists b, s = v ++ b.
Proof.
  revert s. induction v as [|c v IH]; intros s H.
  - exists s. reflexivity.
  - destruct s as [|d s]; [discriminate|]. simpl in H.
    destruct (ascii_dec c d) as [<-|]; [|discriminate].
    destruct (IH s H) as [b ->]. exists b. reflexivity.
Qed.

Lemma contains_occurs (v s : string) : contains v s = true -> occurs v s.
Proof.
  induction s as [|c s IH]; cbn [contains]; intros H.
  - rewrite orb_false_r in H. destruct (prefix_true v "" H) as [b Hb].
    exists "", b. exact Hb.
  - apply orb_prop in H as [H|H].
    + destruct (prefix_true v _ H) as [b Hb]. exists "", b. exact Hb.
    + destruct (IH H) as (a & b & ->). exists (String c a), b. reflexivity.
Qed.

(** What occurs in a piece of a string occurs in the string. *)
Lemma contains_piece (v a x b : string) :
  contains v (a ++ x ++ b) = false -> contains v x = false.
Proof.
  intros H. destruct (contains v x) eqn:E; [|reflexivity].
  rewrite <- H. symmetry. apply occurs_contains.
  apply occurs_app_l, occurs_app_r, contains_occurs. exact E.
Qed.

Lemma lstrip_by_suffix (s : string) : exists a, s = a ++ lstrip_by p s.
Proof.
  induction s as [|c s [a IH]]; [exists ""; reflexivity|]. simpl.
  destruct (p c); [|exists ""; reflexivity].
  exists (String c a). simpl. rewrite <- IH. reflexivity.
Qed.

Lemma rstrip_by_prefix (s : string) : exists b, s = rstrip_by p s ++ b.
Proof.
  induction s as [|c s [b IH]]; [exists ""; reflexivity|]. simpl.
  destruct (rstrip_by p s) as [|d r].
  - destruct (p c).
    + exists (String c s). reflexivity.
    + exists b. simpl in *. rewrite <- IH. reflexivity.
  - exists b. simpl in *. rewrite <- IH. reflexivity.
Qed.

Lemma take_drop (n : nat) (s : string) : s = take n s ++ drop n s.
Proof.
  revert s. induction n as [|n IH]; intros s; [destruct s; reflexivity|].
  destruct s as [|c s]; [reflexivity|]. simpl. rewrite <- IH. reflexivity.
Qed.

Lemma take_length (n : nat) (s : string) : (String.length (take n s) <= n)%nat.
Proof.
  revert s. induction n as [|n IH]; intros s; [destruct s; simpl; lia|].
  destruct s as [|c s]; simpl; [lia|]. specialize (IH s). lia.
Qed.

Lemma take_all (n : nat) (s : string) : (String.length s <= n)%nat -> take n s = s.
Proof.
  revert s. induction n as [|n IH]; intros s H.
  - destruct s; [reflexivity | simpl in H; lia].
  - destruct s as [|c s]; [reflexivity|]. simpl in *. rewrite IH by lia. reflexivity.
Qed.

Lemma strip_by_piece (s : string) : exists a b, s = a ++ strip_by p s ++ b.
Proof.
  destruct (lstrip_by_suffix s) as [a Ha].
  destruct (rstrip_by_prefix (lstrip_by p s)) as [b Hb].
  exists a, b. unfold strip_by. rewrite <- Hb. exact Ha.
Qed.

Lemma all_chars_piece (q : ascii -> bool) (a x b : string) :
  all_chars q (a ++ x ++ b) = true -> all_chars q x = true.
Proof.
  rewrite !all_chars_app. intros H.
  apply andb_prop in H as [_ H]. apply andb_prop in H as [H _]. exact H.
Qed.

Lemma all_chars_impl (q r : ascii -> bool) (s : string) :
  (forall c, q c = true -> r c = true) ->
  all_chars q s = true -> all_chars r s = true.
Proof.
  intros Hqr. induction s as [|c s IH]; simpl; [reflexivity|].
  intros H. apply andb_prop in H as [Hc Hs]. rewrite (Hqr c Hc), (IH Hs). reflexivity.
Qed.

Lemma lstrip_by_none (s : string) :
  all_chars (fun c => negb (p c)) s = true -> lstrip_by p s = s.
Proof.
  destruct s as [|c s]; simpl; [reflexivity|].
  intros H. apply andb_prop in H as [Hc _].
  apply negb_true_iff in Hc. rewrite Hc. reflexivity.
Qed.

Lemma map_chars_fixed (f : ascii -> ascii) (q : ascii -> bool) (s : string) :
  (forall c, q c = true -> f c = c) -> all_chars q s = true -> map_chars f s = s.
Proof.
  intros Hf. induction s as [|c s IH]; simpl; [reflexivity|].
  intros H. apply andb_prop in H as [Hc Hs]. rewrite (Hf c Hc), (IH Hs). reflexivity.
Qed.

End Pieces.

Section Dashes.

Lemma dash_prefix (c : ascii) (t : string) :
  String.prefix "-" (String c t) = Ascii.eqb c "-".
Proof.
  cbn [String.prefix]. destruct (ascii_dec "-" c) as [<-|Hn].
  - apply prefix_nil.
  - symmetry. apply Ascii.eqb_neq. congruence.
Qed.

Lemma double_dash (c : ascii) (t : string) :
  contains "--" (String c t)
  = (Ascii.eqb c "-" && String.prefix "-" t) || contains "--" t.
Proof.
  cbn [contains]. f_equal. cbn [String.prefix].
  destruct (ascii_dec "-" c) as [<-|Hn]; [reflexivity|].
  assert (E : Ascii.eqb c "-" = false) by (apply Ascii.eqb_neq; congruence).
  rewrite E. reflexivity.
Qed.

(** Stripping dashes on the left leaves no dash in front. *)
Lemma lstrip_dash_front (s : string) :
  String.prefix "-" (lstrip_by (is_char "-") s) = false.
Proof.
  induction s as [|c s IH]; [reflexivity|]. cbn [lstrip_by].
  destruct (is_char "-" c) eqn:E; [exact IH|].
  rewrite dash_prefix. exact E.
Qed.

Lemma rstrip_front (p : ascii -> bool) (s : string) :
  String.prefix "-" s = false -> String.prefix "-" (rstrip_by p s) = false.
Proof.
  destruct s as [|c s]; [intros _; reflexivity|].
  rewrite dash_prefix. intros H. cbn [rstrip_by].
  destruct (rstrip_by p s); [destruct (p c)|]; rewrite ?dash_prefix; auto.
Qed.

Lemma take_front (n : nat) (s : string) :
  String.prefix "-" s = false -> String.prefix "-" (take n s) = false.
Proof.
  destruct n as [|n]; [destruct s; reflexivity|].
  destruct s as [|c s]; [intros _; reflexivity|].
  cbn [take]. rewrite !dash_prefix. auto.
Qed.

End Dashes.

Section Squeezing.
Variable cls : ascii -> bool.

(** A greedy quantifier followed by nothing takes the whole run. *)
Lemma rep_loop_run (lo : nat) (s : string) :
  forall n prev taken,
    rep_loop cls lo None true (fun _ t r => Some (mkMatch [] t r)) n prev taken s
    = if (lo <=? n + String.length (take_while cls s))%nat
      then Some (mkMatch [] (taken ++ take_while cls s) (lstrip_by cls s))
      else None.
Proof.
  induction s as [|c s IH]; intros n prev taken.
  - cbn [rep_loop take_while lstrip_by String.length].
    rewrite Nat.add_0_r, append_nil_r. reflexivity.
  - cbn [rep_loop take_while lstrip_by]. destruct (cls c) eqn:Ec.
    + cbn [andb below]. rewrite IH. cbn [String.length].
      rewrite Nat.add_succ_r, append_assoc. cbn [append plus Nat.add].
      destruct (lo <=? S (n + String.length (take_while cls s)))%nat eqn:El;
        [reflexivity|].
      apply Nat.leb_gt in El.
      destruct (lo <=? n)%nat eqn:En; [apply Nat.leb_le in En; lia | reflexivity].
    + cbn [andb String.length]. rewrite Nat.add_0_r, append_nil_r. reflexivity.
Qed.

Lemma exec_run (prev : option ascii) (s : string) :
  exec [plus cls] prev s "" []
  = if (1 <=? String.length (take_while cls s))%nat
    then Some (mkMatch [] (take_while cls s) (lstrip_by cls s))
    else None.
Proof. exact (rep_loop_run 1 s 0 prev ""). Qed.

(** Substituting a dash for every run of the class, read off directly. *)
Lemma sub_go_squeeze (s : string) :
  (forall prev, sub_go [plus cls] (fun _ => "-") prev s 0 = squeeze cls false s)
  /\ (forall prev,
        sub_go [plus cls] (fun _ => "-") prev s (String.length (take_while cls s))
        = squeeze cls true s).
Proof.
  induction s as [|c s [IH0 IH1]]; [split; reflexivity|].
  assert (H0 : forall prev,
             sub_go [plus cls] (fun _ => "-") prev (String c s) 0
             = squeeze cls false (String c s)).
  { intros prev. cbn [sub_go]. rewrite exec_run. cbn [take_while squeeze].
    destruct (cls c).
    - cbn [String.length Nat.leb m_text]. cbn [Nat.sub].
      rewrite Nat.sub_0_r, IH1. reflexivity.
    - cbn [String.length Nat.leb]. rewrite IH0. reflexivity. }
  split; [exact H0|].
  intros prev. destruct (cls c) eqn:Ec.
  - cbn [take_while squeeze]. rewrite Ec. cbn [String.length sub_go]. apply IH1.
  - replace (String.length (take_while cls (String c s))) with 0%nat
      by (cbn [take_while]; rewrite Ec; reflexivity).
    rewrite H0. cbn [squeeze]. rewrite Ec. reflexivity.
Qed.

End Squeezing.

Lemma sub_slug_gap (s : string) :
  sub SLUG_GAP (fun _ => "-") s = squeeze not_slug false s.
Proof. apply (sub_go_squeeze not_slug s). Qed.

Section SlugFacts.

Lemma kept_is_slug (c : ascii) : not_slug c = false -> slug_char c = true.
Proof.
  unfold not_slug, slug_char. intros H. apply negb_false_iff in H.
  rewrite H. reflexivity.
Qed.

Lemma kept_is_no_dash (c : ascii) : not_slug c = false -> Ascii.eqb c "-" = false.
Proof.
  intros H. destruct (Ascii.eqb c "-") eqn:E; [|reflexivity].
  apply Ascii.eqb_eq in E. subst c. vm_compute in H. discriminate.
Qed.

Lemma slug_gap_is_dash (c : ascii) :
  slug_char c = true -> not_slug c = true -> Ascii.eqb c "-" = true.
Proof.
  unfold not_slug, slug_char. intros Hs Hn. apply negb_true_iff in Hn.
  rewrite Hn in Hs. exact Hs.
Qed.

Lemma slug_char_not_space (c : ascii) : slug_char c = true -> negb (is_space c) = true.
Proof.
  intros H.
  assert (A : forall d, implb (slug_char d) (negb (is_space d)) = true)
    by (apply all_ascii; vm_compute; reflexivity).
  specialize (A c). rewrite H in A. exact A.
Qed.

Lemma slug_char_lower (c : ascii) : slug_char c = true -> lower_char c = c.
Proof.
  intros H.
  assert (A : forall d, implb (slug_char d) (Ascii.eqb (lower_char d) d) = true)
    by (apply all_ascii; vm_compute; reflexivity).
  specialize (A c). rewrite H in A. apply Ascii.eqb_eq. exact A.
Qed.

Lemma squeeze_slug_chars (s : string) :
  forall b, all_chars slug_char (squeeze not_slug b s) = true.
Proof.
  induction s as [|c s IH]; intros b; [reflexivity|]. cbn [squeeze].
  destruct (not_slug c) eqn:Ec.
  - destruct b; [apply IH|]. cbn [all_chars]. rewrite IH. reflexivity.
  - cbn [all_chars]. rewrite (kept_is_slug c Ec), IH. reflexivity.
Qed.

Lemma squeeze_dashes (s : string) :
  contains "--" (squeeze not_slug false s) = false
  /\ contains "--" (squeeze not_slug true s) = false
  /\ String.prefix "-" (squeeze not_slug true s) = false.
Proof.
  induction s as [|c s (IH0 & IH1 & IHp)]; [repeat split|].
  cbn [squeeze]. destruct (not_slug c) eqn:Ec.
  - split; [|split; assumption].
    rewrite double_dash, IHp, IH1. reflexivity.
  - rewrite double_dash, dash_prefix, (kept_is_no_dash c Ec), IH0.
    repeat split.
Qed.

(** A text of slug characters without a double dash has no run to
    replace. *)
Lemma squeeze_clean (s : string) :
  all_chars slug_char s = true ->
  contains "--" s = false ->
  squeeze not_slug false s = s
  /\ (String.prefix "-" s = false -> squeeze not_slug true s = s).
Proof.
  induction s as [|c s IH]; [split; reflexivity|].
  cbn [all_chars]. rewrite double_dash. intros Ha Hd.
  apply andb_prop in Ha as [Hc Hs].
  apply orb_false_elim in Hd as [Hcd Hd].
  destruct (IH Hs Hd) as [IH0 IH1].
  cbn [squeeze]. destruct (not_slug c) eqn:Ec.
  - pose proof (slug_gap_is_dash c Hc Ec) as Edash.
    rewrite Edash in Hcd. cbn [andb] in Hcd.
    apply Ascii.eqb_eq in Edash. subst c.
    split; [rewrite (IH1 Hcd); reflexivity|].
    rewrite dash_prefix. discriminate.
  - rewrite IH0. split; reflexivity.
Qed.

(** On a text of slug characters without a double dash, [slugify] only
    strips dashes and truncates. *)
Lemma slugify_on_slug_text (s : string) :
  all_chars slug_char s = true ->
  contains "--" s = false ->
  slugify s = take 120 (strip_by (is_char "-") s).
Proof.
  intros Ha Hd. unfold slugify.
  assert (Hns : all_chars (fun c => negb (is_space c)) s = true)
    by (apply (all_chars_impl slug_char); [exact slug_char_not_space | exact Ha]).
  assert (E1 : strip s = s)
    by (unfold strip; rewrite (lstrip_by_none _ s Hns); apply rstrip_by_none; exact Hns).
  assert (E2 : lower s = s)
    by (apply (map_chars_fixed lower_char slug_char); [exact slug_char_lower | exact Ha]).
  rewrite E1, E2, sub_slug_gap.
  destruct (squeeze_clean s Ha Hd) as [-> _]. reflexivity.
Qed.

Lemma slugify_slug_chars (name : string) : all_chars slug_char (slugify name) = true.
Proof.
  unfold slugify. rewrite sub_slug_gap.
  set (t := squeeze not_slug false _).
  pose proof (squeeze_slug_chars (lower (strip name)) false) as Ht. fold t in Ht.
  destruct (strip_by_piece (is_char "-") t) as (a & b & Hab).
  rewrite Hab in Ht. apply all_chars_piece in Ht.
  rewrite (take_drop 120 (strip_by (is_char "-") t)) in Ht.
  apply (all_chars_piece slug_char "" _ (drop 120 (strip_by (is_char "-") t))).
  exact Ht.
Qed.

Lemma slugify_no_double_dash (name : string) : contains "--" (slugify name) = false.
Proof.
  unfold slugify. rewrite sub_slug_gap.
  set (t := squeeze not_slug false _).
  destruct (squeeze_dashes (lower (strip name))) as [Ht _]. fold t in Ht.
  destruct (strip_by_piece (is_char "-") t) as (a & b & Hab).
  rewrite Hab in Ht. apply contains_piece in Ht.
  rewrite (take_drop 120 (strip_by (is_char "-") t)) in Ht.
  apply (contains_piece "--" "" _ (drop 120 (strip_by (is_char "-") t))).
  exact Ht.
Qed.

Lemma slugify_no_dash_in_front (name : string) :
  String.prefix "-" (slugify name) = false.
Proof.
  unfold slugify, strip_by. apply take_front, rstrip_front, lstrip_dash_front.
Qed.

Lemma slugify_length (name : string) : (String.length (slugify name) <= 120)%nat.
Proof. unfold slugify. apply take_length. Qed.

(** A stripped and truncated text that is as long as the text is the
    text. *)
Lemma strip_take_same (s : string) :
  take 120 (strip_by (is_char "-") s) = s -> strip_by (is_char "-") s = s.
Proof.
  intros H.
  destruct (strip_by_piece (is_char "-") s) as (a & b & Hab).
  pose proof (take_drop 120 (strip_by (is_char "-") s)) as Htd.
  rewrite H in Htd.
  assert (Hlen : String.length s
                 = (String.length a
                    + (String.length s
                       + String.length (drop 120 (strip_by (is_char "-") s)))
                    + String.length b)%nat).
  { rewrite Hab at 1. rewrite !length_append. rewrite Htd at 1.
    rewrite length_append. lia. }
  destruct (drop 120 (strip_by (is_char "-") s)) as [|d r];
    [|simpl in Hlen; lia].
  rewrite append_nil_r in Htd. exact Htd.
Qed.

End SlugFacts.

(** X16. The result of [slugify] is made of the characters [a-z], [0-9]
    and the dash, is at most 120 characters long, does not start with a
    dash and holds no two dashes in a row. *)
Theorem slugify_gives_a_slug (name : string) :
  all_chars slug_char (slugify name) = true
  /\ (String.length (slugify name) <= 120)%nat
  /\ String.prefix "-" (slugify name) = false
  /\ contains "--" (slugify name) = false.
Proof.
  split; [apply slugify_slug_chars|].
  split; [apply slugify_length|].
  split; [apply slugify_no_dash_in_front | apply slugify_no_double_dash].
Qed.

(** X17. The texts [slugify] returns unchanged are exactly those made of
    [a-z], [0-9] and single dashes, with no dash at either end and at most
    120 characters. *)
Theorem slugify_fixed_points (s : string) :
  slugify s = s
  <-> all_chars slug_char s = true
      /\ contains "--" s = false
      /\ strip_by (is_char "-") s = s
      /\ (String.length s <= 120)%nat.
Proof.
  split.
  - intros H.
    assert (Ha : all_chars slug_char s = true)
      by (rewrite <- H; apply slugify_slug_chars).
    assert (Hd : contains "--" s = false)
      by (rewrite <- H; apply slugify_no_double_dash).
    split; [exact Ha|]. split; [exact Hd|].
    split; [|rewrite <- H; apply slugify_length].
    apply strip_take_same. rewrite <- (slugify_on_slug_text s Ha Hd). exact H.
  - intros (Ha & Hd & Hs & Hl).
    rewrite (slugify_on_slug_text s Ha Hd), Hs. apply take_all. exact Hl.
Qed.

(** X18. [slugify] applied to its own result gives that result again,
    provided the result is shorter than 120 characters (a result of 120
    characters may end with a dash, which a second pass strips). *)
Theorem slugify_twice (name : string) :
  (String.length (slugify name) < 120)%nat ->
  slugify (slugify name) = slugify name.
Proof.
  intros Hl.
  rewrite (slugify_on_slug_text _ (slugify_slug_chars name) (slugify_no_double_dash name)).
  assert (Hs : strip_by (is_char "-") (slugify name) = slugify name).
  { unfold slugify in *. set (t := strip_by _ _) in *.
    assert (Et : take 120 t = t).
    { pose proof (take_drop 120 t) as Htd.
      destruct (drop 120 t) as [|d r] eqn:Ed;
        [rewrite append_nil_r in Htd; symmetry; exact Htd|].
      exfalso. clear Htd. revert Hl Ed. generalize 120%nat. generalize t.
      clear. intros t n. revert t.
      induction n as [|n IH]; intros t Hl Ed; [lia|].
      destruct t as [|c t]; [discriminate|]. simpl in *.
      apply (IH t); [lia | exact Ed]. }
    rewrite Et. unfold t, strip_by.
    rewrite lstrip_rstrip. apply rstrip_by_idem. }
  rewrite Hs. apply take_all. lia.
Qed.

Lemma slugify_twice_witness :
  (String.length (slugify "  Hello, World!  ") < 120)%nat
  /\ slugify (slugify "  Hello, World!  ") = slugify "  Hello, World!  ".
Proof.
  assert (H : (String.length (slugify "  Hello, World!  ") < 120)%nat)
    by (vm_compute; lia).
  split; [exact H|].
  exact (slugify_twice "  Hello, World!  " H).
Defined.

Section LetterCase.

Lemma lower_char_space (c : ascii) : is_space (lower_char c) = is_space c.
Proof.
  assert (A : forall d, Bool.eqb (is_space (lower_char d)) (is_space d) = true)
    by (apply all_ascii; vm_compute; reflexivity).
  apply eqb_prop, A.
Qed.

Lemma lower_char_idem (c : ascii) : lower_char (lower_char c) = lower_char c.
Proof.
  assert (A : forall d, Ascii.eqb (lower_char (lower_char d)) (lower_char d) = true)
    by (apply all_ascii; vm_compute; reflexivity).
  apply Ascii.eqb_eq, A.
Qed.

Lemma lower_idem (s : string) : lower (lower s) = lower s.
Proof.
  unfold lower. induction s as [|c s IH]; [reflexivity|].
  cbn [map_chars]. rewrite lower_char_idem, IH. reflexivity.
Qed.

Lemma lstrip_lower (s : string) :
  lstrip_by is_space (lower s) = lower (lstrip_by is_space s).
Proof.
  unfold lower. induction s as [|c s IH]; [reflexivity|].
  cbn [map_chars lstrip_by]. rewrite lower_char_space.
  destruct (is_space c); [exact IH | reflexivity].
Qed.

Lemma rstrip_lower (s : string) :
  rstrip_by is_space (lower s) = lower (rstrip_by is_space s).
Proof.
  unfold lower. induction s as [|c s IH]; [reflexivity|].
  cbn [map_chars rstrip_by]. rewrite IH, lower_char_space.
  destruct (rstrip_by is_space s); [destruct (is_space c)|]; reflexivity.
Qed.

End LetterCase.

(** X19. [slugify] does not see the case of letters: a name and its
    lower-case form get the same slug. *)
Theorem slugify_ignores_case (name : string) :
  slugify (lower name) = slugify name.
Proof.
  unfold slugify, strip.
  rewrite lstrip_lower, rstrip_lower, lower_idem. reflexivity.
Qed.
